(** * minio-ratelimit: the rate-controlled probe and telemetry pipeline

    A shallow embedding of the Python test and ingestion scripts:

    - [bin/tests/test_rate_limit.py]                    (module [LoadTest])
    - [bin/tests/test/test_advanced_rate_limiting.py]   (module [Advanced])
    - [bin/tests/test_individual_limits.py]             (module [Individual])
    - [test/test_rate_limiting.py]                      (module [Boto])
    - [cmd/ratelimit-test/ingest_hyperdx.py]            (module [HyperDX])
    - [cmd/ratelimit-test/import_data.py]               (module [ImportData])

    Conventions.  A Python [dict] that is only looked up by key is a
    [gmap]; a [dict] whose iteration order is observable (the groups of
    an export file) is an association list in insertion order.  Wall
    clock time is an integer number of ticks, [second] ticks to the
    second; the only things that take time are a request's latency and
    [time.sleep].  The gateway and the analytical store are oracles. *)

From stdpp Require Import base list strings pretty gmap.
From Stdlib Require Import Ascii ZArith Lia.

Open Scope Z_scope.

(** ** Strings as Python sees them *)

(** [str.lower] on one character of a header name.  [http.client] decodes
    header lines as ISO-8859-1, so a character is one code point below
    256: [A-Z] and the upper-case letters of the Latin-1 supplement
    (U+00C0 to U+00DE without the multiplication sign U+00D7) move up by
    32, everything else stays. *)
Definition lower_char (c : ascii) : ascii :=
  let n := N_of_ascii c in
  if ((65 <=? n) && (n <=? 90))%N
     || ((192 <=? n) && (n <=? 222) && negb (n =? 215))%N
  then ascii_of_N (n + 32)
  else c.

Fixpoint lower (s : string) : string :=
  match s with
  | EmptyString => EmptyString
  | String c s' => String (lower_char c) (lower s')
  end.

(** [needle in hay] on strings: [needle] occurs as a contiguous slice. *)
Fixpoint contains (needle hay : string) : bool :=
  String.prefix needle hay
  || match hay with
     | EmptyString => false
     | String _ hay' => contains needle hay'
     end.

(** Truthiness of a [str]: only the empty string is falsy. *)
Definition truthy (s : string) : bool :=
  match s with
  | EmptyString => false
  | String _ _ => true
  end.

(** ** Response headers

    [requests] hands the headers out as a [CaseInsensitiveDict]: at most
    one entry per lower-cased name, each remembering the spelling it was
    set with.  [items()] yields (spelling, value) in insertion order and
    [get] compares lower-cased names. *)
Definition headers := list (string * string).

Definition headers_wf (hs : headers) : Prop :=
  NoDup (lower <$> hs.*1).

Fixpoint ci_get (hs : headers) (name : string) : option string :=
  match hs with
  | [] => None
  | (h, v) :: hs' =>
      if decide (lower h = lower name) then Some v else ci_get hs' name
  end.

(** Two header sets are the same up to the spelling of the names. *)
Definition same_up_to_case (hs1 hs2 : headers) : Prop :=
  Forall2 (λ a b, lower a.1 = lower b.1 ∧ a.2 = b.2) hs1 hs2.

(** ** The gateway as an oracle *)

(** What [requests.request] does for one call: it returns a response or
    raises; either way [latency] ticks pass before the call is over. *)
Inductive reply :=
  | Responded (status : Z) (hs : headers)
  | Raised (message : string).

Record exchange := Exchange { ex_reply : reply; ex_latency : Z }.

(** The request handed to [requests]: method, URL, header fields and
    query parameters. *)
Record request := Request {
  req_method : string;
  req_url : string;
  req_headers : gmap string string;
  req_params : gmap string string
}.

(** The gateway answers the [n]-th request of a run. *)
Definition gateway := nat → request → exchange.

(** ** The window loop

    [run_load_test] and [run_sustained_test] contain the same loop; they
    differ in the pool size and in the call they submit.  The loop is
    written once, over the submitted call [task]: [task n t] is the
    [n]-th call submitted during the run when a worker picks it up at
    time [t], and gives the value the call returns and the time at which
    it returns. *)

(** The worker that has been idle longest among [w :: ws] (each number is
    the time a worker became idle), and the other workers. *)
Fixpoint pick_idle (w : Z) (ws : list Z) : Z * list Z :=
  match ws with
  | [] => (w, [])
  | w' :: ws' =>
      let '(m, rest) := pick_idle w' ws' in
      if w <=? m then (w, ws) else (m, w :: rest)
  end.

(** [ThreadPoolExecutor]: the submitted calls wait in a FIFO queue and
    each is run by the first worker that is idle.  The result lists, for
    every future in submission order, its value and the time it was
    done; the pool is returned with the times the workers became idle
    again.  (A pool without workers cannot be built: the constructor
    raises for [max_workers <= 0].) *)
Fixpoint executor {R} (idle : list Z) (tasks : list (Z → R * Z))
  : list (R * Z) * list Z :=
  match tasks with
  | [] => ([], idle)
  | t :: tasks' =>
      match idle with
      | [] => ([], [])
      | w :: ws =>
          let '(start, others) := pick_idle w ws in
          let '(r, done_at) := t start in
          let '(futures, pool) := executor (done_at :: others) tasks' in
          ((r, done_at) :: futures, pool)
      end
  end.

(** One iteration as the loop's instrumentation sees it. *)
Record window := Window {
  w_start : Z;        (* batch_start *)
  w_submitted : nat;  (* len(futures) *)
  w_workers : nat;    (* threads of the pool when the batch is collected *)
  w_done : Z;         (* the clock after the last future.result() *)
  w_slept : Z         (* what time.sleep was called with; 0 if it was not *)
}.

Record engine {R} := Engine {
  now : Z;            (* time.time() *)
  results : list R;
  issued : nat;       (* calls submitted so far *)
  log : list window
}.
Arguments engine : clear implicits.
Arguments Engine {R} _ _ _ _.

Section Engine.
Context {R : Type}.
Variable second : Z.
Variable max_workers : nat.
Variable task : nat → Z → R * Z.

(** The body of the [while] loop. *)
Definition window_step (rate : Z) (st : engine R) : engine R :=
  let batch_start := now st in
  let tasks := task <$> seq (issued st) (Z.to_nat rate) in
  let '(futures, pool) := executor (replicate max_workers batch_start) tasks in
  let collected := foldl Z.max batch_start (futures.*2) in
  let elapsed := collected - batch_start in
  let slept := if elapsed <? second then second - elapsed else 0 in
  {| now := collected + slept;
     results := results st ++ futures.*1;
     issued := (issued st + length tasks)%nat;
     log := log st ++ [Window batch_start (length futures) (length pool)
                              collected slept] |}.

(** [while time.time() - start_time < duration: ...]; [None] when the
    fuel runs out before the condition turns false. *)
Fixpoint window_loop (rate duration start_time : Z) (fuel : nat)
    (st : engine R) : option (engine R) :=
  if now st - start_time <? duration then
    match fuel with
    | O => None
    | S fuel' => window_loop rate duration start_time fuel' (window_step rate st)
    end
  else Some st.

(** Every iteration moves the clock by a second or more, so this many
    iterations are enough (see [window_loop_terminates]). *)
Definition windows_bound (duration : Z) : nat :=
  Z.to_nat ((duration + second - 1) / second).

Definition run_windows (rate duration start_time : Z) : option (engine R) :=
  window_loop rate duration start_time (windows_bound duration)
    (Engine start_time [] O []).
End Engine.

(** ** [bin/tests/test_rate_limit.py] *)
Module LoadTest.

(** The dict [test_request] returns. *)
Inductive result :=
  | Response (status_code : Z) (hdrs : gmap string string)
      (api_key : option string) (method : string) (timestamp : Z)
  | Failure (error : string)
      (api_key : option string) (method : string) (timestamp : Z).

(** [r.get('status_code', 0)] *)
Definition get_status_code (r : result) : Z :=
  match r with
  | Response status _ _ _ _ => status
  | Failure _ _ _ _ => 0
  end.

(** ['error' in r] *)
Definition has_error (r : result) : bool :=
  match r with
  | Response _ _ _ _ _ => false
  | Failure _ _ _ _ => true
  end.

Definition timestamp_of (r : result) : Z :=
  match r with
  | Response _ _ _ _ t => t
  | Failure _ _ _ t => t
  end.

(** [if api_key:] holds for a non-empty string. *)
Definition build_request (base_url : string) (api_key : option string)
    (method path : string) : request :=
  let params :=
    match api_key with
    | Some k => if truthy k then {[ "AWSAccessKeyId" := k ]} else ∅
    | None => ∅
    end in
  Request method (base_url +:+ path)
    {[ "User-Agent" := "test-client/1.0" ]} params.

(** [test_request]: the three branches on [method] send the same
    request with the same timeout.  The call is picked up at [start];
    its value and the time it returns. *)
Definition test_request (gw : request → exchange) (base_url : string)
    (api_key : option string) (method path : string) (start : Z)
  : result * Z :=
  let ex := gw (build_request base_url api_key method path) in
  let done_at := start + ex_latency ex in
  match ex_reply ex with
  | Responded status hs =>
      (Response status (list_to_map hs) api_key method done_at, done_at)
  | Raised e => (Failure e api_key method done_at, done_at)
  end.

(** [analyze_results]: the counts it prints and the header lines of the
    first rate-limited response it samples. *)
Record analysis := Analysis {
  total : nat;
  success_count : nat;
  rate_limited_count : nat;
  error_count : nat;
  sample : gmap string string
}.

Definition analyze_results (results : list result) : analysis :=
  let rate_limited_responses :=
    filter (λ r, get_status_code r = 429) results in
  {| total := length results;
     success_count := length (filter (λ r, get_status_code r = 200) results);
     rate_limited_count := length (filter (λ r, get_status_code r = 429) results);
     error_count := length (filter (λ r, has_error r = true) results);
     sample :=
       match rate_limited_responses with
       | Response _ hs _ _ _ :: _ =>
           filter (λ kv, contains "rate" (lower kv.1) = true
                         ∨ contains "limit" (lower kv.1) = true) hs
       | _ => ∅
       end |}.

Section Run.
Variable second : Z.
Variable gw : gateway.

Definition task (base_url : string) (api_key : option string)
    (method : string) (n : nat) (start : Z) : result * Z :=
  test_request (gw n) base_url api_key method "/test-bucket/" start.

(** The loop of [run_load_test], with its clock and instrumentation.
    [duration] and [start_time] are in ticks. *)
Definition load_engine (base_url : string) (api_key : option string)
    (method : string) (requests_per_second duration start_time : Z)
  : option (engine result) :=
  run_windows second 20 (task base_url api_key method)
    requests_per_second duration start_time.

Definition run_load_test (base_url : string) (api_key : option string)
    (method : string) (requests_per_second duration start_time : Z)
  : option (list result) :=
  results <$> load_engine base_url api_key method
                requests_per_second duration start_time.

(** The parsed command line; [--rate] and [--duration] are any
    integers, [--method] and [--test-type] are checked against their
    [choices]. *)
Record args := Args {
  url : string;
  arg_api_key : string;
  arg_method : string;
  rate : Z;
  arg_duration : Z;      (* seconds *)
  test_type : string
}.

Inductive outcome :=
  | Usage_error                (* argparse exits before anything runs *)
  | Single (r : result)
  | Load (a : analysis).

Definition main (a : args) (start_time : Z) : option outcome :=
  if decide (arg_method a ∈ ["GET"; "PUT"]
             ∧ test_type a ∈ ["single"; "load"]) then
    if decide (test_type a = "single") then
      Some (Single (test_request (gw O) (url a) (Some (arg_api_key a))
                      (arg_method a) "/test-bucket/" start_time).1)
    else
      (λ rs, Load (analyze_results rs)) <$>
        run_load_test (url a) (Some (arg_api_key a)) (arg_method a)
          (rate a) (arg_duration a * second) start_time
  else Some Usage_error.
End Run.
End LoadTest.

(** ** [bin/tests/test/test_advanced_rate_limiting.py] *)
Module Advanced.

(** *** [S3AuthSimulator]

    [utcnow] is what [datetime.utcnow().strftime] prints for a format
    at the moment of the call; the signatures are the constants of the
    source. *)
Record S3AuthSimulator := Sim { access_key : string; secret_key : string }.

Section Auth.
Variable utcnow : string → string.

Definition create_v4_auth_header (self : S3AuthSimulator)
    (method path host : string) : gmap string string :=
  let timestamp := utcnow "%Y%m%dT%H%M%SZ" in
  let date_stamp := utcnow "%Y%m%d" in
  let credential :=
    access_key self +:+ "/" +:+ date_stamp +:+ "/us-east-1/s3/aws4_request" in
  let auth_header :=
    "AWS4-HMAC-SHA256 Credential=" +:+ credential
    +:+ ", SignedHeaders=host;x-amz-date, Signature=dummy-signature" in
  {[ "Authorization" := auth_header;
     "X-Amz-Date" := timestamp;
     "Host" := host ]}.

Definition create_v2_auth_header (self : S3AuthSimulator)
    (method path : string) : gmap string string :=
  let signature := "dummy-signature-v2" in
  let auth_header := "AWS " +:+ access_key self +:+ ":" +:+ signature in
  {[ "Authorization" := auth_header;
     "Date" := utcnow "%a, %d %b %Y %H:%M:%S GMT" ]}.

Definition create_presigned_url_params (self : S3AuthSimulator)
    (method : string) (expires : Z) : gmap string string :=
  let timestamp := utcnow "%Y%m%dT%H%M%SZ" in
  let date_stamp := utcnow "%Y%m%d" in
  {[ "X-Amz-Algorithm" := "AWS4-HMAC-SHA256";
     "X-Amz-Credential" :=
       access_key self +:+ "/" +:+ date_stamp +:+ "/us-east-1/s3/aws4_request";
     "X-Amz-Date" := timestamp;
     "X-Amz-Expires" := pretty expires;
     "X-Amz-Signature" := "dummy-presigned-signature";
     "X-Amz-SignedHeaders" := "host" ]}.

(** The head of [test_request]: the headers and the query parameters
    after the [if]/[elif] chain on [auth_method].  [d.update(e)] is
    [e ∪ d].  The chain has no [else]. *)
Definition auth_material (auth_method api_key method path : string)
  : gmap string string * gmap string string :=
  let auth_sim := Sim api_key "dummy-secret" in
  let headers : gmap string string := {[ "User-Agent" := "test-client/2.0" ]} in
  let params : gmap string string := ∅ in
  if decide (auth_method = "v4") then
    (create_v4_auth_header auth_sim method path "localhost" ∪ headers, params)
  else if decide (auth_method = "v2") then
    (create_v2_auth_header auth_sim method path ∪ headers, params)
  else if decide (auth_method = "presigned") then
    (headers, create_presigned_url_params auth_sim method 3600 ∪ params)
  else if decide (auth_method = "query_v2") then
    (headers, <["Signature" := "dummy-signature"]>
                (<["AWSAccessKeyId" := api_key]> params))
  else if decide (auth_method = "custom") then
    (<["X-API-Key" := api_key]> headers, params)
  else (headers, params).

Definition build_request (base_url auth_method api_key method path : string)
  : request :=
  let '(headers, params) := auth_material auth_method api_key method path in
  Request method (base_url +:+ path) headers params.
End Auth.

(** *** [test_request] *)

(** The dict [test_request] returns; [rate_info] is a plain [dict]. *)
Inductive result :=
  | Response (status_code : Z) (rate_info : gmap string string)
      (api_key auth_method method : string) (timestamp response_time : Z)
  | Failure (error : string)
      (api_key auth_method method : string) (timestamp : Z).

(** [r.get('status_code')] *)
Definition get_status_code (r : result) : option Z :=
  match r with
  | Response status _ _ _ _ _ _ => Some status
  | Failure _ _ _ _ _ => None
  end.

(** ['error' in r] *)
Definition has_error (r : result) : bool :=
  match r with
  | Response _ _ _ _ _ _ _ => false
  | Failure _ _ _ _ _ => true
  end.

(** [r.get('rate_info', {})] *)
Definition get_rate_info (r : result) : gmap string string :=
  match r with
  | Response _ ri _ _ _ _ _ => ri
  | Failure _ _ _ _ _ => ∅
  end.

Definition timestamp_of (r : result) : Z :=
  match r with
  | Response _ _ _ _ _ t _ => t
  | Failure _ _ _ _ t => t
  end.

(** [r['response_time']] when ['response_time' in r] *)
Definition get_response_time (r : result) : option Z :=
  match r with
  | Response _ _ _ _ _ _ rt => Some rt
  | Failure _ _ _ _ _ => None
  end.

(** The test of the extraction loop on one header name. *)
Definition is_rate_header (header : string) : bool :=
  contains "rate" (lower header)
  || contains "api-key" (lower header)
  || contains "auth" (lower header).

(** [rate_info[header] = value] for the names that pass the test, under
    the spelling the response used. *)
Definition extract_rate_info (hs : headers) : gmap string string :=
  foldl (λ rate_info hv,
           if is_rate_header hv.1 then <[hv.1 := hv.2]> rate_info
           else rate_info) ∅ hs.

Definition test_request (utcnow : string → string) (gw : request → exchange)
    (base_url auth_method api_key method path : string) (start : Z)
  : result * Z :=
  let ex := gw (build_request utcnow base_url auth_method api_key method path) in
  let done_at := start + ex_latency ex in
  match ex_reply ex with
  | Responded status hs =>
      (Response status (extract_rate_info hs) api_key auth_method method
         done_at (ex_latency ex), done_at)
  | Raised e => (Failure e api_key auth_method method done_at, done_at)
  end.

(** *** [run_sustained_test] *)

(** The dict [run_sustained_test] returns; every key is always set.
    The average is kept as the sum and the count it divides. *)
Record summary := Summary {
  total_requests : nat;
  success_count : nat;
  rate_limited_count : nat;
  error_count : nat;
  detected_group : option string;
  avg_response_time : Z * nat;
  all_results : list result
}.

(** The loop "Get detected group from first successful response":
    [if result.get('rate_info', {}).get('X-RateLimit-Group'):] tests the
    value found under exactly that key for truth. *)
Fixpoint detect_group (results : list result) : option string :=
  match results with
  | [] => None
  | r :: rest =>
      match get_rate_info r !! "X-RateLimit-Group" with
      | Some g => if truthy g then Some g else detect_group rest
      | None => detect_group rest
      end
  end.

(** The analysis after the loop. *)
Definition summarize (results : list result) : summary :=
  let response_times := omap get_response_time results in
  {| total_requests := length results;
     success_count :=
       length (filter (λ r, get_status_code r = Some 200) results);
     rate_limited_count :=
       length (filter (λ r, get_status_code r = Some 429) results);
     error_count := length (filter (λ r, has_error r = true) results);
     detected_group := detect_group results;
     avg_response_time := (foldr Z.add 0 response_times, length response_times);
     all_results := results |}.

(** [result.get('detected_group', 'N/A')] as printed by the comparison:
    the key is always present, so the default is never taken and an
    undetected group prints as [str(None)]. *)
Definition shown_detected_group (s : summary) : string :=
  match detected_group s with
  | Some g => g
  | None => "None"
  end.

Section Run.
Variable second : Z.
Variable utcnow : string → string.
Variable gw : gateway.

Definition task (base_url auth_method api_key : string) (n : nat) (start : Z)
  : result * Z :=
  test_request utcnow (gw n) base_url auth_method api_key
    "GET" "/test-bucket/test-object" start.

(** The loop of [run_sustained_test], with its clock and
    instrumentation; [duration] and [start_time] are in ticks. *)
Definition sustained_engine (base_url api_key auth_method : string)
    (duration rate start_time : Z) : option (engine result) :=
  run_windows second 10 (task base_url auth_method api_key)
    rate duration start_time.

Definition run_sustained_test (base_url api_key auth_method : string)
    (duration rate start_time : Z) : option summary :=
  (λ st, summarize (results st)) <$>
    sustained_engine base_url api_key auth_method duration rate start_time.
End Run.

(** *** The command line *)

Record args := Args {
  url : string;
  test_type : string;
  arg_api_key : string;
  arg_auth_method : string;
  rate : Z;
  arg_duration : Z;      (* seconds *)
  arg_method : string
}.

Definition auth_methods : list string :=
  ["v4"; "v2"; "presigned"; "query_v2"; "custom"].

(** [parser.parse_args()]: an argument outside its [choices] makes
    argparse print the usage and exit with status 2. *)
Definition parse_args (a : args) : option args :=
  if decide (test_type a ∈ ["single"; "auth-methods"; "group-comparison";
                            "sustained"; "status"]
             ∧ arg_auth_method a ∈ auth_methods
             ∧ arg_method a ∈ ["GET"; "PUT"; "POST"]) then Some a
  else None.

Definition test_keys : list (string * string) :=
  [("test-premium-key", "premium"); ("test-standard-key", "standard");
   ("test-basic-key", "basic"); ("unknown-key", "unknown")].

Section Main.
Variable second : Z.
Variable utcnow : string → string.
(** [gws k] is the gateway as the [k]-th run of the process sees it. *)
Variable gws : nat → gateway.

(** Calls made one after the other on one thread. *)
Fixpoint sequential (calls : list (Z → result * Z)) (t : Z) : list result :=
  match calls with
  | [] => []
  | call :: calls' =>
      let '(r, done_at) := call t in r :: sequential calls' done_at
  end.

Definition test_auth_methods (base_url api_key : string) (t : Z)
  : list result :=
  sequential
    (imap (λ n auth_method,
             test_request utcnow (gws O n) base_url auth_method api_key
               "GET" "/test-bucket/test-object") auth_methods) t.

Definition show_rate_limit_status (base_url : string)
    (api_keys : list string) (t : Z) : list result :=
  sequential
    (imap (λ n api_key,
             test_request utcnow (gws O n) base_url "v4" api_key
               "GET" "/test-bucket/test-object") api_keys) t.

(** One sustained run per key, each on its own thread, at 20 requests
    a second with scheme v4; per key the expected group and the
    summary. *)
Definition run_group_comparison_test (base_url : string)
    (duration start_time : Z)
  : option (list (string * (string * summary))) :=
  mapM (λ '(k, (api_key, expected_group)),
          (λ s, (api_key, (expected_group, s))) <$>
            run_sustained_test second utcnow (gws k) base_url api_key "v4"
              duration 20 start_time)
       (imap (λ k kv, (k, kv)) test_keys).

Inductive outcome :=
  | Usage_error
  | Zero_division          (* success_count / total_requests with no result *)
  | Single (r : result)
  | Auth_methods (rs : list result)
  | Group_comparison (rows : list (string * (string * summary)))
  | Sustained (s : summary)
  | Status (rs : list result).

Definition main (a : args) (start_time : Z) : option outcome :=
  match parse_args a with
  | None => Some Usage_error
  | Some a =>
      if decide (test_type a = "single") then
        Some (Single (test_request utcnow (gws O O) (url a)
                        (arg_auth_method a) (arg_api_key a) (arg_method a)
                        "/test-bucket/test-object" start_time).1)
      else if decide (test_type a = "auth-methods") then
        Some (Auth_methods (test_auth_methods (url a) (arg_api_key a) start_time))
      else if decide (test_type a = "group-comparison") then
        Group_comparison <$>
          run_group_comparison_test (url a) (arg_duration a * second) start_time
      else if decide (test_type a = "sustained") then
        (λ s, if decide (total_requests s = O) then Zero_division
              else Sustained s) <$>
          run_sustained_test second utcnow (gws O) (url a) (arg_api_key a)
            (arg_auth_method a) (arg_duration a * second) (rate a) start_time
      else
        Some (Status (show_rate_limit_status (url a)
                        ["test-premium-key"; "test-standard-key";
                         "test-basic-key"; "unknown-key"] start_time))
  end.
End Main.
End Advanced.

(** ** [bin/tests/test_individual_limits.py] *)
Module Individual.

(** One entry of [results]; here the telemetry is read with
    [response.headers.get], on the case-insensitive dict itself. *)
Inductive result :=
  | Probe (status : Z) (current_rate group limit : string)
  | Failure (error : string).

Definition probe (ex : exchange) : result :=
  match ex_reply ex with
  | Responded status hs =>
      Probe status
        (default "N/A" (ci_get hs "x-ratelimit-current-per-minute"))
        (default "N/A" (ci_get hs "x-ratelimit-group"))
        (default "N/A" (ci_get hs "x-ratelimit-limit-per-minute"))
  | Raised e => Failure e
  end.

(** A printed cell: a number, or a string such as ['N/A'] or ['ERROR']. *)
Inductive cell := Int (n : Z) | Str (s : string).

Record report := Report {
  api_key : string;
  expected_group : string;
  detected_group : string;
  final_count : string;
  limit : string;
  last_status : cell
}.

(** [test_api_key]; [None] is the [IndexError] of [results[-1]] when no
    request was sent. *)
Definition test_api_key (gw : gateway) (api_key expected_group : string)
    (requests_to_send : nat) : option report :=
  let req :=
    Request "GET" "http://localhost/bucket/object"
      {[ "Authorization" := "AWS " +:+ api_key +:+ ":signature" ]} ∅ in
  let results := (λ i, probe (gw i req)) <$> seq 0 requests_to_send in
  match last results with
  | None => None
  | Some (Probe status current_rate group limit) =>
      Some (Report api_key expected_group group current_rate limit (Int status))
  | Some (Failure _) =>
      Some (Report api_key expected_group "ERROR" "ERROR" "ERROR" (Str "ERROR"))
  end.
End Individual.

(** ** [test/test_rate_limiting.py] *)
Module Boto.

(** What [client.list_buckets()] does: it returns (botocore hands the
    HTTP headers out as a dict with lower-case keys), raises a
    [ClientError] with an error code, or raises something else. *)
Inductive reply :=
  | Listed (http_headers : gmap string string)
  | Client_error (code : string)
  | Other_exception (message : string).

(** The counters of the [results] dict of [test_rate_limiting]. *)
Record counters := Counters {
  successful : nat;
  rate_limited : nat;
  errors : nat;
  response_times : nat
}.

Section Tester.
(** Python's [int] on a string; [None] is its [ValueError]. *)
Variable int : string → option Z.

(** [make_request]: the body of the [try] counts the call as
    successful before it looks at the remaining-requests header, and
    the last handler catches what [int] raises. *)
Definition make_request (c : counters) (r : reply) : counters :=
  match r with
  | Listed hs =>
      let c' := Counters (S (successful c)) (rate_limited c) (errors c)
                  (S (response_times c)) in
      match hs !! "x-ratelimit-remaining" with
      | Some remaining =>
          match int remaining with
          | Some _ => c'
          | None => Counters (successful c') (rate_limited c')
                      (S (errors c')) (response_times c')
          end
      | None => c'
      end
  | Client_error code =>
      if decide (code = "SlowDown")
      then Counters (successful c) (S (rate_limited c)) (errors c)
             (response_times c)
      else Counters (successful c) (rate_limited c) (S (errors c))
             (response_times c)
  | Other_exception _ =>
      Counters (successful c) (rate_limited c) (S (errors c))
        (response_times c)
  end.

(** The pacing loop decides only how many calls are made; [replies]
    is what they returned, in order.  The second component is
    [total_requests]. *)
Definition test_rate_limiting (replies : list reply) : counters * nat :=
  let results := foldl make_request (Counters 0 0 0 0) replies in
  (results, (successful results + rate_limited results + errors results)%nat).
End Tester.
End Boto.

(** ** The export file and the analytical store *)

(** A value of the export file after [json.load].  A float is kept as the
    decimal it was written as, [mantissa * 10 ^ exponent].  An object is
    its members in file order; a key occurs once. *)
#[warnings="-register-all"]
Inductive json :=
  | JNull
  | JBool (b : bool)
  | JInt (n : Z)
  | JFloat (mantissa exponent : Z)
  | JStr (s : string)
  | JArr (items : list json)
  | JObj (members : list (string * json)).

Fixpoint assoc (k : string) (members : list (string * json)) : option json :=
  match members with
  | [] => None
  | (k', v) :: members' => if decide (k' = k) then Some v else assoc k members'
  end.

(** The exceptions the ingestion code can run into and does not catch. *)
Inductive exn :=
  KeyError | TypeError | AttributeError | ValueError | OverflowError.

Inductive py (A : Type) :=
  | Ok (a : A)
  | Raise (e : exn).
Arguments Ok {A} _.
Arguments Raise {A} _.

Global Instance py_ret : MRet py := λ A a, Ok a.

Global Instance py_bind : MBind py :=
  λ A B k m, match m with
             | Ok a => k a
             | Raise e => Raise e
             end.

(** [d.get(k, default)] *)
Definition py_get (d : json) (k : string) (dflt : json) : py json :=
  match d with
  | JObj members => Ok (default dflt (assoc k members))
  | _ => Raise AttributeError
  end.

(** [k in d] for a string [k]: a key of a dict, an element of a list, a
    slice of a string. *)
Definition py_in (k : string) (d : json) : py bool :=
  match d with
  | JObj members => Ok (bool_decide (is_Some (assoc k members)))
  | JArr items =>
      Ok (existsb (λ v, match v with
                        | JStr s => bool_decide (s = k)
                        | _ => false
                        end) items)
  | JStr s => Ok (contains k s)
  | _ => Raise TypeError
  end.

(** [d[k]] for a string [k] *)
Definition py_index (d : json) (k : string) : py json :=
  match d with
  | JObj members =>
      match assoc k members with
      | Some v => Ok v
      | None => Raise KeyError
      end
  | _ => Raise TypeError
  end.

(** [d.items()] *)
Definition py_items (d : json) : py (list (string * json)) :=
  match d with
  | JObj members => Ok members
  | _ => Raise AttributeError
  end.

(** [len(v)] *)
Definition py_len (v : json) : py nat :=
  match v with
  | JObj members => Ok (length members)
  | JArr items => Ok (length items)
  | JStr s => Ok (String.length s)
  | _ => Raise TypeError
  end.

(** The integers [n] for which [n / 1_000_000_000] is a float.  The true
    division of two integers is rounded to the nearest double, ties to
    even; the largest double is [2^1024 - 2^971], so the quotient rounds
    to [2^1024], which is no double, from [2^1024 - 2^970] on. *)
Definition fits_float (n : Z) : bool :=
  Z.abs n <? (2 ^ 1024 - 2 ^ 970) * 1000000000.

(** [v / 1_000_000_000] is defined for numbers (and booleans); for an
    integer too large for the quotient to be a float it raises
    [OverflowError].  A float divided by an integer is a float again
    (an infinity stays one). *)
Definition py_number (v : json) : py json :=
  match v with
  | JInt n => if fits_float n then Ok v else Raise OverflowError
  | JFloat _ _ | JBool _ => Ok v
  | _ => Raise TypeError
  end.

(** [s.replace(...)] is a method of strings. *)
Definition py_str (v : json) : py string :=
  match v with
  | JStr s => Ok s
  | _ => Raise AttributeError
  end.

(** [for x in v] *)
Definition py_iter (v : json) : py (list json) :=
  match v with
  | JArr items => Ok items
  | JObj members => Ok (JStr <$> members.*1)
  | JStr s => Ok ((λ c, JStr (String c EmptyString)) <$> String.list_ascii_of_string s)
  | _ => Raise TypeError
  end.

(** One value of an [INSERT] as the f-string lays it out. *)
Inductive cell :=
  | Text (s : string)          (* '{s}' for a string of the program *)
  | Quoted (v : json)          (* '{v}' *)
  | Bare (v : json)            (* {v} *)
  | Dumped (v : json)          (* '{json.dumps(v)}' *)
  | Seconds (v : json).        (* {v / 1_000_000_000} *)

(** [INSERT INTO table (columns) VALUES (cells)] *)
Record query := Insert {
  q_table : string;
  q_row : list (string * cell)
}.

(** What the store does with one POST. *)
Inductive store_reply :=
  | Accepted (text : string)                 (* status 200 *)
  | Rejected (status : Z) (text : string)    (* any other status *)
  | Unreachable (message : string).          (* RequestException *)

(** The lines the tools print. *)
Inductive line :=
  | Sql_error (text : string)
  | Connection_error (message : string)
  | Inserted_summary
  | Failed_summary (result : string)
  | Inserting_groups (n : nat)
  | Inserted_group (group_name : string)
  | Failed_group (group_name : string) (result : string)
  | Inserting_events
  | Inserted_events (n : nat)
  | Found_records (n : nat)
  | No_data
  | Imported_group (group_name : string)
  | Failed_import (group_name : string) (text : string).

(** The world of an ingestion: the POSTs made so far, the rows the store
    took, and the lines printed. *)
Record world := World {
  attempts : list query;
  stored : list query;
  printed : list line
}.

(** A computation that can raise and that changes the world; what it did
    before it raised stays done. *)
Definition io (A : Type) : Type := world → py A * world.

Global Instance io_ret : MRet io := λ A a w, (Ok a, w).

Global Instance io_bind : MBind io :=
  λ A B k m w, match m w with
               | (Ok a, w') => k a w'
               | (Raise e, w') => (Raise e, w')
               end.

Definition lift {A} (r : py A) : io A := λ w, (r, w).

Definition print (l : line) : io unit :=
  λ w, (Ok (), World (attempts w) (stored w) (printed w ++ [l])).

Fixpoint fold_each {A S} (l : list A) (acc : S) (body : S → A → io S) : io S :=
  match l with
  | [] => mret acc
  | x :: l' => acc' ← body acc x; fold_each l' acc' body
  end.

Fixpoint for_each {A} (l : list A) (body : A → io unit) : io unit :=
  match l with
  | [] => mret ()
  | x :: l' => body x;; for_each l' body
  end.

(** [requests.post(url, data=query)] against a store that answers the
    [n]-th POST of the process with [clickhouse n]. *)
Definition post (clickhouse : nat → query → store_reply) (q : query)
  : io store_reply :=
  λ w, let r := clickhouse (length (attempts w)) q in
       (Ok r,
        World (attempts w ++ [q])
              (match r with Accepted _ => stored w ++ [q] | _ => stored w end)
              (printed w)).

(** ** [cmd/ratelimit-test/ingest_hyperdx.py] *)
Module HyperDX.
Section Ingester.
Variable clickhouse : nat → query → store_reply.
(** [str(uuid.uuid4())] for the [n]-th group of a call. *)
Variable uuid4 : nat → string.
(** [datetime.fromisoformat(ts.replace('+05:30', '')).strftime(...)];
    [None] is the [ValueError] of [fromisoformat]. *)
Variable event_time : string → option string.

(** [execute_sql]: both failures are printed and turned into [""]. *)
Definition execute_sql (q : query) : io string :=
  r ← post clickhouse q;
  match r with
  | Accepted text => mret text
  | Rejected _ text => print (Sql_error text);; mret ""
  | Unreachable e => print (Connection_error e);; mret ""
  end.

Definition ingest_summary (summary : json) (timestamp : string) : io unit :=
  duration ← lift (py_get summary "Duration" (JInt 0) ≫= py_number);
  total_tests ← lift (py_get summary "TotalTests" (JInt 0));
  total_requests ← lift (py_get summary "TotalRequests" (JInt 0));
  total_success ← lift (py_get summary "TotalSuccess" (JInt 0));
  total_limited ← lift (py_get summary "TotalLimited" (JInt 0));
  total_errors ← lift (py_get summary "TotalErrors" (JInt 0));
  auth_methods ← lift (py_get summary "AuthMethods" (JObj []));
  result ← execute_sql
    (Insert "test_summary"
       [("timestamp", Text timestamp); ("total_tests", Bare total_tests);
        ("duration_seconds", Seconds duration);
        ("total_requests", Bare total_requests);
        ("total_success", Bare total_success);
        ("total_limited", Bare total_limited);
        ("total_errors", Bare total_errors);
        ("auth_methods", Dumped auth_methods);
        ("summary_data", Dumped summary)]);
  if decide (result = "") then print Inserted_summary
  else print (Failed_summary result).

(** The body of the loop of [ingest_group_results] for the [n]-th group. *)
Definition ingest_group (timestamp : string) (n : nat)
    (group_name : string) (group_data : json) : io unit :=
  let test_id := uuid4 n in
  has ← lift (py_in "RateLimitAnalysis" group_data);
  rate_limit_analysis ←
    (if has : bool then lift (py_index group_data "RateLimitAnalysis")
     else mret (JObj []));
  api_key ← lift (py_get group_data "APIKey" (JStr ""));
  method ← lift (py_get group_data "Method" (JStr "Combined"));
  requests_sent ← lift (py_get group_data "RequestsSent" (JInt 0));
  success ← lift (py_get group_data "Success" (JInt 0));
  rate_limited ← lift (py_get group_data "RateLimited" (JInt 0));
  errors ← lift (py_get group_data "Errors" (JInt 0));
  avg_latency_ms ← lift (py_get group_data "AvgLatencyMs" (JFloat 0 0));
  auth_method ← lift (py_get group_data "AuthMethod" (JStr ""));
  rate_limit_group ← lift (py_get group_data "RateLimitGroup" (JStr ""));
  burst_hits ← lift (py_get group_data "BurstHits" (JInt 0));
  minute_hits ← lift (py_get group_data "MinuteHits" (JInt 0));
  effective_limit ← lift (py_get rate_limit_analysis "EffectiveLimit" (JInt 0));
  observed_bursts ← lift (py_get rate_limit_analysis "ObservedBursts" (JInt 0));
  success_rate ← lift (py_get rate_limit_analysis "SuccessRate" (JFloat 0 0));
  rate_limit_details ← lift (py_get group_data "RateLimitDetails" (JObj []));
  error_details ← lift (py_get group_data "ErrorDetails" (JObj []));
  header_captures ← lift (py_get group_data "HeaderCaptures" (JArr []));
  result ← execute_sql
    (Insert "test_results"
       [("timestamp", Text timestamp); ("test_id", Text test_id);
        ("test_group", Text group_name); ("api_key", Quoted api_key);
        ("method", Quoted method); ("requests_sent", Bare requests_sent);
        ("success_count", Bare success);
        ("rate_limited_count", Bare rate_limited);
        ("error_count", Bare errors); ("avg_latency_ms", Bare avg_latency_ms);
        ("auth_method", Quoted auth_method);
        ("rate_limit_group", Quoted rate_limit_group);
        ("burst_hits", Bare burst_hits); ("minute_hits", Bare minute_hits);
        ("effective_limit", Bare effective_limit);
        ("observed_bursts", Bare observed_bursts);
        ("success_rate", Bare success_rate);
        ("raw_data", Dumped group_data);
        ("rate_limit_details", Dumped rate_limit_details);
        ("error_details", Dumped error_details);
        ("header_captures", Dumped header_captures)]);
  if decide (result = "") then print (Inserted_group group_name)
  else print (Failed_group group_name result).

Definition ingest_group_results (groups : json) (timestamp : string) : io unit :=
  n ← lift (py_len groups);
  print (Inserting_groups n);;
  items ← lift (py_items groups);
  for_each (imap (λ n item, (n, item)) items)
    (λ '(n, (group_name, group_data)),
       ingest_group timestamp n group_name group_data).

(** The body of the inner loop of [ingest_throttle_events]; the state is
    [events_inserted]. *)
Definition ingest_event (group_name : string) (events_inserted : nat)
    (event : json) : io nat :=
  ts ← lift (py_index event "Timestamp" ≫= py_str);
  time ← lift (match event_time ts with
               | Some t => Ok t
               | None => Raise ValueError
               end);
  group ← lift (py_get event "Group" (JStr group_name));
  method ← lift (py_get event "Method" (JStr ""));
  remaining ← lift (py_get event "RemainingReqs" (JInt 0));
  reset ← lift (py_get event "ResetIn" (JInt 0));
  result ← execute_sql
    (Insert "throttle_events"
       [("timestamp", Text time); ("test_group", Quoted group);
        ("method", Quoted method); ("remaining_requests", Bare remaining);
        ("reset_in_seconds", Bare reset); ("event_data", Dumped event)]);
  mret (if decide (result = "") then S events_inserted else events_inserted).

Definition ingest_throttle_events (rate_limit_analysis : json)
    (base_timestamp : string) : io unit :=
  print Inserting_events;;
  items ← lift (py_items rate_limit_analysis);
  events_inserted ←
    fold_each items O
      (λ events_inserted '(group_name, group_analysis),
         has ← lift (py_in "ThrottleEvents" group_analysis);
         if has : bool then
           events ← lift (py_index group_analysis "ThrottleEvents" ≫= py_iter);
           fold_each events events_inserted (ingest_event group_name)
         else mret events_inserted);
  print (Inserted_events events_inserted).

(** [ingest_comprehensive_results] once the file is read and parsed;
    [current_timestamp] is the formatted time of the call. *)
Definition ingest_comprehensive_results (data : json)
    (current_timestamp : string) : io bool :=
  has_summary ← lift (py_in "summary" data);
  (if has_summary : bool then
     summary ← lift (py_index data "summary");
     ingest_summary summary current_timestamp
   else mret ());;
  (if has_summary : bool then
     summary ← lift (py_index data "summary");
     has ← lift (py_in "ByGroup" summary);
     if has : bool then
       groups ← lift (py_index summary "ByGroup");
       ingest_group_results groups current_timestamp
     else mret ()
   else mret ());;
  (if has_summary : bool then
     summary ← lift (py_index data "summary");
     has ← lift (py_in "RateLimitAnalysis" summary);
     if has : bool then
       analysis ← lift (py_index summary "RateLimitAnalysis");
       ingest_throttle_events analysis current_timestamp
     else mret ()
   else mret ());;
  mret true.
End Ingester.
End HyperDX.

(** ** [cmd/ratelimit-test/import_data.py] *)
Module ImportData.
Section Importer.
Variable clickhouse : nat → query → store_reply.
Variable uuid4 : nat → string.
(** [datetime.now().strftime(...)] when the [n]-th record is built. *)
Variable now_text : nat → string.

Record record := Record_ {
  timestamp : string;
  test_id : string;
  group : string;
  api_key : json;
  method : json;
  requests_sent : json;
  success_count : json;
  rate_limited_count : json;
  error_count : json;
  avg_latency_ms : json;
  auth_method : json
}.

Definition build_record (n : nat) (group_name : string) (group_data : json)
  : py record :=
  api_key ← py_get group_data "APIKey" (JStr "");
  method ← py_get group_data "Method" (JStr "Combined");
  requests_sent ← py_get group_data "RequestsSent" (JInt 0);
  success_count ← py_get group_data "Success" (JInt 0);
  rate_limited_count ← py_get group_data "RateLimited" (JInt 0);
  error_count ← py_get group_data "Errors" (JInt 0);
  avg_latency_ms ← py_get group_data "AvgLatencyMs" (JFloat 0 0);
  auth_method ← py_get group_data "AuthMethod" (JStr "");
  Ok (Record_ (now_text n) (uuid4 n) group_name api_key method requests_sent
        success_count rate_limited_count error_count avg_latency_ms auth_method).

Definition insert_of (r : record) : query :=
  Insert "test_results"
    [("timestamp", Text (timestamp r)); ("test_id", Text (test_id r));
     ("group", Text (group r)); ("api_key", Quoted (api_key r));
     ("method", Quoted (method r)); ("requests_sent", Bare (requests_sent r));
     ("success_count", Bare (success_count r));
     ("rate_limited_count", Bare (rate_limited_count r));
     ("error_count", Bare (error_count r));
     ("avg_latency_ms", Bare (avg_latency_ms r));
     ("auth_method", Quoted (auth_method r))].

(** The insert loop; [return False] inside the handler of
    [RequestException] leaves the loop and the function. *)
Fixpoint insert_records (records : list record) : io bool :=
  match records with
  | [] => mret true
  | r :: records' =>
      reply ← post clickhouse (insert_of r);
      match reply with
      | Accepted _ => print (Imported_group (group r));; insert_records records'
      | Rejected _ text =>
          print (Failed_import (group r) text);; insert_records records'
      | Unreachable e => print (Connection_error e);; mret false
      end
  end.

(** [import_results_to_clickhouse] once the file is read and parsed. *)
Definition import_results_to_clickhouse (data : json) : io bool :=
  has_summary ← lift (py_in "summary" data);
  items ←
    (if has_summary : bool then
       summary ← lift (py_index data "summary");
       has ← lift (py_in "ByGroup" summary);
       if has : bool then lift (py_index summary "ByGroup" ≫= py_items)
       else mret []
     else mret []);
  records ← lift (mapM (λ '(n, (group_name, group_data)),
                         build_record n group_name group_data)
                    (imap (λ n item, (n, item)) items));
  match records with
  | [] => print No_data;; mret false
  | _ => print (Found_records (length records));; insert_records records
  end.
End Importer.
End ImportData.

(** ** The properties the statements below are about *)

(** One call of a batch as the pool ran it: when a worker picked it up,
    what it returned, and when it returned. *)
Record call (R : Type) := Call { c_picked : Z; c_value : R; c_done : Z }.
Arguments Call {R} _ _ _.
Arguments c_picked {R} _.
Arguments c_value {R} _.
Arguments c_done {R} _.

(** One iteration of the loop: when it began, and the calls of its batch
    in the order they were submitted. *)
Record batch (R : Type) := Batch { b_start : Z; b_calls : list (call R) }.
Arguments Batch {R} _ _.
Arguments b_start {R} _.
Arguments b_calls {R} _.

(** The calls of a batch as the pool runs them: [executor] with the time
    each call was picked up kept beside its value. *)
Fixpoint pool_calls {R} (idle : list Z) (tasks : list (Z → R * Z))
  : list (call R) :=
  match tasks with
  | [] => []
  | t :: tasks' =>
      match idle with
      | [] => []
      | w :: ws =>
          let '(start, others) := pick_idle w ws in
          let '(r, done_at) := t start in
          Call start r done_at :: pool_calls (done_at :: others) tasks'
      end
  end.

(** The loop has waited for a batch begun at [t] until [d]: every call
    of the batch has returned by then, and [d] is the moment the last of
    them returned (the batch start when there was nothing to wait
    for). *)
Definition collected {R} (t : Z) (calls : list (call R)) (d : Z) : Prop :=
  t ≤ d
  ∧ (∀ c, c ∈ calls → c_done c ≤ d)
  ∧ (d = t ∨ ∃ c, c ∈ calls ∧ c_done c = d).

(** The batch-then-align policy, as the iterations a run must have made
    when the clock shows [t] and [n] calls have been submitted.  While
    the duration has not elapsed there is a next iteration: it begins
    now, submits exactly [rate] calls (none for a negative [rate]), the
    [j]-th of them being call [n + j] of the run, waits until all of
    them have returned, and sleeps for what is left of its second; the
    iteration after it begins right after that sleep, at once when the
    batch took a second or longer, and again with [rate] calls.  The run
    ends, at [t_end], with the first iteration that would begin when the
    duration has elapsed. *)
Fixpoint batches_from {R} (second rate duration t0 : Z)
    (task : nat → Z → R * Z) (n : nat) (t : Z) (bs : list (batch R))
    (t_end : Z) : Prop :=
  match bs with
  | [] => duration ≤ t - t0 ∧ t_end = t
  | b :: bs' =>
      t - t0 < duration
      ∧ b_start b = t
      ∧ Z.of_nat (length (b_calls b)) = Z.max 0 rate
      ∧ (∀ j c, b_calls b !! j = Some c →
           task (n + j)%nat (c_picked c) = (c_value c, c_done c))
      ∧ ∃ d, collected t (b_calls b) d
             ∧ batches_from second rate duration t0 task
                 (n + length (b_calls b))%nat
                 (d + Z.max 0 (second - (d - t))) bs' t_end
  end.

(** A finished run followed the policy through the iterations [bs]: they
    start at [t0] with the first call of the run, the clock ends where
    they end, and the results are the values the calls returned, batch
    after batch in submission order. *)
Definition batch_then_align {R} (second rate duration t0 : Z)
    (task : nat → Z → R * Z) (bs : list (batch R)) (st : engine R) : Prop :=
  batches_from second rate duration t0 task O t0 bs (now st)
  ∧ results st = c_value <$> concat (b_calls <$> bs).

(** The calls of a batch were run by a pool of [workers] threads that
    takes them from a queue: no call is picked up before the batch
    starts or before a call submitted earlier; when a call is picked up,
    fewer than [workers] of the earlier calls are still running; and it
    is not kept waiting, that is, unless it was picked up at the batch
    start, [workers] earlier calls were running until then. *)
Definition drained_by_pool {R} (workers : nat) (b : batch R) : Prop :=
  ∀ j c, b_calls b !! j = Some c →
    let returns := c_done <$> take j (b_calls b) in
    b_start b ≤ c_picked c
    ∧ (∀ i c', (i < j)%nat → b_calls b !! i = Some c' →
         c_picked c' ≤ c_picked c)
    ∧ (length (filter (λ x, (c_picked c < x)%Z) returns) < workers)%nat
    ∧ (c_picked c = b_start b
       ∨ (workers ≤ length (filter (λ x, (c_picked c ≤ x)%Z) returns))%nat).

(** The throttled results of a run are stamped in the order of the list. *)
Definition throttle_stamps_sorted (rs : list Advanced.result) : Prop :=
  ∀ i j ri rj,
    (i < j)%nat → rs !! i = Some ri → rs !! j = Some rj →
    Advanced.get_status_code ri = Some 429 →
    Advanced.get_status_code rj = Some 429 →
    Advanced.timestamp_of ri ≤ Advanced.timestamp_of rj.

(** The detected group as the value found in the first result that has
    the key at all. *)
Fixpoint first_group_by_key (rs : list Advanced.result) : option string :=
  match rs with
  | [] => None
  | r :: rest =>
      match Advanced.get_rate_info r !! "X-RateLimit-Group" with
      | Some g => Some g
      | None => first_group_by_key rest
      end
  end.

(** The cell an [INSERT] puts into a column. *)
Fixpoint column (name : string) (row : list (string * cell)) : option cell :=
  match row with
  | [] => None
  | (c, v) :: row' => if decide (c = name) then Some v else column name row'
  end.

(** The analysis object [ingest_group] reads a group's limits from: the
    member ["RateLimitAnalysis"] when it is an object, the empty object
    when the group has no such member. *)
Definition analysis_of (members : list (string * json))
  : option (list (string * json)) :=
  match assoc "RateLimitAnalysis" members with
  | None => Some []
  | Some (JObj analysis) => Some analysis
  | Some _ => None
  end.

(** What a POST of [q] leaves behind, and the lines [execute_sql] and its
    caller print for it ([done_line] when the result is [""]). *)
Definition after_post (clickhouse : nat → query → store_reply) (q : query)
    (done_line : line) (failed_line : string → line) (w : world) : world :=
  let reply := clickhouse (length (attempts w)) q in
  World (attempts w ++ [q])
        (match reply with Accepted _ => stored w ++ [q] | _ => stored w end)
        (printed w ++
         match reply with
         | Accepted text =>
             if decide (text = "") then [done_line] else [failed_line text]
         | Rejected _ text => [Sql_error text; done_line]
         | Unreachable e => [Connection_error e; done_line]
         end).

(** The lines that report a failed write. *)
Definition failure_line (l : line) : bool :=
  match l with
  | Sql_error _ | Connection_error _ => true
  | _ => false
  end.

(** Every POST made so far either put its row into the store or was
    reported as failed. *)
Definition accounted (w : world) : Prop :=
  length (attempts w)
  = (length (stored w)
     + length (filter (λ l, failure_line l = true) (printed w)))%nat.

(** A group that [ingest_group] can read: an object whose analysis, when
    it has one, is an object too. *)
Definition readable_group (group_data : json) : Prop :=
  ∃ members, group_data = JObj members ∧ is_Some (analysis_of members).

(** The status an exchange ends with: the HTTP status of the response,
    none when the call raised. *)
Definition answer_status (ex : exchange) : option Z :=
  match ex_reply ex with
  | Responded status _ => Some status
  | Raised _ => None
  end.

(** The telemetry [test_request] extracts from an exchange. *)
Definition answer_rate_info (ex : exchange) : gmap string string :=
  match ex_reply ex with
  | Responded _ hs => Advanced.extract_rate_info hs
  | Raised _ => ∅
  end.

(** [r['auth_method']] and [r['api_key']], which both shapes of the
    result dict carry. *)
Definition auth_method_of (r : Advanced.result) : string :=
  match r with
  | Advanced.Response _ _ _ m _ _ _ => m
  | Advanced.Failure _ _ m _ _ => m
  end.

Definition api_key_of (r : Advanced.result) : string :=
  match r with
  | Advanced.Response _ _ k _ _ _ _ => k
  | Advanced.Failure _ k _ _ _ => k
  end.

(** [r.get('headers', {})] on a result of the simple script. *)
Definition headers_of (r : LoadTest.result) : gmap string string :=
  match r with
  | LoadTest.Response _ hs _ _ _ => hs
  | LoadTest.Failure _ _ _ _ => ∅
  end.

(** A listing whose remaining-requests header [int] cannot read: the call
    that [make_request] counts twice. *)
Definition unreadable_remaining (int : string → option Z) (r : Boto.reply)
  : Prop :=
  match r with
  | Boto.Listed hs =>
      match hs !! "x-ratelimit-remaining" with
      | Some remaining => int remaining = None
      | None => False
      end
  | _ => False
  end.

Global Instance unreadable_remaining_dec int r :
  Decision (unreadable_remaining int r).
Proof.
  destruct r as [hs| |]; simpl; try apply _.
  destruct (hs !! "x-ratelimit-remaining"); apply _.
Defined.

(** ** [test_concurrent_clients] of [test/test_rate_limiting.py] *)
Module BotoClients.

(** [client_results] of one worker thread. *)
Record client_results := Client_results {
  successful : nat;
  rate_limited : nat;
  errors : nat
}.

(** One pass of the loop of [client_worker]: the call is counted in the
    [try], in the [ClientError] handler or in the bare [except]. *)
Definition client_call (c : client_results) (r : Boto.reply) : client_results :=
  match r with
  | Boto.Listed _ =>
      Client_results (S (successful c)) (rate_limited c) (errors c)
  | Boto.Client_error code =>
      if decide (code = "SlowDown")
      then Client_results (successful c) (S (rate_limited c)) (errors c)
      else Client_results (successful c) (rate_limited c) (S (errors c))
  | Boto.Other_exception _ =>
      Client_results (successful c) (rate_limited c) (S (errors c))
  end.

(** [client_worker] for the calls one client made before its deadline. *)
Definition client_worker (replies : list Boto.reply) : client_results :=
  foldl client_call (Client_results 0 0 0) replies.

(** The totals printed after the threads are joined. *)
Record totals := Totals {
  total_requests : nat;
  total_success : nat;
  total_rate_limited : nat;
  total_errors : nat
}.

(** The aggregation over [results], to which every thread appended its
    pair when it finished; [None] is the [ZeroDivisionError] of the
    percentage line when no request was made. *)
Definition aggregate (results : list (nat * client_results)) : option totals :=
  let total_success := foldr Nat.add O ((λ r, successful r.2) <$> results) in
  let total_rate_limited := foldr Nat.add O ((λ r, rate_limited r.2) <$> results) in
  let total_errors := foldr Nat.add O ((λ r, errors r.2) <$> results) in
  let total_requests := (total_success + total_rate_limited + total_errors)%nat in
  if decide (total_requests = O) then None
  else Some (Totals total_requests total_success total_rate_limited total_errors).

(** [test_concurrent_clients]: [finished] lists the client ids in the
    order their threads finished, [replies_of i] is what the calls of
    client [i] returned. *)
Definition test_concurrent_clients (replies_of : nat → list Boto.reply)
    (finished : list nat) : option totals :=
  aggregate ((λ i, (i, client_worker (replies_of i))) <$> finished).
End BotoClients.

(** Two exchanges that differ in nothing the report of [test_api_key]
    could show but the case of the header names. *)
Definition same_answer_up_to_case (ex1 ex2 : exchange) : Prop :=
  match ex_reply ex1, ex_reply ex2 with
  | Responded s1 hs1, Responded s2 hs2 => s1 = s2 ∧ same_up_to_case hs1 hs2
  | Raised _, Raised _ => True
  | _, _ => False
  end.

(** The request [test_api_key] sends. *)
Definition individual_request (api_key : string) : request :=
  Request "GET" "http://localhost/bucket/object"
    {[ "Authorization" := "AWS " +:+ api_key +:+ ":signature" ]} ∅.

(** The report [test_api_key] builds from the entry [results[-1]]. *)
Definition report_of (api_key expected_group : string)
    (last_result : Individual.result) : Individual.report :=
  match last_result with
  | Individual.Probe status current_rate group limit =>
      Individual.Report api_key expected_group group current_rate limit
        (Individual.Int status)
  | Individual.Failure _ =>
      Individual.Report api_key expected_group "ERROR" "ERROR" "ERROR"
        (Individual.Str "ERROR")
  end.

(** A throttle event [ingest_event] can read: an object whose
    ["Timestamp"] is a string that parses. *)
Definition readable_event (event_time : string → option string) (event : json)
  : Prop :=
  ∃ members ts time,
    event = JObj members ∧ assoc "Timestamp" members = Some (JStr ts)
    ∧ event_time ts = Some time.

(** The throttle events listed under one entry of the analysis. *)
Definition events_of (group_analysis : json) : list json :=
  match group_analysis with
  | JObj fields =>
      match assoc "ThrottleEvents" fields with
      | Some (JArr events) => events
      | _ => []
      end
  | _ => []
  end.

(** An entry of the analysis [ingest_throttle_events] can read: an object
    without events, or with a list of readable events. *)
Definition readable_analysis (event_time : string → option string)
    (group_analysis : json) : Prop :=
  ∃ fields,
    group_analysis = JObj fields
    ∧ (assoc "ThrottleEvents" fields = None
       ∨ ∃ events, assoc "ThrottleEvents" fields = Some (JArr events)
                   ∧ Forall (readable_event event_time) events).

Definition is_object (v : json) : Prop :=
  match v with
  | JObj _ => True
  | _ => False
  end.

(** The members a loop over [d.items()] goes through when the member is
    an object. *)
Definition members_of (v : option json) : list (string * json) :=
  match v with
  | Some (JObj members) => members
  | _ => []
  end.

(** A summary all three stages of [ingest_comprehensive_results] can
    read: the duration is a number or absent, and the groups and the
    analysis, where they are present, are readable. *)
Definition readable_summary (event_time : string → option string)
    (members : list (string * json)) : Prop :=
  (∃ d, py_number (default (JInt 0) (assoc "Duration" members)) = Ok d)
  ∧ (∀ g, assoc "ByGroup" members = Some g →
       ∃ groups, g = JObj groups
                 ∧ Forall (λ item, readable_group item.2) groups)
  ∧ (∀ a, assoc "RateLimitAnalysis" members = Some a →
       ∃ items, a = JObj items
                ∧ Forall (λ item, readable_analysis event_time item.2) items).

(** The [test_results] row of a group entry: the entry's name, the entry
    itself as the raw payload, and the limits of its analysis, each zero
    where the analysis or the field is absent. *)
Definition group_row (item : string * json) (q : query) : Prop :=
  q_table q = "test_results"
  ∧ column "test_group" (q_row q) = Some (Text item.1)
  ∧ column "raw_data" (q_row q) = Some (Dumped item.2)
  ∧ ∃ members analysis,
      item.2 = JObj members ∧ analysis_of members = Some analysis
      ∧ column "effective_limit" (q_row q)
        = Some (Bare (default (JInt 0) (assoc "EffectiveLimit" analysis)))
      ∧ column "observed_bursts" (q_row q)
        = Some (Bare (default (JInt 0) (assoc "ObservedBursts" analysis)))
      ∧ column "success_rate" (q_row q)
        = Some (Bare (default (JFloat 0 0) (assoc "SuccessRate" analysis))).

(** The [throttle_events] row of an event: the event itself as the
    payload and its two hints, each zero where the event lacks it. *)
Definition event_row (event : json) (q : query) : Prop :=
  q_table q = "throttle_events"
  ∧ column "event_data" (q_row q) = Some (Dumped event)
  ∧ ∃ members,
      event = JObj members
      ∧ column "remaining_requests" (q_row q)
        = Some (Bare (default (JInt 0) (assoc "RemainingReqs" members)))
      ∧ column "reset_in_seconds" (q_row q)
        = Some (Bare (default (JInt 0) (assoc "ResetIn" members))).

(** A store that takes every row. *)
Definition accepting (clickhouse : nat → query → store_reply) : Prop :=
  ∀ i q, ∃ text, clickhouse i q = Accepted text.

(** * Facts *)

(** ** Header names *)

Lemma lower_char_idem c : lower_char (lower_char c) = lower_char c.
Proof.
  destruct c as [[] [] [] [] [] [] [] []]; reflexivity.
Qed.

Lemma lower_idem s : lower (lower s) = lower s.
Proof.
  induction s as [|c s IH]; simpl; [done|].
  by rewrite lower_char_idem, IH.
Qed.

Lemma ci_get_lower hs name : ci_get hs (lower name) = ci_get hs name.
Proof.
  induction hs as [|[h v] hs IH]; simpl; [done|].
  rewrite lower_idem, IH. done.
Qed.

Lemma ci_get_same_up_to_case hs1 hs2 name :
  same_up_to_case hs1 hs2 → ci_get hs1 name = ci_get hs2 name.
Proof.
  induction 1 as [|[h1 v1] [h2 v2] hs1 hs2 [Hn Hv] _ IH]; simpl in *; [done|].
  subst v2. rewrite Hn, IH. done.
Qed.

(** ** Facts about the pool and the window loop *)

Lemma pick_idle_Forall (P : Z → Prop) w ws :
  Forall P (w :: ws) →
  P (pick_idle w ws).1 ∧ Forall P (pick_idle w ws).2.
Proof.
  revert w. induction ws as [|w' ws IH]; intros w Hall; simpl.
  - apply Forall_cons in Hall as [Hw _]. by split.
  - apply Forall_cons in Hall as [Hw Hws].
    specialize (IH w' Hws).
    destruct (pick_idle w' ws) as [m rest]; simpl in *.
    destruct IH as [Hm Hrest].
    destruct (w <=? m); simpl; split; auto.
Qed.

Lemma pick_idle_length w ws : length (pick_idle w ws).2 = length ws.
Proof.
  revert w. induction ws as [|w' ws IH]; intros w; simpl; [done|].
  specialize (IH w').
  destruct (pick_idle w' ws) as [m rest]; simpl in *.
  destruct (w <=? m); simpl; congruence.
Qed.

Lemma pick_idle_perm w ws :
  (pick_idle w ws).1 :: (pick_idle w ws).2 ≡ₚ w :: ws.
Proof.
  revert w. induction ws as [|w' ws IH]; intros w; simpl; [done|].
  specialize (IH w').
  destruct (pick_idle w' ws) as [m rest]; simpl in *.
  destruct (w <=? m); simpl; [done|].
  rewrite <- IH. apply Permutation_swap.
Qed.

Lemma pick_idle_min w ws :
  Forall (λ x, (pick_idle w ws).1 ≤ x) (w :: ws).
Proof.
  revert w. induction ws as [|w' ws IH]; intros w; simpl.
  { repeat constructor. lia. }
  specialize (IH w').
  destruct (pick_idle w' ws) as [m rest]; simpl in *.
  destruct (Z.leb_spec w m); simpl.
  - constructor; [lia|]. eapply Forall_impl; [exact IH|]. simpl. lia.
  - constructor; [lia|done].
Qed.

Lemma filter_none {A} (P : A → Prop) `{∀ x, Decision (P x)} (l : list A) :
  Forall (λ x, ¬ P x) l → filter P l = [].
Proof.
  induction 1 as [|x l Hx _ IH]; [done|].
  by rewrite filter_cons_False.
Qed.

Lemma executor_length {R} idle (tasks : list (Z → R * Z)) :
  idle ≠ [] →
  length (executor idle tasks).1 = length tasks
  ∧ length (executor idle tasks).2 = length idle.
Proof.
  revert idle. induction tasks as [|t tasks IH]; intros idle Hne; simpl; [done|].
  destruct idle as [|w ws]; [done|].
  pose proof (pick_idle_length w ws) as Hlen.
  destruct (pick_idle w ws) as [start others]; simpl in Hlen.
  destruct (t start) as [r done_at].
  destruct (IH (done_at :: others)) as [IH1 IH2]; [done|].
  destruct (executor (done_at :: others) tasks) as [futures pool]; simpl in *.
  split; congruence.
Qed.

(** Whatever holds of the times the workers are idle from, and is kept by
    running a call, holds of every start time the pool chooses. *)
Lemma executor_Forall {R} (P : Z → Prop) (Q : R * Z → Prop) idle
    (tasks : list (Z → R * Z)) :
  Forall P idle →
  (∀ t s, t ∈ tasks → P s → Q (t s) ∧ P (t s).2) →
  Forall Q (executor idle tasks).1 ∧ Forall P (executor idle tasks).2.
Proof.
  revert idle. induction tasks as [|t tasks IH]; intros idle Hidle Hrun; simpl.
  { by split. }
  destruct idle as [|w ws]; [by split|].
  destruct (pick_idle_Forall P w ws Hidle) as [Hstart Hothers].
  destruct (pick_idle w ws) as [start others]; simpl in *.
  destruct (Hrun t start) as [HQ HP]; [left|done|].
  destruct (t start) as [r done_at]; simpl in *.
  destruct (IH (done_at :: others)) as [IH1 IH2].
  { by constructor. }
  { intros t' s Ht'. apply Hrun. by right. }
  destruct (executor (done_at :: others) tasks) as [futures pool]; simpl in *.
  split; [by constructor|done].
Qed.

Lemma foldl_max_ge b l : b ≤ foldl Z.max b l.
Proof.
  revert b. induction l as [|x l IH]; intros b; simpl; [lia|].
  specialize (IH (Z.max b x)). lia.
Qed.

Lemma foldl_max_elem b l x : x ∈ l → x ≤ foldl Z.max b l.
Proof.
  revert b. induction l as [|y l IH]; intros b Hin; simpl.
  - by apply elem_of_nil in Hin.
  - apply elem_of_cons in Hin as [->|Hin].
    + pose proof (foldl_max_ge (Z.max b y) l). lia.
    + by apply IH.
Qed.

Lemma foldl_max_const b l : Forall (λ x, x = b) l → foldl Z.max b l = b.
Proof.
  induction 1 as [|x l -> _ IH]; simpl; [done|].
  by rewrite Z.max_id.
Qed.

(** ** The window loop *)

Section EngineFacts.
Context {R : Type}.
Variable second : Z.
Variable max_workers : nat.
Variable task : nat → Z → R * Z.
Hypothesis workers : max_workers ≠ O.

(** What one iteration does, in terms of the batch it collected. *)
Lemma window_step_unfold rate st :
  ∃ futures pool,
    executor (replicate max_workers (now st))
             (task <$> seq (issued st) (Z.to_nat rate)) = (futures, pool)
    ∧ length futures = Z.to_nat rate
    ∧ length pool = max_workers
    ∧ window_step second max_workers task rate st =
        let collected := foldl Z.max (now st) (futures.*2) in
        let slept := Z.max 0 (second - (collected - now st)) in
        {| now := collected + slept;
           results := results st ++ futures.*1;
           issued := (issued st + Z.to_nat rate)%nat;
           log := log st ++ [Window (now st) (Z.to_nat rate) max_workers
                                    collected slept] |}.
Proof.
  unfold window_step.
  set (tasks := task <$> seq (issued st) (Z.to_nat rate)).
  destruct (executor_length (replicate max_workers (now st)) tasks) as [Hf Hp].
  { destruct max_workers; done. }
  destruct (executor _ tasks) as [futures pool]; simpl in *.
  assert (length tasks = Z.to_nat rate) as Ht.
  { unfold tasks. by rewrite length_fmap, length_seq. }
  rewrite length_replicate in Hp. rewrite Ht in *.
  exists futures, pool. repeat split; try done.
  rewrite Hf, Hp. f_equal; [|do 3 f_equal]; destruct (Z.ltb_spec
    (foldl Z.max (now st) futures.*2 - now st) second); lia.
Qed.

Lemma window_step_now rate st :
  ∃ elapsed, 0 ≤ elapsed
    ∧ now (window_step second max_workers task rate st)
      = now st + Z.max second elapsed.
Proof.
  destruct (window_step_unfold rate st) as (futures & pool & _ & _ & _ & ->).
  simpl. exists (foldl Z.max (now st) futures.*2 - now st).
  pose proof (foldl_max_ge (now st) futures.*2). lia.
Qed.

Lemma window_loop_more_fuel rate duration t0 fuel fuel' st st' :
  (fuel ≤ fuel')%nat →
  window_loop second max_workers task rate duration t0 fuel st = Some st' →
  window_loop second max_workers task rate duration t0 fuel' st = Some st'.
Proof.
  revert fuel' st. induction fuel as [|fuel IH]; intros fuel' st Hle; simpl.
  - destruct (now st - t0 <? duration) eqn:E; [done|].
    intros <-. destruct fuel'; simpl; by rewrite E.
  - destruct fuel' as [|fuel']; [lia|]. simpl.
    destruct (now st - t0 <? duration); [|done].
    apply IH. lia.
Qed.

(** The loop ends: the clock moves by a second or more per iteration. *)
Lemma window_loop_terminates rate duration t0 fuel st :
  0 < second →
  duration - (now st - t0) ≤ Z.of_nat fuel * second →
  is_Some (window_loop second max_workers task rate duration t0 fuel st).
Proof.
  intros Hsec. revert st. induction fuel as [|fuel IH]; intros st Hfuel; simpl.
  - destruct (Z.ltb_spec (now st - t0) duration); [lia|done].
  - destruct (Z.ltb_spec (now st - t0) duration); [|done].
    apply IH. destruct (window_step_now rate st) as (e & He & ->). lia.
Qed.

Lemma windows_bound_enough duration :
  0 < second → duration ≤ Z.of_nat (windows_bound second duration) * second.
Proof.
  intros Hsec. unfold windows_bound.
  destruct (Z.le_gt_cases duration 0) as [Hd|Hd].
  { pose proof (Nat2Z.is_nonneg (Z.to_nat ((duration + second - 1) / second))).
    nia. }
  assert (0 ≤ (duration + second - 1) / second) by (apply Z.div_pos; lia).
  rewrite Z2Nat.id by done.
  pose proof (Z.div_mod (duration + second - 1) second).
  pose proof (Z.mod_pos_bound (duration + second - 1) second). lia.
Qed.

Lemma run_windows_terminates rate duration t0 :
  0 < second →
  is_Some (run_windows second max_workers task rate duration t0).
Proof.
  intros Hsec. apply window_loop_terminates; [done|]. simpl.
  pose proof (windows_bound_enough duration Hsec). lia.
Qed.

(** Induction over the iterations of a terminating loop. *)
Lemma window_loop_invariant (P : engine R → Prop) rate duration t0 fuel st st' :
  P st →
  (∀ s, P s → now s - t0 < duration →
        P (window_step second max_workers task rate s)) →
  window_loop second max_workers task rate duration t0 fuel st = Some st' →
  P st' ∧ duration ≤ now st' - t0.
Proof.
  intros HP Hstep. revert st HP.
  induction fuel as [|fuel IH]; intros st HP; simpl;
    destruct (Z.ltb_spec (now st - t0) duration) as [Hlt|Hge]; try done.
  - intros [= <-]. done.
  - apply IH. by apply Hstep.
  - intros [= <-]. done.
Qed.
End EngineFacts.

Section InstantFacts.
Context {R : Type}.
Variable second : Z.
Variable max_workers : nat.
Variable task : nat → Z → R * Z.
Variable rate : Z.
Hypothesis workers : max_workers ≠ O.
Hypothesis second_pos : 0 < second.
(** No batch takes any time: there is nothing to submit, or every call
    returns the moment it is started. *)
Hypothesis instant : rate ≤ 0 ∨ ∀ n s, (task n s).2 = s.

Lemma instant_window st :
  window_step second max_workers task rate st =
  {| now := now st + second;
     results := results (window_step second max_workers task rate st);
     issued := (issued st + Z.to_nat rate)%nat;
     log := log st ++ [Window (now st) (Z.to_nat rate) max_workers
                              (now st) second] |}
  ∧ length (results (window_step second max_workers task rate st))
    = (length (results st) + Z.to_nat rate)%nat.
Proof.
  destruct (window_step_unfold second max_workers task workers rate st)
    as (futures & pool & Hex & Hf & _ & ->). simpl.
  destruct (executor_Forall (λ s, s = now st) (λ f, f.2 = now st)
              (replicate max_workers (now st))
              (task <$> seq (issued st) (Z.to_nat rate))) as [Hfut _].
  { by apply Forall_replicate. }
  { intros t s (n & -> & Hn)%list_elem_of_fmap ->.
    destruct instant as [Hneg|Hinst]; [|by rewrite Hinst].
    replace (Z.to_nat rate) with O in Hn by lia. by apply elem_of_nil in Hn. }
  rewrite Hex in Hfut. simpl in Hfut.
  rewrite (foldl_max_const (now st) futures.*2).
  2:{ by apply Forall_fmap. }
  rewrite length_app, length_fmap, Hf.
  split; [|done]. f_equal; [|do 3 f_equal]; lia.
Qed.

(** Such a run makes [k] iterations, where [k] is [duration] in seconds,
    rounded up. *)
Lemma instant_run duration t0 :
  0 < duration →
  ∃ st (k : nat),
    run_windows second max_workers task rate duration t0 = Some st
    ∧ length (results st) = (k * Z.to_nat rate)%nat
    ∧ issued st = (k * Z.to_nat rate)%nat
    ∧ length (log st) = k
    ∧ now st = t0 + Z.of_nat k * second
    ∧ (Z.of_nat k - 1) * second < duration ≤ Z.of_nat k * second.
Proof.
  intros Hd.
  destruct (run_windows_terminates second max_workers task workers
              rate duration t0 second_pos) as [st Hrun].
  exists st, (length (log st)). split; [done|].
  unfold run_windows in Hrun.
  apply (window_loop_invariant second max_workers task
           (λ s, now s = t0 + Z.of_nat (length (log s)) * second
                 ∧ length (results s) = (length (log s) * Z.to_nat rate)%nat
                 ∧ issued s = (length (log s) * Z.to_nat rate)%nat
                 ∧ (Z.of_nat (length (log s)) - 1) * second < duration))
    in Hrun as [(H1 & H2 & H2' & H3) H4].
  - repeat split; [done|done|done|done|lia].
  - simpl. repeat split; lia.
  - clear Hrun st. intros s (H1 & H2 & H2' & H3) Hlt.
    destruct (instant_window s) as [Hs Hlen].
    rewrite Hlen. rewrite Hs. simpl. rewrite length_app. simpl.
    repeat split; lia.
Qed.
End InstantFacts.

Section StampFacts.
Context {R : Type}.
Variable second : Z.
Variable max_workers : nat.
Variable task : nat → Z → R * Z.
Hypothesis workers : max_workers ≠ O.
(** Each result carries the time its call returned, and no call returns
    before it was started. *)
Variable stamp : R → Z.
Hypothesis stamped : ∀ n s, stamp (task n s).1 = (task n s).2.
Hypothesis causal : ∀ n s, s ≤ (task n s).2.

(** The results of one batch are stamped between the start of the batch
    and the clock after it. *)
Lemma window_step_stamps rate st :
  ∃ batch,
    results (window_step second max_workers task rate st) = results st ++ batch
    ∧ length batch = Z.to_nat rate
    ∧ Forall (λ r, now st ≤ stamp r
                   ≤ now (window_step second max_workers task rate st)) batch
    ∧ now st ≤ now (window_step second max_workers task rate st).
Proof.
  destruct (window_step_unfold second max_workers task workers rate st)
    as (futures & pool & Hex & Hf & _ & ->). simpl.
  exists (futures.*1). split; [done|]. split; [by rewrite length_fmap|].
  destruct (executor_Forall (λ s, now st ≤ s)
              (λ f, now st ≤ f.2 ∧ stamp f.1 = f.2)
              (replicate max_workers (now st))
              (task <$> seq (issued st) (Z.to_nat rate))) as [Hfut _].
  { apply Forall_replicate. lia. }
  { intros t s (n & -> & _)%list_elem_of_fmap Hs.
    pose proof (causal n s). pose proof (stamped n s). lia. }
  rewrite Hex in Hfut. simpl in Hfut.
  pose proof (foldl_max_ge (now st) futures.*2) as Hge.
  split; [|lia].
  apply Forall_fmap, Forall_forall. intros f Hin. simpl.
  rewrite Forall_forall in Hfut. destruct (Hfut f Hin) as [Hlo ->].
  assert (f.2 ≤ foldl Z.max (now st) futures.*2).
  { apply foldl_max_elem, list_elem_of_fmap. by exists f. }
  lia.
Qed.

(** Two results of different iterations are stamped in the order of
    their iterations; [i / n] is the iteration of the result at index
    [i] when every batch has [n] calls. *)
Lemma stamps_ordered_across_windows rate duration t0 st i j ri rj :
  run_windows second max_workers task rate duration t0 = Some st →
  results st !! i = Some ri → results st !! j = Some rj →
  (i / Z.to_nat rate < j / Z.to_nat rate)%nat →
  stamp ri ≤ stamp rj.
Proof.
  intros Hrun. revert i j ri rj. unfold run_windows in Hrun.
  apply (window_loop_invariant second max_workers task
           (λ s, length (results s) = (length (log s) * Z.to_nat rate)%nat
                 ∧ Forall (λ r, stamp r ≤ now s) (results s)
                 ∧ ∀ i j ri rj,
                     results s !! i = Some ri → results s !! j = Some rj →
                     (i / Z.to_nat rate < j / Z.to_nat rate)%nat →
                     stamp ri ≤ stamp rj))
    in Hrun as [(_ & _ & H) _].
  - done.
  - simpl. repeat split; [constructor|]. intros i j ri rj Hi. done.
  - clear Hrun st. intros s (Hlen & Hold & Hord) _.
    destruct (window_step_stamps rate s) as (batch & Hres & Hb & Hnew & Hnow).
    destruct (window_step_unfold second max_workers task workers rate s)
      as (futures & pool & _ & _ & _ & Hlog).
    assert (length (log (window_step second max_workers task rate s))
            = S (length (log s))) as Hloglen.
    { rewrite Hlog. simpl. rewrite length_app. simpl. lia. }
    rewrite Hres, Hloglen.
    split; [rewrite length_app; lia|].
    split.
    { apply Forall_app. split.
      - eapply Forall_impl; [exact Hold|]. simpl. intros; lia.
      - eapply Forall_impl; [exact Hnew|]. simpl. intros; lia. }
    intros i j ri rj Hi Hj Hij.
    assert (Z.to_nat rate ≠ O) as Hn.
    { intros Hz. rewrite Hz in Hij. simpl in Hij. lia. }
    destruct (decide (j < length (results s))%nat) as [Hjold|Hjnew].
    + assert (i < length (results s))%nat.
      { destruct (decide (i < j)%nat); [lia|].
        assert (j / Z.to_nat rate ≤ i / Z.to_nat rate)%nat
          by (apply Nat.Div0.div_le_mono; lia).
        lia. }
      rewrite lookup_app_l in Hi, Hj by done. eauto.
    + rewrite lookup_app_r in Hj by lia.
      destruct (decide (i < length (results s))%nat) as [Hiold|Hinew].
      * rewrite lookup_app_l in Hi by done.
        rewrite Forall_forall in Hold, Hnew.
        apply list_elem_of_lookup_2 in Hi, Hj.
        specialize (Hold _ Hi). specialize (Hnew _ Hj). simpl in *. lia.
      * exfalso.
        apply lookup_lt_Some in Hj.
        assert (length (log s) ≤ i / Z.to_nat rate)%nat.
        { apply Nat.div_le_lower_bound; [done|]. lia. }
        assert (j / Z.to_nat rate < S (length (log s)))%nat.
        { apply Nat.Div0.div_lt_upper_bound. lia. }
        lia.
Qed.
End StampFacts.

(** ** The pool, call by call *)

Lemma foldl_max_in b l : foldl Z.max b l = b ∨ foldl Z.max b l ∈ l.
Proof.
  revert b. induction l as [|x l IH]; intros b; simpl; [by left|].
  destruct (IH (Z.max b x)) as [Heq|Hin].
  - rewrite Heq. destruct (Z.max_spec b x) as [[_ ->]|[_ ->]].
    + right. left.
    + by left.
  - right. by right.
Qed.

Lemma filter_all {A} (P : A → Prop) `{∀ x, Decision (P x)} (l : list A) :
  Forall P l → filter P l = l.
Proof.
  induction 1 as [|x l Hx _ IH]; [done|].
  by rewrite filter_cons_True, IH.
Qed.

Lemma pool_calls_futures {R} idle (tasks : list (Z → R * Z)) :
  (executor idle tasks).1 = (λ c, (c_value c, c_done c)) <$> pool_calls idle tasks.
Proof.
  revert idle. induction tasks as [|t tasks IH]; intros idle; simpl; [done|].
  destruct idle as [|w ws]; [done|].
  destruct (pick_idle w ws) as [start others].
  destruct (t start) as [r done_at].
  specialize (IH (done_at :: others)).
  destruct (executor (done_at :: others) tasks) as [futures pool]; simpl in *.
  by rewrite IH.
Qed.

(** Every call of the batch is the submitted call, run from the moment
    it was picked up. *)
Lemma pool_calls_task {R} idle (tasks : list (Z → R * Z)) j c t :
  pool_calls idle tasks !! j = Some c → tasks !! j = Some t →
  t (c_picked c) = (c_value c, c_done c).
Proof.
  revert idle j. induction tasks as [|t0 tasks IH]; intros idle j; simpl; [done|].
  destruct idle as [|w ws]; [done|].
  destruct (pick_idle w ws) as [start others].
  destruct (t0 start) as [r done_at] eqn:Hrun.
  destruct j as [|j]; simpl.
  - intros [= <-] [= <-]. done.
  - apply IH.
Qed.

(** The pool of [W] workers: its idle times are the [W] latest among the
    batch start, once per worker, and the returns so far ([low] holds
    the others); [p] is when the last call was picked up. *)
Lemma pool_calls_bounded {R} (t p : Z) (W : nat) (prev idle low : list Z)
    (tasks : list (Z → R * Z)) :
  length idle = W →
  replicate W t ++ prev ≡ₚ idle ++ low →
  Forall (λ x, Forall (Z.le x) idle) low →
  Forall (Z.le t) idle → Forall (Z.le p) idle →
  (∀ tk s, tk ∈ tasks → s ≤ (tk s).2) →
  ∀ j c, pool_calls idle tasks !! j = Some c →
    t ≤ c_picked c ∧ p ≤ c_picked c
    ∧ (∀ i c', (i < j)%nat → pool_calls idle tasks !! i = Some c' →
         c_picked c' ≤ c_picked c)
    ∧ (length (filter (λ x, (c_picked c < x)%Z)
                 (prev ++ (c_done <$> take j (pool_calls idle tasks)))) < W)%nat
    ∧ (c_picked c = t
       ∨ (W ≤ length (filter (λ x, (c_picked c ≤ x)%Z)
                        (prev ++ (c_done <$> take j (pool_calls idle tasks)))))%nat).
Proof.
  revert t p W prev idle low.
  induction tasks as [|tk tasks IH];
    intros t p W prev idle low Hlen Hperm Hlow Hstart Hlast Hcausal j c; simpl;
    [done|].
  destruct idle as [|w ws]; [done|].
  pose proof (pick_idle_perm w ws) as Hpick.
  pose proof (pick_idle_min w ws) as Hmin.
  pose proof (pick_idle_length w ws) as Hothers.
  destruct (pick_idle w ws) as [m others]; simpl in Hpick, Hmin, Hothers.
  pose proof (Hcausal tk m ltac:(left)) as Hdone.
  destruct (tk m) as [r d]; simpl in Hdone.
  rewrite <- Hpick in Hperm, Hstart, Hlast, Hmin.
  assert (Forall (λ x, x ≤ m ∧ Forall (Z.le x) others) low) as Hlow'.
  { eapply Forall_impl; [exact Hlow|]. intros x Hx. simpl in Hx.
    rewrite <- Hpick in Hx. by apply Forall_cons in Hx. }
  apply Forall_cons in Hstart as [Htm Hstart].
  apply Forall_cons in Hlast as [Hpm Hlast].
  apply Forall_cons in Hmin as [_ Hmin].
  simpl in Hlen.
  destruct j as [|j]; simpl.
  - intros [= <-]. simpl. rewrite app_nil_r.
    split; [done|]. split; [done|]. split; [intros i c' Hi; lia|].
    assert (∀ P : Z → Prop, ∀ Hdec : ∀ x, Decision (P x),
              (length (filter P (replicate W t)) + length (filter P prev)
               = length (filter P (m :: others)) + length (filter P low))%nat)
      as Hcount.
    { intros P Hdec. rewrite <- !length_app, <- !filter_app.
      by rewrite Hperm. }
    split.
    + pose proof (Hcount (λ x, m < x) _) as Hc.
      rewrite (filter_none (λ x, m < x) low) in Hc.
      2:{ eapply Forall_impl; [exact Hlow'|]. intros x [Hx _]. simpl. lia. }
      rewrite filter_cons_False in Hc by lia.
      pose proof (length_filter (λ x, m < x) others). simpl in Hc. lia.
    + destruct (decide (m = t)) as [->|Hne]; [by left|]. right.
      pose proof (Hcount (λ x, m ≤ x) _) as Hc.
      rewrite (filter_none (λ x, m ≤ x) (replicate W t)) in Hc.
      2:{ apply Forall_replicate. lia. }
      rewrite (filter_all (λ x, m ≤ x) (m :: others)) in Hc.
      2:{ constructor; [lia|done]. }
      simpl in Hc. lia.
  - intros Hc.
    destruct (IH t m W (prev ++ [d]) (d :: others) (m :: low)) with (j := j) (c := c)
      as (H1 & H2 & H3 & H4 & H5).
    + simpl. lia.
    + rewrite app_assoc, Hperm.
      etrans; [symmetry; apply Permutation_cons_append|].
      simpl. apply perm_skip, Permutation_middle.
    + constructor.
      * constructor; [done|]. done.
      * eapply Forall_impl; [exact Hlow'|]. intros x [Hx Hxs]. simpl.
        constructor; [lia|done].
    + constructor; [lia|done].
    + constructor; [done|done].
    + intros tk' s Hin. apply Hcausal. by right.
    + exact Hc.
    + rewrite <- !app_assoc in H4, H5. simpl in H4, H5.
      split; [done|]. split; [lia|]. split; [|split; done].
      intros [|i] c' Hi; simpl.
      * intros [= <-]. simpl. done.
      * intros Hc'. apply (H3 i c'); [lia|done].
Qed.

(** ** The loop, batch by batch *)

Section BatchFacts.
Context {R : Type}.
Variable second : Z.
Variable max_workers : nat.
Variable task : nat → Z → R * Z.
Hypothesis workers : max_workers ≠ O.

(** One iteration, as the batch it ran. *)
Lemma window_step_batch rate st :
  let calls := pool_calls (replicate max_workers (now st))
                 (task <$> seq (issued st) (Z.to_nat rate)) in
  let d := foldl Z.max (now st) (c_done <$> calls) in
  length calls = Z.to_nat rate
  ∧ (∀ j c, calls !! j = Some c →
       task (issued st + j)%nat (c_picked c) = (c_value c, c_done c))
  ∧ collected (now st) calls d
  ∧ now (window_step second max_workers task rate st)
    = d + Z.max 0 (second - (d - now st))
  ∧ issued (window_step second max_workers task rate st)
    = (issued st + length calls)%nat
  ∧ results (window_step second max_workers task rate st)
    = results st ++ (c_value <$> calls)
  ∧ ((∀ n s, s ≤ (task n s).2) →
     drained_by_pool max_workers (Batch (now st) calls)).
Proof.
  intros calls d.
  destruct (window_step_unfold second max_workers task workers rate st)
    as (futures & pool & Hexec & Hlen & _ & Hstep).
  assert (futures = (λ c, (c_value c, c_done c)) <$> calls) as Hfut.
  { pose proof (pool_calls_futures (replicate max_workers (now st))
                  (task <$> seq (issued st) (Z.to_nat rate))) as Hf.
    by rewrite Hexec in Hf. }
  assert (futures.*2 = c_done <$> calls) as Hdone.
  { rewrite Hfut, <- list_fmap_compose. done. }
  assert (futures.*1 = c_value <$> calls) as Hval.
  { rewrite Hfut, <- list_fmap_compose. done. }
  assert (length calls = Z.to_nat rate) as Hcalls.
  { rewrite <- Hlen, Hfut. by rewrite length_fmap. }
  split; [done|]. split.
  { intros j c Hj. apply (pool_calls_task _ _ _ _ _ Hj).
    rewrite list_lookup_fmap.
    assert (j < Z.to_nat rate)%nat as Hlt.
    { rewrite <- Hcalls. by eapply lookup_lt_Some. }
    by rewrite lookup_seq_lt. }
  split.
  { unfold collected, d. split; [apply foldl_max_ge|]. split.
    - intros c Hc. apply foldl_max_elem. rewrite list_elem_of_fmap. by exists c.
    - destruct (foldl_max_in (now st) (c_done <$> calls)) as [Heq|Hin];
        [by left|right].
      apply list_elem_of_fmap in Hin as (c & Hc & Hin). by exists c. }
  rewrite Hstep. simpl. rewrite Hdone, Hval, Hcalls.
  split; [done|]. split; [done|]. split; [done|].
  intros Hcausal j c Hj. simpl in *.
  destruct (pool_calls_bounded (now st) (now st) max_workers [] 
              (replicate max_workers (now st)) []
              (task <$> seq (issued st) (Z.to_nat rate))) with (j := j) (c := c)
    as (H1 & _ & H3 & H4 & H5).
  - apply length_replicate.
  - done.
  - constructor.
  - apply Forall_replicate. lia.
  - apply Forall_replicate. lia.
  - intros tk s Hin. apply list_elem_of_fmap in Hin as (n & -> & _).
    apply Hcausal.
  - exact Hj.
  - simpl in H4, H5. done.
Qed.

(** The iterations of a loop that ended. *)
Lemma window_loop_batches rate duration t0 fuel st st' :
  window_loop second max_workers task rate duration t0 fuel st = Some st' →
  ∃ bs,
    batches_from second rate duration t0 task (issued st) (now st) bs (now st')
    ∧ results st' = results st ++ (c_value <$> concat (b_calls <$> bs))
    ∧ ((∀ n s, s ≤ (task n s).2) → Forall (drained_by_pool max_workers) bs).
Proof.
  revert st. induction fuel as [|fuel IH]; intros st; simpl;
    destruct (Z.ltb_spec (now st - t0) duration) as [Hlt|Hge]; try done.
  - intros [= <-]. exists []. simpl. by rewrite app_nil_r.
  - intros Hloop. destruct (IH _ Hloop) as (bs & Hbs & Hres & Hpool).
    destruct (window_step_batch rate st)
      as (Hlen & Htask & Hcoll & Hnow & Hissued & Hresults & Hdrained).
    rewrite Hnow, Hissued in Hbs. rewrite Hresults in Hres.
    eexists (Batch (now st) _ :: bs). split; [|split].
    + simpl. split; [done|]. split; [done|]. split; [rewrite Hlen; lia|].
      split; [exact Htask|]. eexists. split; [exact Hcoll|exact Hbs].
    + rewrite Hres. simpl. by rewrite fmap_app, app_assoc.
    + intros Hcausal. constructor; [by apply Hdrained|by apply Hpool].
  - intros [= <-]. exists []. simpl. by rewrite app_nil_r.
Qed.

(** Every run ends, and it followed the policy. *)
Lemma run_windows_batches rate duration t0 :
  0 < second →
  ∃ st bs,
    run_windows second max_workers task rate duration t0 = Some st
    ∧ batch_then_align second rate duration t0 task bs st
    ∧ ((∀ n s, s ≤ (task n s).2) → Forall (drained_by_pool max_workers) bs).
Proof.
  intros Hsec.
  destruct (run_windows_terminates second max_workers task workers
              rate duration t0 Hsec) as [st Hrun].
  destruct (window_loop_batches _ _ _ _ _ _ Hrun) as (bs & Hbs & Hres & Hpool).
  exists st, bs. split; [done|]. split; [|done].
  split; [exact Hbs|exact Hres].
Qed.
End BatchFacts.

(** When a submitted call returns. *)
Lemma LoadTest_task_time (gw : gateway) base_url key method n s :
  (LoadTest.task gw base_url key method n s).2
  = s + ex_latency (gw n (LoadTest.build_request base_url key method
                            "/test-bucket/")).
Proof.
  unfold LoadTest.task, LoadTest.test_request.
  by destruct (ex_reply _).
Qed.

Lemma Advanced_task_time utcnow (gw : gateway) base_url auth_method api_key n s :
  (Advanced.task utcnow gw base_url auth_method api_key n s).2
  = s + ex_latency (gw n (Advanced.build_request utcnow base_url auth_method
                            api_key "GET" "/test-bucket/test-object")).
Proof.
  unfold Advanced.task, Advanced.test_request.
  by destruct (ex_reply _).
Qed.

(** ** The three buckets *)

(** What the counts of [summarize] leave out: an HTTP answer that is
    neither 200 nor 429. *)
Lemma Advanced_buckets_and_rest rs :
  (Advanced.success_count (Advanced.summarize rs)
   + Advanced.rate_limited_count (Advanced.summarize rs)
   + Advanced.error_count (Advanced.summarize rs)
   + length (filter (λ r, Advanced.has_error r = false
                          ∧ Advanced.get_status_code r ≠ Some 200%Z
                          ∧ Advanced.get_status_code r ≠ Some 429%Z) rs))%nat
  = Advanced.total_requests (Advanced.summarize rs).
Proof.
  unfold Advanced.summarize; simpl.
  induction rs as [|r rs IH]; [done|].
  rewrite !filter_cons. simpl length. rewrite <- IH. clear IH.
  destruct r as [status ? ? ? ? ? ?|]; simpl.
  - destruct (decide (status = 200)) as [->|]; [|destruct (decide (status = 429)) as [->|]];
      repeat case_decide; simpl; first [lia | exfalso; intuition congruence].
  - repeat case_decide; simpl; first [lia | exfalso; intuition congruence].
Qed.

Lemma Advanced_buckets_le_total rs :
  (Advanced.success_count (Advanced.summarize rs)
   + Advanced.rate_limited_count (Advanced.summarize rs)
   + Advanced.error_count (Advanced.summarize rs)
   ≤ Advanced.total_requests (Advanced.summarize rs))%nat.
Proof. rewrite <- (Advanced_buckets_and_rest rs). lia. Qed.

(** In the boto3 tester the total is the sum of the three counters, and a
    [ClientError] that is not a throttle is filed under the errors. *)
Lemma Boto_total_is_sum int replies :
  let '(c, total) := Boto.test_rate_limiting int replies in
  (Boto.successful c + Boto.rate_limited c + Boto.errors c)%nat = total.
Proof. done. Qed.

Lemma Boto_other_error_is_counted int c code :
  code ≠ "SlowDown" →
  Boto.errors (Boto.make_request int c (Boto.Client_error code))
  = S (Boto.errors c).
Proof. intros Hne. simpl. by case_decide. Qed.

(** C1.  The counts of a run should add up to the number of results.  At a
    gateway that answers 500 they do not: the one result of a one-second
    run at one request a second is in none of the three buckets of
    [run_sustained_test], and none of [analyze_results] either. *)
Theorem C1_other_status_in_no_bucket :
  let gw : gateway := λ _ _, Exchange (Responded 500 []) 0 in
  (∃ s, Advanced.run_sustained_test 1 (λ _, "") gw "http://localhost"
          "test-key" "v4" 1 1 0 = Some s
        ∧ Advanced.total_requests s = 1%nat
        ∧ Advanced.success_count s = 0%nat
        ∧ Advanced.rate_limited_count s = 0%nat
        ∧ Advanced.error_count s = 0%nat)
  ∧ (∃ rs, LoadTest.run_load_test 1 gw "http://localhost" (Some "test-key")
             "GET" 1 1 0 = Some rs
           ∧ LoadTest.total (LoadTest.analyze_results rs) = 1%nat
           ∧ LoadTest.success_count (LoadTest.analyze_results rs) = 0%nat
           ∧ LoadTest.rate_limited_count (LoadTest.analyze_results rs) = 0%nat
           ∧ LoadTest.error_count (LoadTest.analyze_results rs) = 0%nat).
Proof.
  split.
  - eexists. split; [vm_compute; reflexivity|]. by vm_compute.
  - eexists. split; [vm_compute; reflexivity|]. by vm_compute.
Qed.

(** ** The policy of the loop *)

(** C2.  Both loops end, and they made their iterations by the
    batch-then-align policy: while the duration has not elapsed, an
    iteration submits exactly [rate] requests, the next [rate] requests
    of the run, waits until the last of them has returned, and sleeps
    [max 0 (1s - elapsed)]; the next iteration starts right after that
    sleep, hence at once when the batch took a second or longer, and it
    again submits [rate] requests: nothing is caught up.  The results
    are the answers to these requests.  The requests of a batch are run
    by a pool of 20 threads in [run_load_test] and of 10 in
    [run_sustained_test], whatever the rate: when no answer takes
    negative time, a request is picked up no earlier than the batch
    starts, with fewer than that many earlier requests of the batch
    still running, and it is not kept waiting while a thread is idle. *)
Theorem C2_batch_then_align second (gw : gateway) utcnow base_url
    (key : option string) api_key method auth_method rate duration t0 :
  0 < second →
  (∃ st bs,
     LoadTest.load_engine second gw base_url key method rate duration t0
     = Some st
     ∧ batch_then_align second rate duration t0
         (LoadTest.task gw base_url key method) bs st
     ∧ ((∀ n rq, 0 ≤ ex_latency (gw n rq)) →
        Forall (drained_by_pool 20) bs))
  ∧ (∃ st bs,
       Advanced.sustained_engine second utcnow gw base_url api_key
         auth_method duration rate t0 = Some st
       ∧ batch_then_align second rate duration t0
           (Advanced.task utcnow gw base_url auth_method api_key) bs st
       ∧ ((∀ n rq, 0 ≤ ex_latency (gw n rq)) →
          Forall (drained_by_pool 10) bs)).
Proof.
  intros Hsec. split.
  - destruct (run_windows_batches second 20
                (LoadTest.task gw base_url key method) ltac:(done)
                rate duration t0 Hsec) as (st & bs & Hrun & Hpolicy & Hpool).
    exists st, bs. split; [exact Hrun|]. split; [exact Hpolicy|].
    intros Hlat. apply Hpool. intros n s.
    rewrite LoadTest_task_time. specialize (Hlat n). 
    match goal with |- _ ≤ _ + ex_latency (gw n ?rq) => specialize (Hlat rq) end.
    lia.
  - destruct (run_windows_batches second 10
                (Advanced.task utcnow gw base_url auth_method api_key)
                ltac:(done) rate duration t0 Hsec)
      as (st & bs & Hrun & Hpolicy & Hpool).
    exists st, bs. split; [exact Hrun|]. split; [exact Hpolicy|].
    intros Hlat. apply Hpool. intros n s.
    rewrite Advanced_task_time. specialize (Hlat n).
    match goal with |- _ ≤ _ + ex_latency (gw n ?rq) => specialize (Hlat rq) end.
    lia.
Qed.

Lemma C2_batch_then_align_witness :
  let gw : gateway := λ n _, Exchange (Responded 200 []) (Z.of_nat n * 700) in
  (∃ st bs,
     LoadTest.load_engine 1000 gw "http://localhost" (Some "test-key")
       "GET" 25 2000 0 = Some st
     ∧ batch_then_align 1000 25 2000 0
         (LoadTest.task gw "http://localhost" (Some "test-key") "GET") bs st
     ∧ Forall (drained_by_pool 20) bs)
  ∧ (∃ st bs,
       Advanced.sustained_engine 1000 (λ _, "") gw "http://localhost"
         "test-key" "v4" 2000 25 0 = Some st
       ∧ batch_then_align 1000 25 2000 0
           (Advanced.task (λ _, "") gw "http://localhost" "v4" "test-key")
           bs st
       ∧ Forall (drained_by_pool 10) bs).
Proof.
  intros gw.
  destruct (C2_batch_then_align 1000 gw (λ _, "") "http://localhost"
              (Some "test-key") "test-key" "GET" "v4" 25 2000 0 ltac:(lia))
    as [(st1 & bs1 & Hrun1 & Hpol1 & Hpool1) (st2 & bs2 & Hrun2 & Hpol2 & Hpool2)].
  assert (∀ n rq, 0 ≤ ex_latency (gw n rq)) as Hlat.
  { intros n rq. unfold gw. simpl. lia. }
  split.
  - exists st1, bs1. split; [exact Hrun1|]. split; [exact Hpol1|].
    exact (Hpool1 Hlat).
  - exists st2, bs2. split; [exact Hrun2|]. split; [exact Hpol2|].
    exact (Hpool2 Hlat).
Defined.

(** ** Rate adherence *)




(** ** The order of the timestamps *)

Lemma Advanced_task_stamp utcnow (gw : gateway) base_url auth_method api_key n s :
  Advanced.timestamp_of
    (Advanced.task utcnow gw base_url auth_method api_key n s).1
  = (Advanced.task utcnow gw base_url auth_method api_key n s).2.
Proof.
  unfold Advanced.task, Advanced.test_request.
  by destruct (ex_reply _).
Qed.

(** C4, as stated, fails.  Two throttled requests of one batch run side by
    side; the first takes three ticks and the second one.  They are
    appended in the order they were submitted, so the later stamp comes
    first. *)
Lemma C4_stamps_decrease_within_a_batch :
  let gw : gateway :=
    λ n _, Exchange (Responded 429 []) (if decide (n = O) then 3 else 1) in
  ∃ st, Advanced.sustained_engine 10 (λ _, "") gw "http://localhost"
          "test-key" "v4" 10 2 0 = Some st
        ∧ Advanced.timestamp_of <$> results st = [3; 1]
        ∧ ¬ throttle_stamps_sorted (results st).
Proof.
  eexists. split; [vm_compute; reflexivity|]. split; [done|].
  intros Hsorted.
  specialize (Hsorted 0%nat 1%nat _ _ ltac:(lia) eq_refl eq_refl eq_refl eq_refl).
  vm_compute in Hsorted. by apply Hsorted.
Qed.

(** C4, amended.  Across iterations the stamps are in order: a result of
    an earlier batch is stamped no later than a result of a later batch
    (the result at index [i] belongs to batch [i / rate]), as long as no
    request has a negative latency.  This covers the throttled results. *)
Theorem C4_stamps_sorted_across_batches second utcnow (gw : gateway) base_url
    api_key auth_method duration rate t0 :
  0 < second →
  (∀ n req, 0 ≤ ex_latency (gw n req)) →
  ∃ st, Advanced.sustained_engine second utcnow gw base_url api_key
          auth_method duration rate t0 = Some st
        ∧ ∀ i j ri rj,
            results st !! i = Some ri → results st !! j = Some rj →
            (i / Z.to_nat rate < j / Z.to_nat rate)%nat →
            Advanced.timestamp_of ri ≤ Advanced.timestamp_of rj.
Proof.
  intros Hsec Hlat.
  destruct (run_windows_terminates second 10
              (Advanced.task utcnow gw base_url auth_method api_key)
              ltac:(done) rate duration t0 Hsec) as [st Hrun].
  exists st. split; [done|].
  intros i j ri rj.
  apply (stamps_ordered_across_windows second 10
           (Advanced.task utcnow gw base_url auth_method api_key)
           ltac:(done) Advanced.timestamp_of) with (duration := duration) (t0 := t0);
    [|..|done].
  - intros n s. apply Advanced_task_stamp.
  - intros n s. rewrite Advanced_task_time. specialize (Hlat n). 
    pose proof (Hlat (Advanced.build_request utcnow base_url auth_method
                        api_key "GET" "/test-bucket/test-object")). lia.
Qed.

Lemma C4_stamps_sorted_across_batches_witness :
  let gw : gateway :=
    λ n _, Exchange (Responded 429 []) (if decide (n = O) then 3 else 1) in
  ∃ st, Advanced.sustained_engine 10 (λ _, "") gw "http://localhost"
          "test-key" "v4" 20 2 0 = Some st
        ∧ ∀ i j ri rj,
            results st !! i = Some ri → results st !! j = Some rj →
            (i / Z.to_nat 2 < j / Z.to_nat 2)%nat →
            Advanced.timestamp_of ri ≤ Advanced.timestamp_of rj.
Proof.
  intros gw.
  apply (C4_stamps_sorted_across_batches 10 (λ _, "") gw "http://localhost"
           "test-key" "v4" 20 2 0); [lia|].
  intros n req. unfold gw. simpl. case_decide; lia.
Defined.

(** ** A rate that is not positive *)

(** C6, as stated, fails.  With [--rate 0 --duration 2] the load test is
    not refused: the loop makes its two iterations, two seconds pass, and
    the analysis of the empty result list is printed. *)
Lemma C6_zero_rate_runs_to_the_end :
  let gw : gateway := λ _ _, Exchange (Responded 200 []) 0 in
  let a := LoadTest.Args "http://localhost" "test-key" "GET" 0 2 "load" in
  LoadTest.main 1000 gw a 0 = Some (LoadTest.Load (LoadTest.Analysis 0 0 0 0 ∅))
  ∧ LoadTest.main 1000 gw a 0 ≠ Some LoadTest.Usage_error
  ∧ ∃ st, LoadTest.load_engine 1000 gw "http://localhost" (Some "test-key")
            "GET" 0 2000 0 = Some st
          ∧ now st = 2000 ∧ length (log st) = 2%nat.
Proof.
  split; [by vm_compute|]. split; [by vm_compute|].
  eexists. split; [vm_compute; reflexivity|]. done.
Qed.

(** C6, amended.  A rate that is not positive is not checked anywhere:
    the loop of [run_load_test] runs for the whole duration, one empty
    batch a second, issues no request and returns the empty list, and
    [main] prints the analysis of it. *)
Theorem C6_nonpositive_rate_is_not_refused second (gw : gateway) base_url
    (key : option string) method rate duration t0 :
  0 < second → rate ≤ 0 → 0 < duration →
  (∃ st (k : nat),
     LoadTest.load_engine second gw base_url key method rate duration t0
     = Some st
     ∧ results st = [] ∧ issued st = O
     ∧ length (log st) = k
     ∧ now st = t0 + Z.of_nat k * second
     ∧ (Z.of_nat k - 1) * second < duration ≤ Z.of_nat k * second)
  ∧ LoadTest.run_load_test second gw base_url key method rate duration t0
    = Some []
  ∧ ∀ a, LoadTest.rate a ≤ 0 → 0 < LoadTest.arg_duration a →
         LoadTest.arg_method a ∈ ["GET"; "PUT"] →
         LoadTest.test_type a = "load" →
         LoadTest.main second gw a t0
         = Some (LoadTest.Load (LoadTest.Analysis 0 0 0 0 ∅)).
Proof.
  intros Hsec Hrate Hdur.
  assert (∀ base_url key method rate duration, rate ≤ 0 → 0 < duration →
            ∃ st (k : nat),
              LoadTest.load_engine second gw base_url key method rate
                duration t0 = Some st
              ∧ results st = [] ∧ issued st = O
              ∧ length (log st) = k
              ∧ now st = t0 + Z.of_nat k * second
              ∧ (Z.of_nat k - 1) * second < duration ≤ Z.of_nat k * second)
    as Hempty.
  { clear -Hsec. intros base_url key method rate duration Hrate Hdur.
    destruct (instant_run second 20 (LoadTest.task gw base_url key method)
                rate) with (duration := duration) (t0 := t0)
      as (st & k & Hrun & Hlen & Hiss & Hlog & Hnow & Hk); try done.
    { by left. }
    exists st, k. replace (Z.to_nat rate) with O in * by lia.
    rewrite Nat.mul_0_r in *. apply nil_length_inv in Hlen. done. }
  split; [by apply Hempty|]. split.
  - destruct (Hempty base_url key method rate duration Hrate Hdur)
      as (st & k & Hrun & Hres & _).
    unfold LoadTest.run_load_test. rewrite Hrun. simpl. by rewrite Hres.
  - intros a Ha Hd Hm Ht. unfold LoadTest.main.
    rewrite decide_True.
    2:{ split; [done|]. rewrite Ht.
        apply list_elem_of_further, list_elem_of_here. }
    rewrite decide_False by (rewrite Ht; done).
    destruct (Hempty (LoadTest.url a) (Some (LoadTest.arg_api_key a))
                (LoadTest.arg_method a) (LoadTest.rate a)
                (LoadTest.arg_duration a * second) Ha ltac:(nia))
      as (st & k & Hrun & Hres & _).
    unfold LoadTest.run_load_test. rewrite Hrun. simpl. by rewrite Hres.
Qed.

Lemma C6_nonpositive_rate_is_not_refused_witness :
  let gw : gateway := λ _ _, Exchange (Responded 200 []) 0 in
  LoadTest.run_load_test 1000 gw "http://localhost" (Some "test-key") "GET"
    (-5) 3000 0 = Some [].
Proof.
  intros gw.
  apply (C6_nonpositive_rate_is_not_refused 1000 gw "http://localhost"
           (Some "test-key") "GET" (-5) 3000 0); lia.
Defined.

(** In the advanced script the same run ends in the division of the
    success count by a total of zero, after the loop has run. *)
Lemma Advanced_zero_rate_divides_by_zero second utcnow gws a t0 :
  0 < second → Advanced.rate a ≤ 0 → 0 < Advanced.arg_duration a →
  Advanced.parse_args a = Some a → Advanced.test_type a = "sustained" →
  Advanced.main second utcnow gws a t0 = Some Advanced.Zero_division.
Proof.
  intros Hsec Hrate Hdur Hparse Htype. unfold Advanced.main.
  rewrite Hparse, Htype.
  repeat (rewrite decide_False by done). rewrite decide_True by done.
  destruct (instant_run second 10
              (Advanced.task utcnow (gws O) (Advanced.url a)
                 (Advanced.arg_auth_method a) (Advanced.arg_api_key a))
              (Advanced.rate a)) with
      (duration := Advanced.arg_duration a * second) (t0 := t0)
    as (st & k & Hrun & Hlen & _); try done; [by left|nia|].
  unfold Advanced.run_sustained_test, Advanced.sustained_engine.
  rewrite Hrun. simpl. rewrite Hlen.
  replace (Z.to_nat (Advanced.rate a)) with O by lia.
  by rewrite Nat.mul_0_r.
Qed.

(** ** An unknown auth scheme *)

(** C5, as stated, fails.  [test_request] called with the scheme ["v5"]
    raises nothing: it sends the request with the User-Agent header alone
    and no query parameter, and hands back what the gateway answered. *)
Lemma C5_unknown_scheme_is_sent_bare :
  let bare (req : request) :=
    bool_decide (req_headers req = {[ "User-Agent" := "test-client/2.0" ]}
                 ∧ req_params req = ∅) in
  let gw (req : request) :=
    if bare req then Exchange (Responded 200 []) 0
    else Exchange (Responded 403 []) 0 in
  ("v5" ∉ Advanced.auth_methods)
  ∧ Advanced.test_request (λ _, "") gw "http://localhost" "v5" "test-key"
      "GET" "/test-bucket/test-object" 0
    = (Advanced.Response 200 ∅ "test-key" "v5" "GET" 0 0, 0).
Proof.
  split; [|by vm_compute].
  intros Hin. by repeat (apply elem_of_cons in Hin as [Hin|Hin]; [done|]);
    apply elem_of_nil in Hin.
Qed.

(** C5, amended.  A scheme outside the five is refused on the command
    line only: [parse_args] rejects it and [main] ends with the usage
    error before anything runs.  [test_request] itself has no branch for
    it: it attaches no credentials (the User-Agent header alone, no query
    parameter) and issues the request all the same. *)
Theorem C5_unknown_scheme_refused_by_argparse_only second utcnow gws
    auth_method base_url api_key method path start :
  auth_method ∉ Advanced.auth_methods →
  (∀ a t0, Advanced.arg_auth_method a = auth_method →
           Advanced.parse_args a = None
           ∧ Advanced.main second utcnow gws a t0 = Some Advanced.Usage_error)
  ∧ Advanced.auth_material utcnow auth_method api_key method path
    = ({[ "User-Agent" := "test-client/2.0" ]}, ∅)
  ∧ ∀ gw : request → exchange,
      let ex := gw (Request method (base_url +:+ path)
                      {[ "User-Agent" := "test-client/2.0" ]} ∅) in
      Advanced.test_request utcnow gw base_url auth_method api_key method
        path start
      = match ex_reply ex with
        | Responded status hs =>
            (Advanced.Response status (Advanced.extract_rate_info hs) api_key
               auth_method method (start + ex_latency ex) (ex_latency ex),
             start + ex_latency ex)
        | Raised e =>
            (Advanced.Failure e api_key auth_method method
               (start + ex_latency ex), start + ex_latency ex)
        end.
Proof.
  intros Hout.
  assert (Advanced.auth_material utcnow auth_method api_key method path
          = ({[ "User-Agent" := "test-client/2.0" ]}, ∅)) as Hbare.
  { unfold Advanced.auth_material, Advanced.auth_methods in *.
    repeat (rewrite decide_False;
            [|intros ->; apply Hout; repeat constructor]).
    done. }
  split; [|split; [done|]].
  - intros a t0 Ha.
    assert (Advanced.parse_args a = None) as Hparse.
    { unfold Advanced.parse_args. rewrite decide_False; [done|].
      rewrite Ha. tauto. }
    split; [done|]. unfold Advanced.main. by rewrite Hparse.
  - intros gw. unfold Advanced.test_request, Advanced.build_request.
    rewrite Hbare. done.
Qed.

Lemma C5_unknown_scheme_refused_by_argparse_only_witness :
  Advanced.auth_material (λ _, "") "v5" "test-key" "GET"
    "/test-bucket/test-object"
  = ({[ "User-Agent" := "test-client/2.0" ]}, ∅).
Proof.
  apply (C5_unknown_scheme_refused_by_argparse_only 1000 (λ _, "")
           (λ _ _ _, Exchange (Responded 200 []) 0) "v5" "http://localhost"
           "test-key" "GET" "/test-bucket/test-object" 0).
  intros Hin. by repeat (apply elem_of_cons in Hin as [Hin|Hin]; [done|]);
    apply elem_of_nil in Hin.
Defined.

(** ** The spelling of the telemetry headers *)

(** The extraction loop keeps a header whatever the case of its name. *)
Lemma is_rate_header_lower h1 h2 :
  lower h1 = lower h2 →
  Advanced.is_rate_header h1 = Advanced.is_rate_header h2.
Proof. unfold Advanced.is_rate_header. by intros ->. Qed.

(** [test_api_key] reads the headers off the case-insensitive dict, so
    the spelling of the names makes no difference to it. *)
Lemma Individual_probe_same_up_to_case status hs1 hs2 latency1 latency2 :
  same_up_to_case hs1 hs2 →
  Individual.probe (Exchange (Responded status hs1) latency1)
  = Individual.probe (Exchange (Responded status hs2) latency2).
Proof.
  intros Hsame. unfold Individual.probe. simpl.
  by rewrite !(ci_get_same_up_to_case hs1 hs2 _ Hsame).
Qed.

(** C7.  Two answers that differ in nothing but the case of the header
    name: the group is detected from the one and not from the other by
    [run_sustained_test], which looks the name up in a plain dict under
    the spelling ["X-RateLimit-Group"]; [test_api_key] reads the same
    group from both. *)
Theorem C7_lower_case_group_header_is_missed :
  let canonical : headers := [("X-RateLimit-Group", "premium")] in
  let lowered : headers := [("x-ratelimit-group", "premium")] in
  let answer (hs : headers) : gateway := λ _ _, Exchange (Responded 200 hs) 0 in
  same_up_to_case canonical lowered
  ∧ headers_wf canonical ∧ headers_wf lowered
  ∧ (∃ s, Advanced.run_sustained_test 1 (λ _, "") (answer canonical)
            "http://localhost" "test-premium-key" "v4" 1 1 0 = Some s
          ∧ Advanced.detected_group s = Some "premium")
  ∧ (∃ s, Advanced.run_sustained_test 1 (λ _, "") (answer lowered)
            "http://localhost" "test-premium-key" "v4" 1 1 0 = Some s
          ∧ Advanced.detected_group s = None)
  ∧ Individual.detected_group <$>
      Individual.test_api_key (answer canonical) "test-premium-key" "premium" 1
    = Some "premium"
  ∧ Individual.detected_group <$>
      Individual.test_api_key (answer lowered) "test-premium-key" "premium" 1
    = Some "premium".
Proof.
  repeat split.
  - by repeat constructor.
  - unfold headers_wf. simpl. apply NoDup_singleton.
  - unfold headers_wf. simpl. apply NoDup_singleton.
  - eexists. split; [vm_compute; reflexivity|]. by vm_compute.
  - eexists. split; [vm_compute; reflexivity|]. by vm_compute.
Qed.

(** ** The detected group *)

Lemma truthy_nonempty g : truthy g = true ↔ g ≠ "".
Proof. by destruct g. Qed.

Lemma detect_group_app rs more :
  Advanced.detect_group (rs ++ more)
  = match Advanced.detect_group rs with
    | Some g => Some g
    | None => Advanced.detect_group more
    end.
Proof.
  induction rs as [|r rs IH]; simpl; [done|].
  destruct (Advanced.get_rate_info r !! "X-RateLimit-Group") as [g|]; [|done].
  by destruct (truthy g).
Qed.

Lemma detect_group_Some rs g :
  Advanced.detect_group rs = Some g ↔
  ∃ i r, rs !! i = Some r
    ∧ Advanced.get_rate_info r !! "X-RateLimit-Group" = Some g ∧ g ≠ ""
    ∧ ∀ j r', (j < i)%nat → rs !! j = Some r' →
        Advanced.get_rate_info r' !! "X-RateLimit-Group" = None
        ∨ Advanced.get_rate_info r' !! "X-RateLimit-Group" = Some "".
Proof.
  induction rs as [|r rs IH]; simpl.
  { split; [done|]. by intros (i & r & ? & _). }
  destruct (Advanced.get_rate_info r !! "X-RateLimit-Group") as [g0|] eqn:Hr.
  - destruct (truthy g0) eqn:Ht.
    + split.
      * intros [= ->]. exists O, r. simpl. repeat split; try done.
        { by apply truthy_nonempty. }
        intros j r' Hj. lia.
      * intros (i & r0 & Hi & Hg & Hne & Hbefore).
        destruct i as [|i]; simpl in Hi.
        { injection Hi as <-. congruence. }
        destruct (Hbefore O r) as [Hnone|Hempty]; [lia|done|congruence|].
        rewrite Hr in Hempty. injection Hempty as ->. done.
    + assert (g0 = "") as -> by (by destruct g0).
      rewrite IH. split.
      * intros (i & r0 & Hi & Hg & Hne & Hbefore).
        exists (S i), r0. repeat split; try done.
        intros [|j] r' Hj Hr'; simpl in Hr'.
        { injection Hr' as <-. by right. }
        eapply Hbefore; [|done]. lia.
      * intros (i & r0 & Hi & Hg & Hne & Hbefore).
        destruct i as [|i]; simpl in Hi.
        { injection Hi as <-. congruence. }
        exists i, r0. repeat split; try done.
        intros j r' Hj Hr'. apply (Hbefore (S j) r'); [lia|done].
  - rewrite IH. split.
    + intros (i & r0 & Hi & Hg & Hne & Hbefore).
      exists (S i), r0. repeat split; try done.
      intros [|j] r' Hj Hr'; simpl in Hr'.
      { injection Hr' as <-. by left. }
      eapply Hbefore; [|done]. lia.
    + intros (i & r0 & Hi & Hg & Hne & Hbefore).
      destruct i as [|i]; simpl in Hi.
      { injection Hi as <-. congruence. }
      exists i, r0. repeat split; try done.
      intros j r' Hj Hr'. apply (Hbefore (S j) r'); [lia|done].
Qed.

Lemma detect_group_None rs :
  Advanced.detect_group rs = None ↔
  ∀ r, r ∈ rs →
    Advanced.get_rate_info r !! "X-RateLimit-Group" = None
    ∨ Advanced.get_rate_info r !! "X-RateLimit-Group" = Some "".
Proof.
  induction rs as [|r rs IH]; simpl.
  { split; [|done]. intros _ r Hin. by apply elem_of_nil in Hin. }
  destruct (Advanced.get_rate_info r !! "X-RateLimit-Group") as [g0|] eqn:Hr.
  - destruct g0 as [|c g0]; simpl.
    + rewrite IH. split.
      * intros Hall r' [->|Hin]%elem_of_cons; [by right|by apply Hall].
      * intros Hall r' Hin. apply Hall. by right.
    + split; [done|]. intros Hall.
      destruct (Hall r) as [Hnone|Hempty]; [by left|congruence|congruence].
  - rewrite IH. split.
    + intros Hall r' [->|Hin]%elem_of_cons; [by left|by apply Hall].
    + intros Hall r' Hin. apply Hall. by right.
Qed.

(** C10, as stated, fails.  The first answer carries the key with an
    empty value; the value "found in the first result that has the key"
    is that empty string, but the run reports the group of the second
    answer. *)
Lemma C10_empty_group_value_is_skipped :
  let gw : gateway :=
    λ n _, Exchange (Responded 200 [("X-RateLimit-Group",
                                     if decide (n = O) then "" else "premium")])
             0 in
  ∃ s, Advanced.run_sustained_test 1 (λ _, "") gw "http://localhost"
         "test-premium-key" "v4" 1 2 0 = Some s
       ∧ first_group_by_key (Advanced.all_results s) = Some ""
       ∧ Advanced.detected_group s = Some "premium"
       ∧ Advanced.detected_group s ≠ first_group_by_key (Advanced.all_results s).
Proof.
  eexists. split; [vm_compute; reflexivity|]. by vm_compute.
Qed.

(** C10, amended.  The detected group of a run is the value under exactly
    the key ["X-RateLimit-Group"] in the first result, in the order of the
    result list, where that value is not empty; results without the key
    or with an empty value are passed over.  When there is no such result
    the group is [None].  What comes after the first hit never changes
    the group. *)
Theorem C10_detected_group_is_first_nonempty rs :
  Advanced.detected_group (Advanced.summarize rs) = Advanced.detect_group rs
  ∧ (∀ g, Advanced.detect_group rs = Some g ↔
       ∃ i r, rs !! i = Some r
         ∧ Advanced.get_rate_info r !! "X-RateLimit-Group" = Some g ∧ g ≠ ""
         ∧ ∀ j r', (j < i)%nat → rs !! j = Some r' →
             Advanced.get_rate_info r' !! "X-RateLimit-Group" = None
             ∨ Advanced.get_rate_info r' !! "X-RateLimit-Group" = Some "")
  ∧ (Advanced.detect_group rs = None ↔
       ∀ r, r ∈ rs →
         Advanced.get_rate_info r !! "X-RateLimit-Group" = None
         ∨ Advanced.get_rate_info r !! "X-RateLimit-Group" = Some "")
  ∧ ∀ more,
      Advanced.detect_group (rs ++ more)
      = match Advanced.detect_group rs with
        | Some g => Some g
        | None => Advanced.detect_group more
        end.
Proof.
  split; [done|]. split; [apply detect_group_Some|].
  split; [apply detect_group_None|apply detect_group_app].
Qed.

(** ** Ingestion *)

Lemma execute_sql_run clickhouse q w :
  HyperDX.execute_sql clickhouse q w
  = (Ok (match clickhouse (length (attempts w)) q with
         | Accepted text => text
         | _ => ""
         end),
     World (attempts w ++ [q])
           (match clickhouse (length (attempts w)) q with
            | Accepted _ => stored w ++ [q]
            | _ => stored w
            end)
           (printed w ++
            match clickhouse (length (attempts w)) q with
            | Accepted _ => []
            | Rejected _ text => [Sql_error text]
            | Unreachable e => [Connection_error e]
            end)).
Proof.
  unfold HyperDX.execute_sql, post, mbind, io_bind. simpl.
  destruct (clickhouse (length (attempts w)) q); simpl;
    by rewrite ?app_nil_r; destruct w.
Qed.

(** One group: whatever the store answers, the group's row is posted
    once and nothing is raised. *)
Lemma ingest_group_run clickhouse uuid4 timestamp n group_name members analysis w :
  analysis_of members = Some analysis →
  ∃ q, q_table q = "test_results"
    ∧ column "effective_limit" (q_row q)
      = Some (Bare (default (JInt 0) (assoc "EffectiveLimit" analysis)))
    ∧ column "observed_bursts" (q_row q)
      = Some (Bare (default (JInt 0) (assoc "ObservedBursts" analysis)))
    ∧ column "success_rate" (q_row q)
      = Some (Bare (default (JFloat 0 0) (assoc "SuccessRate" analysis)))
    ∧ column "rate_limit_details" (q_row q)
      = Some (Dumped (default (JObj []) (assoc "RateLimitDetails" members)))
    ∧ column "raw_data" (q_row q) = Some (Dumped (JObj members))
    ∧ HyperDX.ingest_group clickhouse uuid4 timestamp n group_name
        (JObj members) w
      = (Ok (), after_post clickhouse q (Inserted_group group_name)
                  (Failed_group group_name) w).
Proof.
  intros Han. unfold analysis_of in Han.
  unfold HyperDX.ingest_group.
  unfold mbind at 1. unfold io_bind at 1. unfold lift at 1. simpl.
  destruct (assoc "RateLimitAnalysis" members) as [v|] eqn:Hrla.
  - destruct v as [| | | | | |fields]; try done. injection Han as <-.
    rewrite bool_decide_true by eauto.
    unfold mbind, io_bind, lift, py_get, py_index. simpl. rewrite ?Hrla. simpl.
    match goal with
    | |- context [HyperDX.execute_sql _ ?q _] => exists q
    end.
    repeat split; try reflexivity.
    rewrite execute_sql_run. unfold after_post, print. simpl.
    destruct (clickhouse _ _) as [text| |]; simpl;
      [destruct (decide (text = ""))|..]; simpl; by rewrite <- ?app_assoc.
  - injection Han as <-.
    rewrite bool_decide_false by (by intros [? ?]).
    unfold mbind, io_bind, lift, py_get, py_index, mret, io_ret. simpl.
    match goal with
    | |- context [HyperDX.execute_sql _ ?q _] => exists q
    end.
    repeat split; try reflexivity.
    rewrite execute_sql_run. unfold after_post, print. simpl.
    destruct (clickhouse _ _) as [text| |]; simpl;
      [destruct (decide (text = ""))|..]; simpl; by rewrite <- ?app_assoc.
Qed.

Lemma after_post_attempts clickhouse q l f w :
  attempts (after_post clickhouse q l f w) = attempts w ++ [q].
Proof. done. Qed.

Lemma after_post_stored clickhouse q l f w :
  stored w `prefix_of` stored (after_post clickhouse q l f w).
Proof.
  unfold after_post. simpl.
  destruct (clickhouse _ _); simpl; [by apply prefix_app_r|done|done].
Qed.

Lemma after_post_accounted clickhouse q l f w :
  failure_line l = false → (∀ text, failure_line (f text) = false) →
  accounted w → accounted (after_post clickhouse q l f w).
Proof.
  unfold accounted, after_post. intros Hl Hf Hacc. simpl.
  destruct (clickhouse _ _) as [text| |]; simpl;
    rewrite !length_app, filter_app, length_app; simpl;
    [destruct (decide (text = ""))|..];
    rewrite ?filter_cons, ?filter_nil; simpl;
    repeat case_decide; simpl; try lia;
    try (rewrite Hl in *; done); try (rewrite Hf in *; done); done.
Qed.

(** The loop of [ingest_group_results] goes through all the groups: one
    POST for each, whatever the store answered to the ones before. *)
Lemma ingest_groups_run clickhouse uuid4 timestamp (f : nat → nat)
    (items : list (string * json)) w :
  Forall (λ item, readable_group item.2) items →
  ∃ w',
    for_each (imap (λ n item, (f n, item)) items)
      (λ '(n, (group_name, group_data)),
         HyperDX.ingest_group clickhouse uuid4 timestamp n group_name group_data)
      w = (Ok (), w')
    ∧ length (attempts w') = (length (attempts w) + length items)%nat
    ∧ attempts w `prefix_of` attempts w'
    ∧ stored w `prefix_of` stored w'
    ∧ (accounted w → accounted w').
Proof.
  intros Hok. revert f w.
  induction Hok as [|[name data] items (members & Hdata & [analysis Han]) _ IH];
    intros f w.
  { exists w. simpl. repeat split; [lia|done|done|done]. }
  simpl in Hdata. subst data. simpl.
  destruct (ingest_group_run clickhouse uuid4 timestamp (f O) name members
              analysis w Han) as (q & _ & _ & _ & _ & _ & _ & Hrun).
  unfold mbind at 1. unfold io_bind at 1. rewrite Hrun.
  destruct (IH (f ∘ S) (after_post clickhouse q (Inserted_group name)
                          (Failed_group name) w))
    as (w' & Hloop & Hlen & Hatt & Hsto & Hacc).
  exists w'. split; [done|].
  rewrite after_post_attempts, length_app in Hlen. simpl in Hlen.
  repeat split.
  - lia.
  - etrans; [|exact Hatt]. rewrite after_post_attempts. by apply prefix_app_r.
  - etrans; [|exact Hsto]. apply after_post_stored.
  - intros Hw. apply Hacc. by apply after_post_accounted.
Qed.

Lemma ingest_group_results_run clickhouse uuid4 timestamp
    (items : list (string * json)) w :
  Forall (λ item, readable_group item.2) items →
  ∃ w',
    HyperDX.ingest_group_results clickhouse uuid4 (JObj items) timestamp w
    = (Ok (), w')
    ∧ length (attempts w') = (length (attempts w) + length items)%nat
    ∧ attempts w `prefix_of` attempts w'
    ∧ stored w `prefix_of` stored w'
    ∧ (accounted w → accounted w').
Proof.
  intros Hok. unfold HyperDX.ingest_group_results.
  unfold mbind, io_bind, lift, print. simpl.
  destruct (ingest_groups_run clickhouse uuid4 timestamp id items
              (World (attempts w) (stored w)
                 (printed w ++ [Inserting_groups (length items)])) Hok)
    as (w' & Hloop & Hlen & Hatt & Hsto & Hacc).
  exists w'. repeat split; try done.
  intros Hw. apply Hacc. unfold accounted in *. simpl.
  rewrite filter_app, length_app. simpl. lia.
Qed.

(** One throttle event with a timestamp that parses: its row is posted
    once and nothing is raised. *)
Lemma ingest_event_run clickhouse event_time group_name k members ts time w :
  assoc "Timestamp" members = Some (JStr ts) →
  event_time ts = Some time →
  ∃ q, q_table q = "throttle_events"
    ∧ column "remaining_requests" (q_row q)
      = Some (Bare (default (JInt 0) (assoc "RemainingReqs" members)))
    ∧ column "reset_in_seconds" (q_row q)
      = Some (Bare (default (JInt 0) (assoc "ResetIn" members)))
    ∧ column "event_data" (q_row q) = Some (Dumped (JObj members))
    ∧ HyperDX.ingest_event clickhouse event_time group_name k (JObj members) w
      = (Ok (match clickhouse (length (attempts w)) q with
             | Accepted text => if decide (text = "") then S k else k
             | _ => S k
             end),
         (HyperDX.execute_sql clickhouse q w).2).
Proof.
  intros Hts Htime. unfold HyperDX.ingest_event.
  unfold mbind, io_bind, py_bind, lift, py_index, py_get, py_str, mret, io_ret.
  rewrite Hts, Htime.
  match goal with
  | |- context [HyperDX.execute_sql _ ?q _] => exists q
  end.
  repeat split; try reflexivity.
  rewrite execute_sql_run. simpl.
  destruct (clickhouse _ _) as [text| |]; simpl; done.
Qed.

(** Groups without the member ["ThrottleEvents"] are passed over. *)
Lemma ingest_throttle_events_none clickhouse event_time
    (items : list (string * json)) timestamp w :
  Forall (λ item, ∃ fields, item.2 = JObj fields
                            ∧ assoc "ThrottleEvents" fields = None) items →
  HyperDX.ingest_throttle_events clickhouse event_time (JObj items) timestamp w
  = (Ok (), World (attempts w) (stored w)
              (printed w ++ [Inserting_events; Inserted_events 0])).
Proof.
  intros Hnone. unfold HyperDX.ingest_throttle_events.
  unfold mbind at 1. unfold io_bind at 1. unfold print at 1. simpl.
  unfold mbind at 1. unfold io_bind at 1. unfold lift at 1. simpl.
  unfold mbind at 1. unfold io_bind at 1.
  set (w0 := World (attempts w) (stored w) (printed w ++ [Inserting_events])).
  assert (∀ k, fold_each items k
                 (λ events_inserted '(group_name, group_analysis),
                    has ← lift (py_in "ThrottleEvents" group_analysis);
                    if has : bool then
                      events ← lift (py_index group_analysis "ThrottleEvents"
                                     ≫= py_iter);
                      fold_each events events_inserted
                        (HyperDX.ingest_event clickhouse event_time group_name)
                    else mret events_inserted) w0 = (Ok k, w0)) as Hloop.
  { induction Hnone as [|[name data] items (fields & Hdata & Hev) _ IH];
      intros k; [done|].
    simpl in Hdata. subst data. simpl.
    unfold mbind at 1. unfold io_bind at 1.
    unfold mbind at 1. unfold io_bind at 1. unfold lift at 1. simpl.
    rewrite Hev. rewrite bool_decide_false by (by intros [? ?]).
    unfold mret, io_ret. apply IH. }
  rewrite Hloop. unfold print, w0. simpl. by rewrite <- app_assoc.
Qed.

(** [import_data.py]: the loop goes on after an error status ... *)
Lemma insert_records_without_outage clickhouse rs w :
  (∀ n q e, clickhouse n q ≠ Unreachable e) →
  ∃ w', ImportData.insert_records clickhouse rs w = (Ok true, w')
    ∧ attempts w' = attempts w ++ (ImportData.insert_of <$> rs).
Proof.
  intros Hup. revert w. induction rs as [|r rs IH]; intros w; simpl.
  { exists w. by rewrite app_nil_r. }
  unfold mbind at 1. unfold io_bind at 1. unfold post at 1.
  destruct (clickhouse (length (attempts w)) (ImportData.insert_of r))
    as [text|status text|e] eqn:Hreply.
  - unfold mbind at 1. unfold io_bind at 1. unfold print at 1.
    match goal with |- context [ImportData.insert_records _ _ ?w1] =>
      destruct (IH w1) as (w' & Hrun & Hatt) end.
    exists w'. split; [done|]. rewrite Hatt. simpl. by rewrite <- app_assoc.
  - unfold mbind at 1. unfold io_bind at 1. unfold print at 1.
    match goal with |- context [ImportData.insert_records _ _ ?w1] =>
      destruct (IH w1) as (w' & Hrun & Hatt) end.
    exists w'. split; [done|]. rewrite Hatt. simpl. by rewrite <- app_assoc.
  - by destruct (Hup _ _ _ Hreply).
Qed.

(** ... and ends at the first connection error, with the records after it
    never posted. *)
Lemma insert_records_outage clickhouse r rs e w :
  clickhouse (length (attempts w)) (ImportData.insert_of r) = Unreachable e →
  ImportData.insert_records clickhouse (r :: rs) w
  = (Ok false, World (attempts w ++ [ImportData.insert_of r]) (stored w)
                 (printed w ++ [Connection_error e])).
Proof.
  intros Hreply. simpl.
  unfold mbind at 1. unfold io_bind at 1. unfold post at 1.
  rewrite Hreply. done.
Qed.

Lemma io_bind_run {A B} (m : io A) (k : A → io B) w :
  (m ≫= k) w
  = match m w with
    | (Ok a, w') => k a w'
    | (Raise e, w') => (Raise e, w')
    end.
Proof. done. Qed.

(** ** The whole ingestion, row by row *)

Lemma after_post_accepted clickhouse q l f w :
  accepting clickhouse →
  stored (after_post clickhouse q l f w) = stored w ++ [q].
Proof.
  intros Hacc. unfold after_post. simpl.
  by destruct (Hacc (length (attempts w)) q) as [text ->].
Qed.

Lemma ingest_summary_run clickhouse members timestamp w d :
  py_number (default (JInt 0) (assoc "Duration" members)) = Ok d →
  ∃ q, q_table q = "test_summary"
     ∧ HyperDX.ingest_summary clickhouse (JObj members) timestamp w
       = (Ok (), after_post clickhouse q Inserted_summary Failed_summary w).
Proof.
  intros Hnum. unfold HyperDX.ingest_summary.
  unfold mbind, io_bind, py_bind, lift, py_get. cbv beta iota. rewrite Hnum.
  match goal with
  | |- context [HyperDX.execute_sql _ ?q _] => exists q
  end.
  split; [reflexivity|].
  rewrite execute_sql_run. unfold after_post, print. simpl.
  destruct (clickhouse _ _) as [text| |]; simpl;
    [destruct (decide (text = ""))|..]; simpl; by rewrite <- ?app_assoc.
Qed.

(** One group entry: its row, whatever the store answers. *)
Lemma ingest_group_row clickhouse uuid4 timestamp n group_name members w :
  is_Some (analysis_of members) →
  ∃ q, group_row (group_name, JObj members) q
     ∧ HyperDX.ingest_group clickhouse uuid4 timestamp n group_name
         (JObj members) w
       = (Ok (), after_post clickhouse q (Inserted_group group_name)
                   (Failed_group group_name) w).
Proof.
  intros [analysis Han]. pose proof Han as Han'. unfold analysis_of in Han.
  unfold HyperDX.ingest_group.
  unfold mbind at 1. unfold io_bind at 1. unfold lift at 1. simpl.
  destruct (assoc "RateLimitAnalysis" members) as [v|] eqn:Hrla.
  - destruct v as [| | | | | |fields]; try done. injection Han as <-.
    rewrite bool_decide_true by eauto.
    unfold mbind, io_bind, lift, py_get, py_index. simpl. rewrite ?Hrla. simpl.
    match goal with
    | |- context [HyperDX.execute_sql _ ?q _] => exists q
    end.
    split.
    + do 3 (split; [reflexivity|]). exists members, fields.
      repeat split; try reflexivity. exact Han'.
    + rewrite execute_sql_run. unfold after_post, print. simpl.
      destruct (clickhouse _ _) as [text| |]; simpl;
        [destruct (decide (text = ""))|..]; simpl; by rewrite <- ?app_assoc.
  - injection Han as <-.
    rewrite bool_decide_false by (by intros [? ?]).
    unfold mbind, io_bind, lift, py_get, py_index, mret, io_ret. simpl.
    match goal with
    | |- context [HyperDX.execute_sql _ ?q _] => exists q
    end.
    split.
    + do 3 (split; [reflexivity|]). exists members, [].
      repeat split; try reflexivity. exact Han'.
    + rewrite execute_sql_run. unfold after_post, print. simpl.
      destruct (clickhouse _ _) as [text| |]; simpl;
        [destruct (decide (text = ""))|..]; simpl; by rewrite <- ?app_assoc.
Qed.

Lemma ingest_groups_posted clickhouse uuid4 timestamp (f : nat → nat)
    (items : list (string * json)) w :
  Forall (λ item, readable_group item.2) items →
  ∃ w' qs,
    for_each (imap (λ n item, (f n, item)) items)
      (λ '(n, (group_name, group_data)),
         HyperDX.ingest_group clickhouse uuid4 timestamp n group_name group_data)
      w = (Ok (), w')
    ∧ attempts w' = attempts w ++ qs
    ∧ Forall2 group_row items qs
    ∧ (accepting clickhouse → stored w' = stored w ++ qs).
Proof.
  intros Hok. revert f w.
  induction Hok as [|[name data] items (members & Hdata & Han) _ IH];
    intros f w.
  { exists w, []. simpl. rewrite !app_nil_r. repeat split; try done; constructor. }
  simpl in Hdata. subst data. simpl.
  destruct (ingest_group_row clickhouse uuid4 timestamp (f O) name members
              w Han) as (q & Hrow & Hrun).
  unfold mbind at 1. unfold io_bind at 1. rewrite Hrun.
  destruct (IH (f ∘ S) (after_post clickhouse q (Inserted_group name)
                          (Failed_group name) w))
    as (w' & qs & Hloop & Hatt & Hrows & Hsto).
  exists w', (q :: qs). split; [done|].
  rewrite after_post_attempts in Hatt.
  split; [rewrite Hatt; by rewrite <- app_assoc|]. split; [by constructor|].
  intros Hacc. rewrite (Hsto Hacc), (after_post_accepted _ _ _ _ _ Hacc).
  by rewrite <- app_assoc.
Qed.

Lemma ingest_group_results_posted clickhouse uuid4 timestamp
    (items : list (string * json)) w :
  Forall (λ item, readable_group item.2) items →
  ∃ w' qs,
    HyperDX.ingest_group_results clickhouse uuid4 (JObj items) timestamp w
    = (Ok (), w')
    ∧ attempts w' = attempts w ++ qs
    ∧ Forall2 group_row items qs
    ∧ (accepting clickhouse → stored w' = stored w ++ qs).
Proof.
  intros Hok. unfold HyperDX.ingest_group_results.
  unfold mbind, io_bind, lift, print. simpl.
  destruct (ingest_groups_posted clickhouse uuid4 timestamp id items
              (World (attempts w) (stored w)
                 (printed w ++ [Inserting_groups (length items)])) Hok)
    as (w' & qs & Hloop & Hatt & Hrows & Hsto).
  exists w', qs. repeat split; done.
Qed.

(** The events of one entry of the analysis. *)
Lemma ingest_events_posted clickhouse event_time group_name
    (events : list json) k w :
  Forall (readable_event event_time) events →
  ∃ k' w' qs,
    fold_each events k (HyperDX.ingest_event clickhouse event_time group_name) w
    = (Ok k', w')
    ∧ attempts w' = attempts w ++ qs
    ∧ Forall2 event_row events qs
    ∧ (accepting clickhouse → stored w' = stored w ++ qs).
Proof.
  intros Hok. revert k w.
  induction Hok as [|event events (members & ts & time & -> & Hts & Htime) _ IH];
    intros k w; simpl.
  { exists k, w, []. rewrite !app_nil_r. repeat split; try done; constructor. }
  destruct (ingest_event_run clickhouse event_time group_name k members ts time
              w Hts Htime) as (q & Htable & Hremaining & Hreset & Hdata & Hrun).
  unfold mbind at 1. unfold io_bind at 1. rewrite Hrun.
  rewrite execute_sql_run. simpl.
  match goal with
  | |- context [fold_each events ?k1 _ ?w1] =>
      destruct (IH k1 w1) as (k' & w' & qs & Hloop & Hatt & Hrows & Hsto)
  end.
  simpl in *.
  exists k', w', (q :: qs). split; [exact Hloop|].
  split; [rewrite Hatt; by rewrite <- app_assoc|]. split.
  { constructor; [|done]. split; [done|]. split; [done|]. by exists members. }
  intros Hacc. rewrite (Hsto Hacc).
  destruct (Hacc (length (attempts w)) q) as [text ->].
  by rewrite <- app_assoc.
Qed.

(** The events of every entry. *)
Lemma ingest_analysis_posted clickhouse event_time
    (items : list (string * json)) k w :
  Forall (λ item, readable_analysis event_time item.2) items →
  ∃ k' w' qs,
    fold_each items k
      (λ events_inserted '(group_name, group_analysis),
         has ← lift (py_in "ThrottleEvents" group_analysis);
         if has : bool then
           events ← lift (py_index group_analysis "ThrottleEvents" ≫= py_iter);
           fold_each events events_inserted
             (HyperDX.ingest_event clickhouse event_time group_name)
         else mret events_inserted) w
    = (Ok k', w')
    ∧ attempts w' = attempts w ++ qs
    ∧ Forall2 event_row (concat (events_of <$> items.*2)) qs
    ∧ (accepting clickhouse → stored w' = stored w ++ qs).
Proof.
  intros Hok. revert k w.
  induction Hok as [|[name data] items (fields & Hdata & Hev) _ IH];
    intros k w.
  { simpl. exists k, w, []. rewrite !app_nil_r. repeat split; try done; constructor. }
  simpl in Hdata. subst data.
  assert (concat (events_of <$> ((name, JObj fields) :: items).*2)
          = events_of (JObj fields) ++ concat (events_of <$> items.*2)) as ->
    by done.
  set (rest := concat (events_of <$> items.*2)) in *. clearbody rest.
  cbn [fold_each]. rewrite io_bind_run. rewrite io_bind_run.
  unfold lift at 1. cbn [py_in events_of].
  destruct Hev as [Hnone|(events & Hsome & Hevents)].
  - rewrite Hnone. rewrite bool_decide_false by (by intros [? ?]).
    cbv beta iota. unfold mret at 1, io_ret at 1.
    destruct (IH k w) as (k' & w' & qs & Hloop & Hrest).
    exists k', w', qs. split; [exact Hloop|]. exact Hrest.
  - rewrite Hsome. rewrite bool_decide_true by eauto. cbv beta iota.
    rewrite io_bind_run. unfold lift at 1.
    unfold mbind at 1. unfold py_bind, py_index, py_iter. rewrite Hsome.
    cbv beta iota.
    destruct (ingest_events_posted clickhouse event_time name events k w
                Hevents) as (k1 & w1 & qs1 & Hloop1 & Hatt1 & Hrows1 & Hsto1).
    rewrite Hloop1.
    destruct (IH k1 w1) as (k' & w' & qs & Hloop & Hatt & Hrows & Hsto).
    exists k', w', (qs1 ++ qs). split; [exact Hloop|].
    split; [rewrite Hatt, Hatt1; by rewrite <- app_assoc|].
    split; [by apply Forall2_app|].
    intros Hacc. rewrite (Hsto Hacc), (Hsto1 Hacc). by rewrite <- app_assoc.
Qed.

Lemma ingest_throttle_events_posted clickhouse event_time
    (items : list (string * json)) timestamp w :
  Forall (λ item, readable_analysis event_time item.2) items →
  ∃ w' qs,
    HyperDX.ingest_throttle_events clickhouse event_time (JObj items)
      timestamp w = (Ok (), w')
    ∧ attempts w' = attempts w ++ qs
    ∧ Forall2 event_row (concat (events_of <$> items.*2)) qs
    ∧ (accepting clickhouse → stored w' = stored w ++ qs).
Proof.
  intros Hok. unfold HyperDX.ingest_throttle_events.
  rewrite io_bind_run. unfold print at 1. cbv beta iota.
  rewrite io_bind_run. unfold lift at 1, py_items. cbv beta iota.
  rewrite io_bind_run.
  destruct (ingest_analysis_posted clickhouse event_time items O
              (World (attempts w) (stored w) (printed w ++ [Inserting_events]))
              Hok)
    as (k' & w' & qs & Hloop & Hatt & Hrows & Hsto).
  rewrite Hloop. simpl in *.
  eexists _, qs. split; [reflexivity|]. simpl. repeat split; done.
Qed.

(** The second stage of [ingest_comprehensive_results]. *)
Lemma group_stage_posted clickhouse uuid4 members timestamp w :
  (∀ g, assoc "ByGroup" members = Some g →
     ∃ groups, g = JObj groups
               ∧ Forall (λ item, readable_group item.2) groups) →
  ∃ w' qs,
    (has ← lift (py_in "ByGroup" (JObj members));
     if has : bool then
       groups ← lift (py_index (JObj members) "ByGroup");
       HyperDX.ingest_group_results clickhouse uuid4 groups timestamp
     else mret ()) w = (Ok (), w')
    ∧ attempts w' = attempts w ++ qs
    ∧ Forall2 group_row (members_of (assoc "ByGroup" members)) qs
    ∧ (accepting clickhouse → stored w' = stored w ++ qs).
Proof.
  intros Hgroups. rewrite io_bind_run. unfold lift at 1. simpl.
  destruct (assoc "ByGroup" members) as [g|] eqn:Hg.
  - destruct (Hgroups g eq_refl) as (groups & -> & Hok).
    rewrite bool_decide_true by eauto.
    rewrite io_bind_run. unfold lift at 1. simpl. rewrite ?Hg.
    apply ingest_group_results_posted, Hok.
  - rewrite bool_decide_false by (by intros [? ?]).
    exists w, []. simpl. rewrite !app_nil_r. repeat split; try done; constructor.
Qed.

(** The third stage. *)
Lemma event_stage_posted clickhouse event_time members timestamp w :
  (∀ a, assoc "RateLimitAnalysis" members = Some a →
     ∃ items, a = JObj items
              ∧ Forall (λ item, readable_analysis event_time item.2) items) →
  ∃ w' qs,
    (has ← lift (py_in "RateLimitAnalysis" (JObj members));
     if has : bool then
       analysis ← lift (py_index (JObj members) "RateLimitAnalysis");
       HyperDX.ingest_throttle_events clickhouse event_time analysis timestamp
     else mret ()) w = (Ok (), w')
    ∧ attempts w' = attempts w ++ qs
    ∧ Forall2 event_row
        (concat (events_of
                 <$> (members_of (assoc "RateLimitAnalysis" members)).*2)) qs
    ∧ (accepting clickhouse → stored w' = stored w ++ qs).
Proof.
  intros Han. rewrite io_bind_run. unfold lift at 1. simpl.
  destruct (assoc "RateLimitAnalysis" members) as [a|] eqn:Ha.
  - destruct (Han a eq_refl) as (items & -> & Hok).
    rewrite bool_decide_true by eauto.
    rewrite io_bind_run. unfold lift at 1. simpl. rewrite ?Ha.
    apply ingest_throttle_events_posted, Hok.
  - rewrite bool_decide_false by (by intros [? ?]).
    exists w, []. simpl. rewrite !app_nil_r. repeat split; try done; constructor.
Qed.

(** The three stages together. *)
Lemma ingest_comprehensive_results_posted clickhouse uuid4 event_time
    (top members : list (string * json)) timestamp w :
  assoc "summary" top = Some (JObj members) →
  readable_summary event_time members →
  ∃ w' q0 group_rows event_rows,
    HyperDX.ingest_comprehensive_results clickhouse uuid4 event_time
      (JObj top) timestamp w = (Ok true, w')
    ∧ attempts w' = attempts w ++ q0 :: group_rows ++ event_rows
    ∧ q_table q0 = "test_summary"
    ∧ Forall2 group_row (members_of (assoc "ByGroup" members)) group_rows
    ∧ Forall2 event_row
        (concat (events_of
                 <$> (members_of (assoc "RateLimitAnalysis" members)).*2))
        event_rows
    ∧ (accepting clickhouse
       → stored w' = stored w ++ q0 :: group_rows ++ event_rows).
Proof.
  intros Hsum ([d Hdur] & Hgroups & Han).
  assert (py_in "summary" (JObj top) = Ok true) as Hin.
  { simpl. rewrite Hsum. by rewrite bool_decide_true by eauto. }
  assert (py_index (JObj top) "summary" = Ok (JObj members)) as Hidx.
  { simpl. by rewrite Hsum. }
  unfold HyperDX.ingest_comprehensive_results. rewrite Hin, Hidx.
  rewrite io_bind_run. unfold lift at 1. cbv beta iota.
  destruct (ingest_summary_run clickhouse members timestamp w d Hdur)
    as (q0 & Htable & Hone).
  rewrite io_bind_run. rewrite io_bind_run. unfold lift at 1. cbv beta iota.
  rewrite Hone.
  set (w1 := after_post clickhouse q0 Inserted_summary Failed_summary w).
  destruct (group_stage_posted clickhouse uuid4 members timestamp w1 Hgroups)
    as (w2 & qs2 & Htwo & Hatt2 & Hrows2 & Hsto2).
  rewrite io_bind_run. rewrite io_bind_run. unfold lift at 1. cbv beta iota.
  rewrite Htwo.
  destruct (event_stage_posted clickhouse event_time members timestamp w2 Han)
    as (w3 & qs3 & Hthree & Hatt3 & Hrows3 & Hsto3).
  rewrite io_bind_run. rewrite io_bind_run. unfold lift at 1. cbv beta iota.
  rewrite Hthree.
  exists w3, q0, qs2, qs3. split; [done|].
  unfold w1 in *. rewrite after_post_attempts in Hatt2.
  split; [rewrite Hatt3, Hatt2; by rewrite <- !app_assoc|].
  split; [done|]. split; [done|]. split; [done|].
  intros Hacc. rewrite (Hsto3 Hacc), (Hsto2 Hacc).
  rewrite (after_post_accepted _ _ _ _ _ Hacc). by rewrite <- !app_assoc.
Qed.

(** C8.  An export file with two groups and a store that cannot be
    reached for the first POST and accepts every later one.
    [ingest_group_results] posts both rows, reports the failure and
    stores the second row; [import_results_to_clickhouse] stops at the
    failed POST: the second row is never sent. *)
Theorem C8_import_stops_at_a_connection_error :
  let groups :=
    JObj [("premium", JObj [("RequestsSent", JInt 100)]);
          ("basic", JObj [("RequestsSent", JInt 50)])] in
  let data := JObj [("summary", JObj [("ByGroup", groups)])] in
  let clickhouse : nat → query → store_reply :=
    λ n _, if decide (n = O) then Unreachable "connection refused"
           else Accepted "" in
  let fresh := World [] [] [] in
  (∃ w, HyperDX.ingest_group_results clickhouse (λ _, "id") groups "now" fresh
        = (Ok (), w)
        ∧ length (attempts w) = 2%nat ∧ length (stored w) = 1%nat
        ∧ Connection_error "connection refused" ∈ printed w)
  ∧ (∃ w, ImportData.import_results_to_clickhouse clickhouse (λ _, "id")
            (λ _, "now") data fresh = (Ok false, w)
          ∧ length (attempts w) = 1%nat ∧ length (stored w) = 0%nat
          ∧ printed w = [Found_records 2;
                         Connection_error "connection refused"]).
Proof.
  split.
  - eexists. split; [vm_compute; reflexivity|].
    repeat split. apply list_elem_of_further, list_elem_of_here.
  - eexists. split; [vm_compute; reflexivity|]. done.
Qed.

(** C9, as stated, fails for the event-level fields.  An export in the
    shape the tools exchange: the group entry carries its analysis, and
    the analysis lists one throttle event without ["RemainingReqs"] and
    ["ResetIn"].  Against a store that takes everything the ingestion
    succeeds and writes the summary row and the group's row, but no
    [throttle_events] row: the hints of the event are stored nowhere as
    zero. *)
Lemma C9_events_of_a_group_entry_are_not_stored :
  let event :=
    JObj [("Timestamp", JStr "2025-01-01T00:00:00"); ("Group", JStr "basic")] in
  let data :=
    JObj [("summary",
           JObj [("Duration", JInt 5000000000);
                 ("ByGroup",
                  JObj [("basic",
                         JObj [("APIKey", JStr "test-basic-key");
                               ("RateLimitAnalysis",
                                JObj [("EffectiveLimit", JInt 50);
                                      ("ThrottleEvents", JArr [event])])])])])] in
  ∃ w, HyperDX.ingest_comprehensive_results (λ _ _, Accepted "") (λ _, "id")
         (λ ts, Some ts) data "2025-01-01 00:00:00" (World [] [] [])
       = (Ok true, w)
       ∧ q_table <$> stored w = ["test_summary"; "test_results"]
       ∧ ¬ ∃ q, q ∈ stored w ∧ event_row event q.
Proof.
  eexists. split; [vm_compute; reflexivity|]. split; [reflexivity|].
  intros (q & Hin & Htable & _).
  apply elem_of_cons in Hin as [->|Hin]; [discriminate Htable|].
  apply elem_of_cons in Hin as [->|Hin]; [discriminate Htable|].
  by apply elem_of_nil in Hin.
Qed.

(** C9, amended.  For an export whose summary can be read, the
    ingestion raises nothing and returns [True] whatever the store
    answers, and it posts, in this order: the summary row; one
    [test_results] row per entry of [summary.ByGroup], with the entry as
    its raw payload and with [EffectiveLimit], [ObservedBursts] and
    [SuccessRate] of the entry's analysis, each zero where the analysis
    or the field is absent; and one [throttle_events] row per event
    listed under [summary.RateLimitAnalysis[group].ThrottleEvents], with
    [RemainingReqs] and [ResetIn] zero where the event lacks them.  An
    entry of that map without ["ThrottleEvents"] adds no row and fails
    nothing.  Against a store that takes every row, the rows stored are
    the rows posted. *)
Theorem C9_missing_fields_are_stored_as_zero clickhouse uuid4 event_time
    (top members : list (string * json)) timestamp w :
  assoc "summary" top = Some (JObj members) →
  readable_summary event_time members →
  ∃ w' q0 group_rows event_rows,
    HyperDX.ingest_comprehensive_results clickhouse uuid4 event_time
      (JObj top) timestamp w = (Ok true, w')
    ∧ attempts w' = attempts w ++ q0 :: group_rows ++ event_rows
    ∧ q_table q0 = "test_summary"
    ∧ Forall2 group_row (members_of (assoc "ByGroup" members)) group_rows
    ∧ Forall2 event_row
        (concat (events_of
                 <$> (members_of (assoc "RateLimitAnalysis" members)).*2))
        event_rows
    ∧ (accepting clickhouse
       → stored w' = stored w ++ q0 :: group_rows ++ event_rows).
Proof.
  intros Hsum Hread.
  by apply ingest_comprehensive_results_posted.
Qed.

Lemma C9_missing_fields_are_stored_as_zero_witness :
  let members :=
    [("Duration", JInt 5000000000);
     ("ByGroup",
      JObj [("premium",
             JObj [("RateLimitAnalysis", JObj [("EffectiveLimit", JInt 1000)])]);
            ("basic", JObj [("APIKey", JStr "test-basic-key")])]);
     ("RateLimitAnalysis",
      JObj [("premium", JObj []);
            ("basic",
             JObj [("ThrottleEvents",
                    JArr [JObj [("Timestamp", JStr "2025-01-01T00:00:00");
                                ("RemainingReqs", JInt 3)];
                          JObj [("Timestamp", JStr "2025-01-01T00:00:01")]])])])] in
  ∃ w',
    HyperDX.ingest_comprehensive_results (λ _ _, Accepted "") (λ _, "id")
      (λ ts, Some ts) (JObj [("summary", JObj members)])
      "2025-01-01 00:00:00" (World [] [] [])
    = (Ok true, w')
    ∧ q_table <$> stored w'
      = ["test_summary"; "test_results"; "test_results";
         "throttle_events"; "throttle_events"]
    ∧ (λ q, column "effective_limit" (q_row q)) <$> stored w'
      = [None; Some (Bare (JInt 1000)); Some (Bare (JInt 0)); None; None]
    ∧ (λ q, column "success_rate" (q_row q)) <$> stored w'
      = [None; Some (Bare (JFloat 0 0)); Some (Bare (JFloat 0 0)); None; None]
    ∧ (λ q, column "remaining_requests" (q_row q)) <$> stored w'
      = [None; None; None; Some (Bare (JInt 3)); Some (Bare (JInt 0))]
    ∧ (λ q, column "reset_in_seconds" (q_row q)) <$> stored w'
      = [None; None; None; Some (Bare (JInt 0)); Some (Bare (JInt 0))].
Proof.
  intros members.
  destruct (C9_missing_fields_are_stored_as_zero (λ _ _, Accepted "")
              (λ _, "id") (λ ts, Some ts) [("summary", JObj members)] members
              "2025-01-01 00:00:00" (World [] [] []))
    as (w' & q0 & group_rows & event_rows & Hrun & _).
  - reflexivity.
  - split; [by eexists|]. split.
    + intros g Hg. injection Hg as <-. eexists. split; [reflexivity|].
      repeat constructor; (eexists; split; [reflexivity|by eexists]).
    + intros a Ha. injection Ha as <-. eexists. split; [reflexivity|].
      constructor; [eexists; split; [reflexivity|by left]|].
      constructor; [|constructor].
      eexists. split; [reflexivity|]. right. eexists. split; [reflexivity|].
      repeat constructor; by do 3 eexists.
  - exists w'. split; [exact Hrun|].
    vm_compute in Hrun. injection Hrun as <-. repeat split; reflexivity.
Defined.

(** A whole export file, one group with a full analysis and one with
    none: every row goes in, the second with its limits at zero. *)
Example ingest_file_with_a_bare_group :
  let data :=
    JObj [("summary",
           JObj [("TotalTests", JInt 2); ("Duration", JInt 5000000000);
                 ("ByGroup",
                  JObj [("premium",
                         JObj [("APIKey", JStr "test-premium-key");
                               ("RequestsSent", JInt 100);
                               ("RateLimitAnalysis",
                                JObj [("EffectiveLimit", JInt 1000);
                                      ("ObservedBursts", JInt 2);
                                      ("SuccessRate", JFloat 985 (-1))])]);
                        ("basic", JObj [("APIKey", JStr "test-basic-key")])])])] in
  ∃ w, HyperDX.ingest_comprehensive_results (λ _ _, Accepted "") (λ _, "id")
         (λ ts, Some ts) data "2025-01-01 00:00:00" (World [] [] [])
       = (Ok true, w)
       ∧ q_table <$> stored w = ["test_summary"; "test_results"; "test_results"]
       ∧ (λ q, column "effective_limit" (q_row q)) <$> stored w
         = [None; Some (Bare (JInt 1000)); Some (Bare (JInt 0))]
       ∧ printed w = [Inserted_summary; Inserting_groups 2;
                      Inserted_group "premium"; Inserted_group "basic"].
Proof.
  eexists. split; [vm_compute; reflexivity|]. done.
Qed.

(** ** More about the window loop *)

(** The futures come back in the order the calls were submitted, whatever
    the times at which the calls return. *)
Lemma executor_order {R} (P : Z → Prop) idle (tasks : list (Z → R * Z)) :
  idle ≠ [] → Forall P idle →
  (∀ t s, t ∈ tasks → P s → P (t s).2) →
  Forall2 (λ t f, ∃ s, P s ∧ f = t s) tasks (executor idle tasks).1.
Proof.
  revert idle. induction tasks as [|t tasks IH]; intros idle Hne Hidle Hrun; simpl.
  { constructor. }
  destruct idle as [|w ws]; [done|].
  destruct (pick_idle_Forall P w ws Hidle) as [Hstart Hothers].
  destruct (pick_idle w ws) as [start others]; simpl in *.
  assert (P (t start).2) as Hdone by (apply Hrun; [left|done]).
  specialize (IH ((t start).2 :: others)).
  destruct (t start) as [r done_at] eqn:Ht; simpl in *.
  destruct (executor (done_at :: others) tasks) as [futures pool]; simpl in *.
  constructor.
  - exists start. by rewrite Ht.
  - apply IH; [done|by constructor|].
    intros t' s Ht'. apply Hrun. by right.
Qed.

Section OrderFacts.
Context {R : Type}.
Variable second : Z.
Variable max_workers : nat.
Variable task : nat → Z → R * Z.
Hypothesis workers : max_workers ≠ O.

(** The result at index [i] is the value of the [i]-th call submitted. *)
Lemma run_results_in_order rate duration t0 st i r :
  run_windows second max_workers task rate duration t0 = Some st →
  results st !! i = Some r → ∃ s, r = (task i s).1.
Proof.
  intros Hrun. revert i r. unfold run_windows in Hrun.
  apply (window_loop_invariant second max_workers task
           (λ s, issued s = length (results s)
                 ∧ ∀ i r, results s !! i = Some r → ∃ t, r = (task i t).1))
    in Hrun as [[_ H] _].
  - done.
  - simpl. split; [done|]. intros i r Hi. done.
  - clear Hrun st. intros s [Hiss Hord] _.
    destruct (window_step_unfold second max_workers task workers rate s)
      as (futures & pool & Hex & Hf & _ & ->). simpl.
    split; [rewrite length_app, length_fmap; lia|].
    intros i r Hi.
    destruct (decide (i < length (results s))%nat) as [Hold|Hnew].
    { rewrite lookup_app_l in Hi by done. by apply Hord. }
    rewrite lookup_app_r in Hi by lia.
    rewrite list_lookup_fmap in Hi.
    destruct (futures !! (i - length (results s))%nat) as [f|] eqn:Hfi; [|done].
    injection Hi as <-.
    pose proof (executor_order (λ _, True) (replicate max_workers (now s))
                  (task <$> seq (issued s) (Z.to_nat rate))) as Hall.
    rewrite Hex in Hall. simpl in Hall.
    destruct (Forall2_lookup_r _ _ _ _ _
                (Hall ltac:(by destruct max_workers)
                      ltac:(by apply Forall_replicate) ltac:(done)) Hfi)
      as (t & Ht & start & _ & ->).
    rewrite list_lookup_fmap in Ht.
    destruct (seq (issued s) (Z.to_nat rate) !! (i - length (results s))%nat)
      as [n|] eqn:Hn; [|done].
    injection Ht as <-. apply lookup_seq in Hn as [-> _].
    exists start. do 2 f_equal. lia.
Qed.
End OrderFacts.

Section BoundFacts.
Context {R : Type}.
Variable second : Z.
Variable max_workers : nat.
Variable task : nat → Z → R * Z.
Hypothesis workers : max_workers ≠ O.
Hypothesis second_pos : 0 < second.

(** A run of positive duration makes at least one iteration and at most
    one per second begun, however long the calls take. *)
Lemma run_windows_bounds rate duration t0 :
  0 < duration →
  ∃ st (k : nat),
    run_windows second max_workers task rate duration t0 = Some st
    ∧ length (results st) = (k * Z.to_nat rate)%nat
    ∧ length (log st) = k
    ∧ (1 ≤ k)%nat
    ∧ (Z.of_nat k - 1) * second < duration
    ∧ t0 + Z.of_nat k * second ≤ now st
    ∧ duration ≤ now st - t0.
Proof.
  intros Hd.
  destruct (run_windows_terminates second max_workers task workers
              rate duration t0 second_pos) as [st Hrun].
  exists st, (length (log st)). split; [done|].
  unfold run_windows in Hrun.
  apply (window_loop_invariant second max_workers task
           (λ s, t0 + Z.of_nat (length (log s)) * second ≤ now s
                 ∧ length (results s) = (length (log s) * Z.to_nat rate)%nat
                 ∧ (length (log s) = O → now s = t0)
                 ∧ (Z.of_nat (length (log s)) - 1) * second < duration))
    in Hrun as [(H1 & H2 & H3 & H4) H5].
  - repeat split; try done.
    destruct (length (log st)); [|lia]. specialize (H3 eq_refl). lia.
  - simpl. repeat split; lia.
  - clear Hrun st. intros s (H1 & H2 & H3 & H4) Hlt.
    destruct (window_step_unfold second max_workers task workers rate s)
      as (futures & pool & _ & Hf & _ & ->). simpl.
    pose proof (foldl_max_ge (now s) futures.*2) as Hge.
    rewrite !length_app, length_fmap, Hf. simpl.
    repeat split; lia.
Qed.
End BoundFacts.

(** ** Runs against an arbitrary gateway *)

Lemma filter_length_pointwise {A} (P : A → Prop) (Q : nat → Prop)
    `{∀ x, Decision (P x)} `{∀ i, Decision (Q i)} (l : list A) (offset : nat) :
  (∀ i x, l !! i = Some x → (P x ↔ Q (offset + i)%nat)) →
  length (filter P l) = length (filter Q (seq offset (length l))).
Proof.
  revert offset. induction l as [|x l IH]; intros offset Hpq; [done|].
  simpl length. simpl seq. rewrite !filter_cons.
  assert (P x ↔ Q offset) as Hx.
  { rewrite (Hpq O x eq_refl). by rewrite Nat.add_0_r. }
  assert (length (filter P l) = length (filter Q (seq (S offset) (length l))))
    as Hrest.
  { apply IH. intros i y Hi. rewrite (Hpq (S i) y Hi).
    by replace (offset + S i)%nat with (S offset + i)%nat by lia. }
  destruct (decide (P x)), (decide (Q offset)); simpl; try tauto; by rewrite Hrest.
Qed.

Lemma Advanced_task_answer utcnow (gw : gateway) base_url auth_method api_key n s :
  let ex := gw n (Advanced.build_request utcnow base_url auth_method api_key
                    "GET" "/test-bucket/test-object") in
  let r := (Advanced.task utcnow gw base_url auth_method api_key n s).1 in
  Advanced.get_status_code r = answer_status ex
  ∧ Advanced.has_error r = bool_decide (answer_status ex = None)
  ∧ Advanced.get_rate_info r = answer_rate_info ex
  ∧ Advanced.timestamp_of r = s + ex_latency ex.
Proof.
  unfold Advanced.task, Advanced.test_request, answer_status, answer_rate_info.
  simpl. by destruct (ex_reply _).
Qed.

Lemma sustained_results_follow_gateway second utcnow (gw : gateway) base_url
    api_key auth_method duration rate t0 st i r :
  Advanced.sustained_engine second utcnow gw base_url api_key auth_method
    duration rate t0 = Some st →
  results st !! i = Some r →
  let ex := gw i (Advanced.build_request utcnow base_url auth_method api_key
                    "GET" "/test-bucket/test-object") in
  Advanced.get_status_code r = answer_status ex
  ∧ Advanced.has_error r = bool_decide (answer_status ex = None)
  ∧ Advanced.get_rate_info r = answer_rate_info ex.
Proof.
  intros Hrun Hi.
  destruct (run_results_in_order second 10
              (Advanced.task utcnow gw base_url auth_method api_key)
              ltac:(done) rate duration t0 st i r Hrun Hi) as [s ->].
  destruct (Advanced_task_answer utcnow gw base_url auth_method api_key i s)
    as (? & ? & ? & _).
  done.
Qed.

(** X1.  Whatever the gateway does, a run at a positive rate for a
    positive duration issues at least one batch and never more than one
    batch per second begun: the total is a multiple of [rate], at least
    [rate] and less than [rate * (duration + 1s)]. *)
Theorem X1_total_is_bounded_by_the_rate second (gw : gateway) utcnow base_url
    (key : option string) api_key method auth_method rate duration t0 :
  0 < second → 0 < rate → 0 < duration →
  (∃ rs, LoadTest.run_load_test second gw base_url key method
           rate duration t0 = Some rs
         ∧ rate ≤ Z.of_nat (length rs)
         ∧ Z.of_nat (length rs) * second < rate * (duration + second)
         ∧ Z.of_nat (length rs) mod rate = 0)
  ∧ (∃ s, Advanced.run_sustained_test second utcnow gw base_url api_key
            auth_method duration rate t0 = Some s
          ∧ rate ≤ Z.of_nat (Advanced.total_requests s)
          ∧ Z.of_nat (Advanced.total_requests s) * second
            < rate * (duration + second)
          ∧ Z.of_nat (Advanced.total_requests s) mod rate = 0).
Proof.
  intros Hsec Hrate Hdur.
  assert (∀ k : nat, (1 ≤ k)%nat → (Z.of_nat k - 1) * second < duration →
            rate ≤ Z.of_nat (k * Z.to_nat rate)
            ∧ Z.of_nat (k * Z.to_nat rate) * second < rate * (duration + second)
            ∧ Z.of_nat (k * Z.to_nat rate) mod rate = 0) as Harith.
  { intros k Hk1 Hk. rewrite Nat2Z.inj_mul, Z2Nat.id by lia.
    split; [nia|]. split; [nia|]. apply Z.mod_mul. lia. }
  split.
  - destruct (run_windows_bounds second 20 (LoadTest.task gw base_url key method)
                ltac:(done) Hsec rate duration t0 Hdur)
      as (st & k & Hrun & Hlen & _ & Hk1 & Hk & _).
    exists (results st). unfold LoadTest.run_load_test, LoadTest.load_engine.
    rewrite Hrun. split; [done|]. rewrite Hlen. by apply Harith.
  - destruct (run_windows_bounds second 10
                (Advanced.task utcnow gw base_url auth_method api_key)
                ltac:(done) Hsec rate duration t0 Hdur)
      as (st & k & Hrun & Hlen & _ & Hk1 & Hk & _).
    exists (Advanced.summarize (results st)).
    unfold Advanced.run_sustained_test, Advanced.sustained_engine.
    rewrite Hrun. split; [done|]. simpl. rewrite Hlen. by apply Harith.
Qed.

Lemma X1_total_is_bounded_by_the_rate_witness :
  let gw : gateway := λ n _, Exchange (Responded 200 []) (Z.of_nat n * 700) in
  ∃ rs, LoadTest.run_load_test 1000 gw "http://localhost" (Some "test-key")
          "GET" 3 2000 0 = Some rs
        ∧ 3 ≤ Z.of_nat (length rs)
        ∧ Z.of_nat (length rs) * 1000 < 3 * (2000 + 1000)
        ∧ Z.of_nat (length rs) mod 3 = 0.
Proof.
  intros gw.
  apply (X1_total_is_bounded_by_the_rate 1000 gw (λ _, "") "http://localhost"
           (Some "test-key") "test-key" "GET" "v4" 3 2000 0); lia.
Defined.

(** X2.  The results of a sustained run are in the order the requests
    were submitted, not in the order they completed: the result at index
    [i] carries the status and the telemetry of the gateway's answer to
    the [i]-th request, whatever the latencies. *)
Theorem X2_results_are_in_submission_order second utcnow (gw : gateway)
    base_url api_key auth_method duration rate t0 :
  0 < second →
  ∃ s, Advanced.run_sustained_test second utcnow gw base_url api_key
         auth_method duration rate t0 = Some s
       ∧ ∀ i r, Advanced.all_results s !! i = Some r →
           let ex := gw i (Advanced.build_request utcnow base_url auth_method
                             api_key "GET" "/test-bucket/test-object") in
           Advanced.get_status_code r = answer_status ex
           ∧ Advanced.has_error r = bool_decide (answer_status ex = None)
           ∧ Advanced.get_rate_info r = answer_rate_info ex.
Proof.
  intros Hsec.
  destruct (run_windows_terminates second 10
              (Advanced.task utcnow gw base_url auth_method api_key)
              ltac:(done) rate duration t0 Hsec) as [st Hrun].
  exists (Advanced.summarize (results st)).
  unfold Advanced.run_sustained_test, Advanced.sustained_engine.
  rewrite Hrun. split; [done|]. simpl. intros i r Hi.
  by eapply sustained_results_follow_gateway.
Qed.

Lemma X2_results_are_in_submission_order_witness :
  let gw : gateway :=
    λ n _, Exchange (Responded (if decide (n = O) then 429 else 200) [])
             (if decide (n = O) then 3 else 1) in
  ∃ s, Advanced.run_sustained_test 10 (λ _, "") gw "http://localhost"
         "test-key" "v4" 10 2 0 = Some s
       ∧ ∀ i r, Advanced.all_results s !! i = Some r →
           let ex := gw i (Advanced.build_request (λ _, "") "http://localhost"
                             "v4" "test-key" "GET" "/test-bucket/test-object") in
           Advanced.get_status_code r = answer_status ex
           ∧ Advanced.has_error r = bool_decide (answer_status ex = None)
           ∧ Advanced.get_rate_info r = answer_rate_info ex.
Proof.
  intros gw.
  apply (X2_results_are_in_submission_order 10 (λ _, "") gw "http://localhost"
           "test-key" "v4" 10 2 0).
  lia.
Defined.

(** X3.  Each bucket of a sustained run counts exactly the answers of its
    kind among the requests issued: the successes are the requests the
    gateway answered with 200, the rate-limited ones those it answered
    with 429, the errors those where the call raised. *)
Theorem X3_buckets_count_the_answers second utcnow (gw : gateway)
    base_url api_key auth_method duration rate t0 :
  0 < second →
  ∃ s, Advanced.run_sustained_test second utcnow gw base_url api_key
         auth_method duration rate t0 = Some s
       ∧ let answer i :=
           answer_status
             (gw i (Advanced.build_request utcnow base_url auth_method
                      api_key "GET" "/test-bucket/test-object")) in
         let issued := seq 0 (Advanced.total_requests s) in
         Advanced.success_count s
         = length (filter (λ i, answer i = Some 200) issued)
         ∧ Advanced.rate_limited_count s
           = length (filter (λ i, answer i = Some 429) issued)
         ∧ Advanced.error_count s
           = length (filter (λ i, answer i = None) issued).
Proof.
  intros Hsec.
  destruct (run_windows_terminates second 10
              (Advanced.task utcnow gw base_url auth_method api_key)
              ltac:(done) rate duration t0 Hsec) as [st Hrun].
  exists (Advanced.summarize (results st)).
  unfold Advanced.run_sustained_test, Advanced.sustained_engine.
  rewrite Hrun. split; [done|]. simpl.
  repeat split; apply filter_length_pointwise; intros i r Hi; simpl;
    destruct (sustained_results_follow_gateway second utcnow gw base_url
                api_key auth_method duration rate t0 st i r Hrun Hi)
      as (Hst & Herr & _).
  - by rewrite Hst.
  - by rewrite Hst.
  - rewrite Herr. by rewrite bool_decide_eq_true.
Qed.

Lemma X3_buckets_count_the_answers_witness :
  let gw : gateway := λ _ _, Exchange (Raised "connection refused") 0 in
  ∃ s, Advanced.run_sustained_test 1000 (λ _, "") gw "http://localhost"
         "test-key" "v4" 2000 5 0 = Some s
       ∧ Advanced.error_count s
         = length (filter (λ i : nat, (None : option Z) = None)
                     (seq 0 (Advanced.total_requests s))).
Proof.
  intros gw.
  destruct (X3_buckets_count_the_answers 1000 (λ _, "") gw "http://localhost"
              "test-key" "v4" 2000 5 0 ltac:(lia)) as (s & Hrun & _ & _ & Herr).
  exists s. split; [exact Hrun|]. exact Herr.
Defined.

(** ** The advanced script, beyond the loop *)

From Stdlib Require Import Sorted.

Lemma extract_rate_info_fold (hs : headers) (acc : gmap string string) h v :
  NoDup hs.*1 →
  foldl (λ rate_info hv,
           if Advanced.is_rate_header hv.1 then <[hv.1 := hv.2]> rate_info
           else rate_info) acc hs !! h = Some v ↔
  ((h, v) ∈ hs ∧ Advanced.is_rate_header h = true)
  ∨ (((h ∉ hs.*1) ∨ Advanced.is_rate_header h = false) ∧ acc !! h = Some v).
Proof.
  revert acc. induction hs as [|[h0 v0] hs IH]; intros acc Hnd; simpl.
  { split.
    - intros Hacc. right. split; [left; apply not_elem_of_nil|done].
    - intros [[Hin _]|[_ Hacc]]; [by apply elem_of_nil in Hin|done]. }
  apply NoDup_cons in Hnd as [Hfresh Hnd]. simpl in Hfresh.
  rewrite IH by done. clear IH.
  split.
  - intros [[Hin Hrate]|[Hout Hacc]].
    { left. split; [by right|done]. }
    destruct (decide (h0 = h)) as [->|Hne].
    + destruct (Advanced.is_rate_header h) eqn:Hr.
      * rewrite lookup_insert_eq in Hacc. injection Hacc as ->.
        left. split; [by left|done].
      * right. split; [by right|done].
    + right. split.
      * destruct Hout as [Hout|Hout]; [left|by right].
        rewrite not_elem_of_cons. by split.
      * destruct (Advanced.is_rate_header h0); [|done].
        by rewrite lookup_insert_ne in Hacc.
  - intros [[Hin Hrate]|[Hout Hacc]].
    + apply elem_of_cons in Hin as [[= -> ->]|Hin].
      * right. split; [by left|]. rewrite Hrate. apply lookup_insert_eq.
      * left. done.
    + right. split.
      * destruct Hout as [Hout|Hout]; [left|by right].
        apply not_elem_of_cons in Hout. tauto.
      * destruct (Advanced.is_rate_header h0) eqn:Hr0; [|done].
        rewrite lookup_insert_ne; [done|]. intros ->.
        destruct Hout as [Hout|Hout]; [|congruence].
        apply Hout. left.
Qed.

(** X4.  From a response whose header names differ beyond their case
    (what [requests] guarantees), [test_request] extracts exactly the
    headers whose lower-cased name contains "rate", "api-key" or "auth":
    each under the spelling and with the value the response had, and
    nothing else. *)
Theorem X4_rate_info_is_the_matching_headers (hs : headers) h v :
  headers_wf hs →
  Advanced.extract_rate_info hs !! h = Some v ↔
  (h, v) ∈ hs ∧ Advanced.is_rate_header h = true.
Proof.
  intros Hwf. unfold Advanced.extract_rate_info.
  rewrite extract_rate_info_fold.
  - rewrite lookup_empty. split; [by intros [H|[_ H]]|by left].
  - unfold headers_wf in Hwf. by apply NoDup_fmap_1 in Hwf.
Qed.

Lemma X4_rate_info_is_the_matching_headers_witness :
  Advanced.extract_rate_info
    [("Content-Type", "text/xml"); ("x-ratelimit-group", "premium");
     ("X-Auth-Method", "v4")] !! "x-ratelimit-group" = Some "premium".
Proof.
  apply (X4_rate_info_is_the_matching_headers
           [("Content-Type", "text/xml"); ("x-ratelimit-group", "premium");
            ("X-Auth-Method", "v4")]).
  - unfold headers_wf. apply (bool_decide_unpack _). by vm_compute.
  - split; [|reflexivity]. apply list_elem_of_further, list_elem_of_here.
Defined.

Lemma response_times_count rs :
  (length (omap Advanced.get_response_time rs)
   + length (filter (λ r, Advanced.has_error r = true) rs))%nat = length rs.
Proof.
  induction rs as [|r rs IH]; [done|].
  rewrite filter_cons. destruct r; simpl;
    [f_equal; exact IH|rewrite Nat.add_succ_r; f_equal; exact IH].
Qed.

(** X5.  The summary accounts for every result: the three buckets and the
    answers with a status other than 200 and 429 add up to the total, and
    the average response time is taken over exactly the results that are
    not errors. *)
Theorem X5_summary_accounts_for_every_result rs :
  let s := Advanced.summarize rs in
  (Advanced.success_count s + Advanced.rate_limited_count s
   + Advanced.error_count s
   + length (filter (λ r, Advanced.has_error r = false
                          ∧ Advanced.get_status_code r ≠ Some 200%Z
                          ∧ Advanced.get_status_code r ≠ Some 429%Z)
               (Advanced.all_results s)))%nat
  = Advanced.total_requests s
  ∧ ((Advanced.avg_response_time s).2 + Advanced.error_count s)%nat
    = Advanced.total_requests s.
Proof.
  split.
  - apply Advanced_buckets_and_rest.
  - simpl. apply response_times_count.
Qed.

(** X6.  For each of the five schemes the credentials go either into the
    headers or into the query, never both: v4, v2 and custom add header
    fields and leave the query empty, presigned and query_v2 fill the
    query and send the User-Agent header alone.  The User-Agent header is
    kept in every case, and custom and query_v2 carry the key itself. *)
Theorem X6_credentials_go_to_headers_or_query utcnow auth_method api_key
    method path :
  auth_method ∈ Advanced.auth_methods →
  let hp := Advanced.auth_material utcnow auth_method api_key method path in
  hp.1 !! "User-Agent" = Some "test-client/2.0"
  ∧ ((auth_method ∈ ["v4"; "v2"; "custom"]
      ∧ hp.2 = ∅
      ∧ (is_Some (hp.1 !! "Authorization") ∨ hp.1 !! "X-API-Key" = Some api_key))
     ∨ (auth_method ∈ ["presigned"; "query_v2"]
        ∧ hp.1 = {[ "User-Agent" := "test-client/2.0" ]}
        ∧ (is_Some (hp.2 !! "X-Amz-Credential")
           ∨ hp.2 !! "AWSAccessKeyId" = Some api_key))).
Proof.
  intros Hin. unfold Advanced.auth_methods in Hin.
  repeat (apply elem_of_cons in Hin as [->|Hin]); [..|by apply elem_of_nil in Hin].
  - split; [done|]. left. split; [apply list_elem_of_here|].
    split; [done|]. left. by eexists.
  - split; [done|]. left.
    split; [apply list_elem_of_further, list_elem_of_here|].
    split; [done|]. left. by eexists.
  - split; [done|]. right. split; [apply list_elem_of_here|].
    split; [done|]. left. by eexists.
  - split; [done|]. right.
    split; [apply list_elem_of_further, list_elem_of_here|].
    split; [done|]. by right.
  - split; [done|]. left.
    split; [do 2 apply list_elem_of_further; apply list_elem_of_here|].
    split; [done|]. by right.
Qed.

Lemma X6_credentials_go_to_headers_or_query_witness :
  (Advanced.auth_material (λ _, "20250101") "query_v2" "test-key" "GET"
     "/test-bucket/test-object").1 !! "User-Agent" = Some "test-client/2.0".
Proof.
  apply (X6_credentials_go_to_headers_or_query (λ _, "20250101") "query_v2"
           "test-key" "GET" "/test-bucket/test-object").
  do 3 apply list_elem_of_further. apply list_elem_of_here.
Defined.

Lemma Advanced_test_request_fields utcnow gw base_url auth_method api_key
    method path s :
  let rd := Advanced.test_request utcnow gw base_url auth_method api_key
              method path s in
  auth_method_of rd.1 = auth_method ∧ api_key_of rd.1 = api_key
  ∧ Advanced.timestamp_of rd.1 = rd.2
  ∧ rd.2 = s + ex_latency (gw (Advanced.build_request utcnow base_url
                                 auth_method api_key method path)).
Proof.
  unfold Advanced.test_request. simpl. by destruct (ex_reply _).
Qed.

Lemma sequential_fields {A B} (f : nat → A → Z → Advanced.result * Z)
    (g : Advanced.result → B) (h : A → B) (l : list A) t :
  (∀ n a s, g (f n a s).1 = h a) →
  g <$> Advanced.sequential (imap f l) t = h <$> l.
Proof.
  intros Hg. revert f t Hg. induction l as [|a l IH]; intros f t Hg; [done|].
  rewrite imap_cons. simpl.
  pose proof (Hg O a t) as Ha.
  destruct (f O a t) as [r done_at]. simpl in *.
  rewrite Ha. f_equal. apply IH. intros n a' s. apply Hg.
Qed.

Lemma sequential_sorted (calls : list (Z → Advanced.result * Z)) t :
  Forall (λ call, ∀ s, s ≤ (call s).2
                       ∧ Advanced.timestamp_of (call s).1 = (call s).2) calls →
  Forall (Z.le t) (Advanced.timestamp_of <$> Advanced.sequential calls t)
  ∧ StronglySorted Z.le (Advanced.timestamp_of <$> Advanced.sequential calls t).
Proof.
  intros Hcalls. revert t.
  induction Hcalls as [|call calls Hcall _ IH]; intros t; simpl.
  { split; constructor. }
  destruct (Hcall t) as [Hle Hstamp].
  destruct (call t) as [r done_at]. simpl in *.
  destruct (IH done_at) as [Hafter Hsorted].
  split.
  - constructor; [lia|]. eapply Forall_impl; [exact Hafter|]. simpl. lia.
  - constructor; [done|]. by rewrite Hstamp.
Qed.

(** X7.  [test_auth_methods] and [show_rate_limit_status] make their
    requests one after the other: one result per scheme, in the order v4,
    v2, presigned, query_v2, custom (one per key, in the order of the
    keys), and with latencies that are not negative the timestamps of
    the results are in non-decreasing order. *)
Theorem X7_one_result_per_scheme_in_order utcnow (gws : nat → gateway)
    base_url api_key (api_keys : list string) t :
  (∀ n req, 0 ≤ ex_latency (gws O n req)) →
  let by_scheme := Advanced.test_auth_methods utcnow gws base_url api_key t in
  let by_key := Advanced.show_rate_limit_status utcnow gws base_url api_keys t in
  auth_method_of <$> by_scheme = Advanced.auth_methods
  ∧ Forall (λ r, api_key_of r = api_key) by_scheme
  ∧ StronglySorted Z.le (Advanced.timestamp_of <$> by_scheme)
  ∧ api_key_of <$> by_key = api_keys
  ∧ Forall (λ r, auth_method_of r = "v4") by_key
  ∧ StronglySorted Z.le (Advanced.timestamp_of <$> by_key).
Proof.
  intros Hlat by_scheme by_key. unfold by_scheme, by_key.
  unfold Advanced.test_auth_methods, Advanced.show_rate_limit_status.
  assert (∀ (l : list string) (f : nat → string → Z → Advanced.result * Z),
            (∀ n a s, s ≤ (f n a s).2
                      ∧ Advanced.timestamp_of (f n a s).1 = (f n a s).2) →
            StronglySorted Z.le
              (Advanced.timestamp_of <$> Advanced.sequential (imap f l) t))
    as Hsorted.
  { intros l f Hf. apply sequential_sorted.
    apply Forall_forall. intros call Hcall.
    apply list_elem_of_lookup in Hcall as [i Hi].
    rewrite list_lookup_imap in Hi.
    destruct (l !! i) as [a|]; [|done]. injection Hi as <-. apply Hf. }
  assert (∀ (l : list string) (f : nat → string → Z → Advanced.result * Z)
            (P : Advanced.result → Prop),
            (∀ n a s, P (f n a s).1) →
            Forall P (Advanced.sequential (imap f l) t)) as Hall.
  { intros l f P HP. apply Forall_fmap with (f := id) (P := P).
    rewrite list_fmap_id. clear -HP. revert f t HP.
    induction l as [|a l IH]; intros f t HP; [constructor|].
    rewrite imap_cons. simpl. pose proof (HP O a t) as Ha.
    destruct (f O a t) as [r done_at]. constructor; [done|].
    apply IH. intros n a' s. apply HP. }
  repeat split.
  - rewrite (sequential_fields _ auth_method_of id); [by rewrite list_fmap_id|].
    intros n a s. apply Advanced_test_request_fields.
  - apply Hall. intros n a s. apply Advanced_test_request_fields.
  - apply Hsorted. intros n a s.
    destruct (Advanced_test_request_fields utcnow (gws O n) base_url a api_key
                "GET" "/test-bucket/test-object" s) as (_ & _ & Hst & Hd).
    split; [|done]. rewrite Hd. specialize (Hlat n). 
    pose proof (Hlat (Advanced.build_request utcnow base_url a api_key "GET"
                        "/test-bucket/test-object")). lia.
  - rewrite (sequential_fields _ api_key_of id); [by rewrite list_fmap_id|].
    intros n a s. apply Advanced_test_request_fields.
  - apply Hall. intros n a s. apply Advanced_test_request_fields.
  - apply Hsorted. intros n a s.
    destruct (Advanced_test_request_fields utcnow (gws O n) base_url "v4" a
                "GET" "/test-bucket/test-object" s) as (_ & _ & Hst & Hd).
    split; [|done]. rewrite Hd. specialize (Hlat n).
    pose proof (Hlat (Advanced.build_request utcnow base_url "v4" a "GET"
                        "/test-bucket/test-object")). lia.
Qed.

Lemma X7_one_result_per_scheme_in_order_witness :
  let gws : nat → gateway :=
    λ _ n _, Exchange (Responded 200 []) (Z.of_nat n + 1) in
  Advanced.timestamp_of <$>
    Advanced.test_auth_methods (λ _, "") gws "http://localhost" "test-key" 0
  = [1; 3; 6; 10; 15]
  ∧ StronglySorted Z.le
      (Advanced.timestamp_of <$>
         Advanced.test_auth_methods (λ _, "") gws "http://localhost"
           "test-key" 0).
Proof.
  intros gws. split; [by vm_compute|].
  apply (X7_one_result_per_scheme_in_order (λ _, "") gws "http://localhost"
           "test-key" [] 0).
  intros n req. unfold gws. simpl. lia.
Defined.

Lemma run_windows_no_duration {R} second max_workers (task : nat → Z → R * Z)
    rate duration t0 :
  duration ≤ 0 →
  run_windows second max_workers task rate duration t0
  = Some (Engine t0 [] O []).
Proof.
  intros Hd. unfold run_windows.
  destruct (windows_bound second duration); simpl;
    by destruct (Z.ltb_spec (t0 - t0) duration); [lia|].
Qed.

(** X9.  For a valid command line with [--test-type sustained], the
    report ends in the division by a total of zero exactly when the rate
    or the duration is not positive; otherwise [main] ends with the
    summary of the run. *)
Theorem X9_sustained_report_divides_by_zero_iff second utcnow
    (gws : nat → gateway) a t0 :
  0 < second →
  Advanced.parse_args a = Some a → Advanced.test_type a = "sustained" →
  (Advanced.main second utcnow gws a t0 = Some Advanced.Zero_division
   ↔ Advanced.rate a ≤ 0 ∨ Advanced.arg_duration a ≤ 0)
  ∧ (0 < Advanced.rate a → 0 < Advanced.arg_duration a →
     ∃ s, Advanced.main second utcnow gws a t0 = Some (Advanced.Sustained s)
          ∧ Advanced.run_sustained_test second utcnow (gws O) (Advanced.url a)
              (Advanced.arg_api_key a) (Advanced.arg_auth_method a)
              (Advanced.arg_duration a * second) (Advanced.rate a) t0
            = Some s).
Proof.
  intros Hsec Hparse Htype.
  assert (0 < Advanced.rate a → 0 < Advanced.arg_duration a →
          ∃ s, Advanced.main second utcnow gws a t0 = Some (Advanced.Sustained s)
               ∧ Advanced.run_sustained_test second utcnow (gws O)
                   (Advanced.url a) (Advanced.arg_api_key a)
                   (Advanced.arg_auth_method a)
                   (Advanced.arg_duration a * second) (Advanced.rate a) t0
                 = Some s) as Hpos.
  { intros Hrate Hdur. unfold Advanced.main. rewrite Hparse, Htype.
    repeat (rewrite decide_False by done). rewrite decide_True by done.
    destruct (run_windows_bounds second 10
                (Advanced.task utcnow (gws O) (Advanced.url a)
                   (Advanced.arg_auth_method a) (Advanced.arg_api_key a))
                ltac:(done) Hsec (Advanced.rate a)
                (Advanced.arg_duration a * second) t0 ltac:(nia))
      as (st & k & Hrun & Hlen & _ & Hk1 & _).
    unfold Advanced.run_sustained_test, Advanced.sustained_engine.
    rewrite Hrun. simpl. exists (Advanced.summarize (results st)).
    split; [|done]. rewrite decide_False; [done|]. rewrite Hlen. nia. }
  split; [|done]. split.
  - intros Hmain.
    destruct (Z.le_gt_cases (Advanced.rate a) 0) as [?|Hrate]; [by left|].
    destruct (Z.le_gt_cases (Advanced.arg_duration a) 0) as [?|Hdur]; [by right|].
    destruct (Hpos ltac:(lia) ltac:(lia)) as (s & Hs & _). congruence.
  - intros Hzero.
    destruct (Z.le_gt_cases (Advanced.arg_duration a) 0) as [Hdur|Hdur].
    + unfold Advanced.main. rewrite Hparse, Htype.
      repeat (rewrite decide_False by done). rewrite decide_True by done.
      unfold Advanced.run_sustained_test, Advanced.sustained_engine.
      rewrite run_windows_no_duration by nia. done.
    + destruct Hzero as [Hrate|?]; [|lia].
      by apply Advanced_zero_rate_divides_by_zero.
Qed.

Lemma X9_sustained_report_divides_by_zero_iff_witness :
  let a := Advanced.Args "http://localhost" "sustained" "test-premium-key"
             "v4" 0 60 "GET" in
  Advanced.main 1000 (λ _, "") (λ _ _ _, Exchange (Responded 200 []) 0) a 0
  = Some Advanced.Zero_division.
Proof.
  intros a.
  apply (X9_sustained_report_divides_by_zero_iff 1000 (λ _, "")
           (λ _ _ _, Exchange (Responded 200 []) 0) a 0);
    [lia|reflexivity|reflexivity|].
  left. simpl. lia.
Defined.

(** ** A batch that fits into the pool *)

(** While there are at least as many workers idle since [b] as calls
    left, every call is started at [b]. *)
Lemma executor_no_wait {R} b idle (tasks : list (Z → R * Z)) :
  Forall (Z.le b) idle →
  (length tasks ≤ length (filter (λ x, x = b) idle))%nat →
  (∀ t s, t ∈ tasks → s ≤ (t s).2) →
  Forall2 (λ t f, f = t b) tasks (executor idle tasks).1.
Proof.
  revert idle. induction tasks as [|t tasks IH]; intros idle Hge Hcount Hrun; simpl.
  { constructor. }
  destruct idle as [|w ws]; [simpl in Hcount; lia|].
  pose proof (pick_idle_perm w ws) as Hperm.
  pose proof (pick_idle_min w ws) as Hmin.
  destruct (pick_idle_Forall (Z.le b) w ws Hge) as [Hstart Hothers].
  destruct (pick_idle w ws) as [start others]; simpl in *.
  assert (start = b) as ->.
  { destruct (filter (λ x, x = b) (w :: ws)) as [|x l] eqn:Hf;
      [simpl in Hcount; lia|].
    assert (x ∈ filter (λ x, x = b) (w :: ws)) as Hx by (rewrite Hf; left).
    apply list_elem_of_filter in Hx as [-> Hin].
    rewrite Forall_forall in Hmin. specialize (Hmin _ Hin). simpl in Hmin. lia. }
  assert (length (filter (λ x, x = b) (w :: ws))
          = S (length (filter (λ x, x = b) others))) as Hcount'.
  { rewrite <- Hperm. rewrite filter_cons_True by done. done. }
  pose proof (Hrun t b ltac:(left)) as Hdone.
  specialize (IH ((t b).2 :: others)).
  destruct (t b) as [r done_at] eqn:Ht; simpl in *.
  destruct (executor (done_at :: others) tasks) as [futures pool]; simpl in *.
  constructor; [done|].
  apply IH.
  - by constructor.
  - rewrite filter_cons. case_decide; simpl; lia.
  - intros t' s Ht'. apply Hrun. by right.
Qed.

Section CapacityFacts.
Context {R : Type}.
Variable second : Z.
Variable max_workers : nat.
Variable task : nat → Z → R * Z.
Variable rate : Z.
Hypothesis workers : max_workers ≠ O.
Hypothesis fits : (Z.to_nat rate ≤ max_workers)%nat.
Hypothesis causal : ∀ n s, s ≤ (task n s).2.

(** The result at index [i] is the value of the [i]-th call, started at
    the start of its batch. *)
Lemma run_within_capacity duration t0 st i r :
  run_windows second max_workers task rate duration t0 = Some st →
  results st !! i = Some r →
  ∃ w, log st !! (i / Z.to_nat rate)%nat = Some w
       ∧ r = (task i (w_start w)).1.
Proof.
  intros Hrun. revert i r. unfold run_windows in Hrun.
  apply (window_loop_invariant second max_workers task
           (λ s, issued s = length (results s)
                 ∧ length (results s) = (length (log s) * Z.to_nat rate)%nat
                 ∧ ∀ i r, results s !! i = Some r →
                     ∃ w, log s !! (i / Z.to_nat rate)%nat = Some w
                          ∧ r = (task i (w_start w)).1))
    in Hrun as [(_ & _ & H) _].
  - done.
  - simpl. repeat split; done.
  - clear Hrun st. intros s (Hiss & Hlen & Hord) _.
    destruct (window_step_unfold second max_workers task workers rate s)
      as (futures & pool & Hex & Hf & _ & ->). simpl.
    split; [rewrite length_app, length_fmap; lia|].
    split; [rewrite !length_app, length_fmap; simpl; lia|].
    intros i r Hi.
    destruct (decide (i < length (results s))%nat) as [Hold|Hnew].
    { rewrite lookup_app_l in Hi by done.
      destruct (Hord i r Hi) as (w & Hw & Hr).
      exists w. split; [|done]. by apply lookup_app_l_Some. }
    rewrite lookup_app_r in Hi by lia.
    rewrite list_lookup_fmap in Hi.
    destruct (futures !! (i - length (results s))%nat) as [f|] eqn:Hfi; [|done].
    injection Hi as <-.
    assert (i < length (results s) + Z.to_nat rate)%nat as Hi.
    { apply lookup_lt_Some in Hfi. lia. }
    assert (Z.to_nat rate ≠ O) as Hn by lia.
    assert (i / Z.to_nat rate = length (log s))%nat as ->.
    { apply Nat.le_antisymm.
      - apply Nat.lt_succ_r, Nat.Div0.div_lt_upper_bound. lia.
      - apply Nat.div_le_lower_bound; [done|]. lia. }
    eexists. split.
    { rewrite lookup_app_r by done. by rewrite Nat.sub_diag. }
    simpl.
    pose proof (executor_no_wait (now s) (replicate max_workers (now s))
                  (task <$> seq (issued s) (Z.to_nat rate))) as Hall.
    rewrite Hex in Hall. simpl in Hall.
    assert (Forall2 (λ t f, f = t (now s))
              (task <$> seq (issued s) (Z.to_nat rate)) futures) as Hstart.
    { apply Hall.
      - apply Forall_replicate. lia.
      - rewrite length_fmap, length_seq.
        assert (filter (λ x, x = now s) (replicate max_workers (now s))
                = replicate max_workers (now s)) as ->.
        { clear. induction max_workers as [|n IH]; [done|]. simpl.
          rewrite filter_cons_True by done. by rewrite IH. }
        by rewrite length_replicate.
      - intros t start (n & -> & _)%list_elem_of_fmap. apply causal. }
    destruct (Forall2_lookup_r _ _ _ _ _ Hstart Hfi) as (t & Ht & ->).
    rewrite list_lookup_fmap in Ht.
    destruct (seq (issued s) (Z.to_nat rate) !! (i - length (results s))%nat)
      as [n|] eqn:Hseq; [|done].
    injection Ht as <-. apply lookup_seq in Hseq as [-> _].
    do 2 f_equal. lia.
Qed.
End CapacityFacts.

(** X10.  While the rate does not exceed the ten workers of
    [run_sustained_test] and no latency is negative, no request waits for
    a worker: every result is stamped with the start of its batch plus
    the latency of its own request (the result at index [i] belongs to
    batch [i / rate]). *)
Theorem X10_no_request_waits_within_capacity second utcnow (gw : gateway)
    base_url api_key auth_method duration rate t0 :
  0 < second → rate ≤ 10 →
  (∀ n req, 0 ≤ ex_latency (gw n req)) →
  ∃ st, Advanced.sustained_engine second utcnow gw base_url api_key
          auth_method duration rate t0 = Some st
        ∧ ∀ i r, results st !! i = Some r →
            ∃ w, log st !! (i / Z.to_nat rate)%nat = Some w
                 ∧ Advanced.timestamp_of r
                   = w_start w
                     + ex_latency (gw i (Advanced.build_request utcnow base_url
                                           auth_method api_key "GET"
                                           "/test-bucket/test-object")).
Proof.
  intros Hsec Hrate Hlat.
  destruct (run_windows_terminates second 10
              (Advanced.task utcnow gw base_url auth_method api_key)
              ltac:(done) rate duration t0 Hsec) as [st Hrun].
  exists st. split; [done|]. intros i r Hi.
  destruct (run_within_capacity second 10
              (Advanced.task utcnow gw base_url auth_method api_key) rate
              ltac:(done) ltac:(lia)) with
      (duration := duration) (t0 := t0) (st := st) (i := i) (r := r)
    as (w & Hw & ->); try done.
  { intros n s. rewrite Advanced_task_time. specialize (Hlat n).
    pose proof (Hlat (Advanced.build_request utcnow base_url auth_method
                        api_key "GET" "/test-bucket/test-object")). lia. }
  exists w. split; [done|].
  by destruct (Advanced_task_answer utcnow gw base_url auth_method api_key i
                 (w_start w)) as (_ & _ & _ & ->).
Qed.

Lemma X10_no_request_waits_within_capacity_witness :
  let gw : gateway := λ n _, Exchange (Responded 200 []) (Z.of_nat n * 100) in
  ∃ st, Advanced.sustained_engine 1000 (λ _, "") gw "http://localhost"
          "test-key" "v4" 2000 3 0 = Some st
        ∧ Advanced.timestamp_of <$> results st
          = [0; 100; 200; 1300; 1400; 1500].
Proof.
  intros gw.
  destruct (X10_no_request_waits_within_capacity 1000 (λ _, "") gw
              "http://localhost" "test-key" "v4" 2000 3 0)
    as (st & Hrun & _); [lia|lia|intros n req; unfold gw; simpl; lia|].
  exists st. split; [exact Hrun|].
  vm_compute in Hrun. injection Hrun as <-. reflexivity.
Defined.

(** ** The simple script *)

Lemma LoadTest_buckets_and_rest rs :
  (LoadTest.success_count (LoadTest.analyze_results rs)
   + LoadTest.rate_limited_count (LoadTest.analyze_results rs)
   + LoadTest.error_count (LoadTest.analyze_results rs)
   + length (filter (λ r, LoadTest.has_error r = false
                          ∧ LoadTest.get_status_code r ≠ 200%Z
                          ∧ LoadTest.get_status_code r ≠ 429%Z) rs))%nat
  = LoadTest.total (LoadTest.analyze_results rs).
Proof.
  unfold LoadTest.analyze_results; simpl.
  induction rs as [|r rs IH]; [done|].
  rewrite !filter_cons. simpl length. rewrite <- IH. clear IH.
  destruct r as [status ? ? ? ?|]; simpl.
  - destruct (decide (status = 200)) as [->|];
      [|destruct (decide (status = 429)) as [->|]];
      repeat case_decide; simpl; first [lia | exfalso; intuition congruence].
  - repeat case_decide; simpl; first [lia | exfalso; intuition congruence].
Qed.

(** X11.  [analyze_results] counts every result once at most: the three
    counts and the answers with another status add up to the total.  The
    header lines it prints are taken from the first rate-limited result
    alone, and are exactly its headers whose lower-cased name contains
    "rate" or "limit"; without a rate-limited result nothing is printed. *)
Theorem X11_analysis_counts_and_sample rs :
  let a := LoadTest.analyze_results rs in
  (LoadTest.success_count a + LoadTest.rate_limited_count a
   + LoadTest.error_count a
   + length (filter (λ r, LoadTest.has_error r = false
                          ∧ LoadTest.get_status_code r ≠ 200%Z
                          ∧ LoadTest.get_status_code r ≠ 429%Z) rs))%nat
  = LoadTest.total a
  ∧ (LoadTest.rate_limited_count a = O → LoadTest.sample a = ∅)
  ∧ ∀ before r after,
      rs = before ++ r :: after →
      Forall (λ r', LoadTest.get_status_code r' ≠ 429) before →
      LoadTest.get_status_code r = 429 →
      ∀ k v, LoadTest.sample a !! k = Some v ↔
             headers_of r !! k = Some v
             ∧ (contains "rate" (lower k) = true
                ∨ contains "limit" (lower k) = true).
Proof.
  split; [apply LoadTest_buckets_and_rest|]. split.
  - unfold LoadTest.analyze_results. simpl. intros Hnone.
    apply nil_length_inv in Hnone. by rewrite Hnone.
  - intros before r after -> Hbefore Hr k v.
    unfold LoadTest.analyze_results. simpl.
    rewrite filter_app, (filter_none _ before) by done.
    rewrite filter_cons_True by done. simpl.
    destruct r as [status hs ? ? ?|]; [|done]. simpl.
    by rewrite map_lookup_filter_Some.
Qed.

(** ** [test_api_key] *)

Lemma test_api_key_last (gw : gateway) api_key expected_group n :
  Individual.test_api_key gw api_key expected_group (S n)
  = Some (report_of api_key expected_group
            (Individual.probe (gw n (individual_request api_key)))).
Proof.
  unfold Individual.test_api_key.
  rewrite seq_S, fmap_app. simpl. rewrite last_snoc.
  unfold report_of, individual_request.
  by destruct (Individual.probe _).
Qed.

(** X13.  [test_api_key] reports what the last request saw and nothing
    else: with no request to send it fails on [results[-1]], and
    otherwise the detected group, the count, the limit and the status are
    those of the answer to the last request, all "ERROR" when that one
    request failed, "N/A" for a header the answer did not carry. *)
Theorem X13_report_is_read_off_the_last_request (gw : gateway) api_key
    expected_group n :
  Individual.test_api_key gw api_key expected_group 0 = None
  ∧ Individual.test_api_key gw api_key expected_group (S n)
    = Some (report_of api_key expected_group
              (Individual.probe (gw n (individual_request api_key))))
  ∧ (∀ e latency, gw n (individual_request api_key) = Exchange (Raised e) latency →
       Individual.detected_group <$>
         Individual.test_api_key gw api_key expected_group (S n) = Some "ERROR")
  ∧ (∀ status latency,
       gw n (individual_request api_key) = Exchange (Responded status []) latency →
       Individual.test_api_key gw api_key expected_group (S n)
       = Some (Individual.Report api_key expected_group "N/A" "N/A" "N/A"
                 (Individual.Int status))).
Proof.
  split; [done|]. split; [apply test_api_key_last|]. split.
  - intros e latency Hgw. by rewrite test_api_key_last, Hgw.
  - intros status latency Hgw. by rewrite test_api_key_last, Hgw.
Qed.

(** X14.  [test_api_key] reads the telemetry headers whatever the case of
    their names: against two gateways whose answers differ only in the
    spelling of header names it gives the same report. *)
Theorem X14_report_ignores_header_case (gw1 gw2 : gateway) api_key
    expected_group n :
  (∀ i req, same_answer_up_to_case (gw1 i req) (gw2 i req)) →
  Individual.test_api_key gw1 api_key expected_group n
  = Individual.test_api_key gw2 api_key expected_group n.
Proof.
  intros Hsame. destruct n as [|n]; [done|].
  rewrite !test_api_key_last. f_equal.
  specialize (Hsame n (individual_request api_key)).
  unfold same_answer_up_to_case in Hsame. unfold Individual.probe.
  destruct (ex_reply (gw1 n _)) as [s1 hs1|e1],
           (ex_reply (gw2 n _)) as [s2 hs2|e2]; try done.
  destruct Hsame as [-> Hhs]. simpl.
  by rewrite !(ci_get_same_up_to_case hs1 hs2 _ Hhs).
Qed.

Lemma X14_report_ignores_header_case_witness :
  Individual.test_api_key
    (λ _ _, Exchange (Responded 200 [("X-RateLimit-Group", "basic")]) 0)
    "test-basic-key" "basic" 10
  = Individual.test_api_key
      (λ _ _, Exchange (Responded 200 [("x-ratelimit-group", "basic")]) 0)
      "test-basic-key" "basic" 10.
Proof.
  apply X14_report_ignores_header_case.
  intros i req. unfold same_answer_up_to_case. simpl.
  split; [reflexivity|]. repeat constructor.
Defined.

(** ** The boto3 tester *)

Lemma make_request_fold int replies c :
  let c' := foldl (Boto.make_request int) c replies in
  (Boto.successful c' + Boto.response_times c
   = Boto.response_times c' + Boto.successful c)%nat
  ∧ (Boto.successful c' + Boto.rate_limited c' + Boto.errors c'
     = Boto.successful c + Boto.rate_limited c + Boto.errors c
       + length replies
       + length (filter (unreadable_remaining int) replies))%nat.
Proof.
  revert c. induction replies as [|r replies IH]; intros c; simpl.
  { lia. }
  destruct (IH (Boto.make_request int c r)) as [IH1 IH2].
  rewrite filter_cons.
  destruct (decide (unreadable_remaining int r)) as [Hd|Hd];
    destruct r as [hs|code|msg]; simpl in *; try done.
  - destruct (hs !! "x-ratelimit-remaining") as [remaining|]; [|done].
    rewrite Hd in *. simpl in *. lia.
  - destruct (hs !! "x-ratelimit-remaining") as [remaining|]; [|simpl in *; lia].
    destruct (int remaining) eqn:Hint; [|done]. simpl in *. lia.
  - destruct (decide (code = "SlowDown")); simpl in *; lia.
  - lia.
Qed.

(** X15.  [make_request] counts a listing as successful before it reads
    the remaining-requests header, and counts it again as an error when
    that header is not a number.  So the total that [test_rate_limiting]
    prints is the number of calls plus the number of such listings,
    between once and twice the number of calls, while the number of
    response times always equals the number of successes. *)
Theorem X15_total_counts_unreadable_listings_twice int replies :
  let ct := Boto.test_rate_limiting int replies in
  Boto.successful ct.1 = Boto.response_times ct.1
  ∧ ct.2 = (length replies
            + length (filter (unreadable_remaining int) replies))%nat
  ∧ (length replies ≤ ct.2 ≤ 2 * length replies)%nat.
Proof.
  unfold Boto.test_rate_limiting. simpl.
  destruct (make_request_fold int replies (Boto.Counters 0 0 0 0)) as [H1 H2].
  simpl in *.
  pose proof (length_filter (unreadable_remaining int) replies).
  repeat split; lia.
Qed.

Lemma client_worker_fold replies c :
  let c' := foldl BotoClients.client_call c replies in
  (BotoClients.successful c' + BotoClients.rate_limited c'
   + BotoClients.errors c'
   = BotoClients.successful c + BotoClients.rate_limited c
     + BotoClients.errors c + length replies)%nat.
Proof.
  revert c. induction replies as [|r replies IH]; intros c; simpl; [lia|].
  rewrite IH. destruct r as [hs|code|msg]; simpl; [lia| |lia].
  destruct (decide (code = "SlowDown")); simpl; lia.
Qed.

Lemma foldr_add_perm (l1 l2 : list nat) :
  l1 ≡ₚ l2 → foldr Nat.add O l1 = foldr Nat.add O l2.
Proof.
  induction 1; simpl; lia.
Qed.

(** X16.  In [test_concurrent_clients] every call of every client is
    counted in exactly one of the three totals, so the total is the
    number of calls made, and the totals do not depend on the order in
    which the client threads finish.  When no call was made at all the
    percentage line divides by zero. *)
Theorem X16_concurrent_totals_count_every_call (replies_of : nat → list Boto.reply)
    (finished : list nat) :
  let calls := foldr Nat.add O ((λ i, length (replies_of i)) <$> finished) in
  (calls = O →
   BotoClients.test_concurrent_clients replies_of finished = None)
  ∧ (calls ≠ O →
     ∃ t, BotoClients.test_concurrent_clients replies_of finished = Some t
          ∧ BotoClients.total_requests t = calls
          ∧ (BotoClients.total_success t + BotoClients.total_rate_limited t
             + BotoClients.total_errors t)%nat = calls)
  ∧ ∀ finished', finished ≡ₚ finished' →
      BotoClients.test_concurrent_clients replies_of finished
      = BotoClients.test_concurrent_clients replies_of finished'.
Proof.
  assert (∀ l : list nat,
            (foldr Nat.add O
               ((λ r : nat * BotoClients.client_results,
                   BotoClients.successful r.2) <$>
                ((λ i, (i, BotoClients.client_worker (replies_of i))) <$> l))
             + foldr Nat.add O
                 ((λ r : nat * BotoClients.client_results,
                     BotoClients.rate_limited r.2) <$>
                  ((λ i, (i, BotoClients.client_worker (replies_of i))) <$> l))
             + foldr Nat.add O
                 ((λ r : nat * BotoClients.client_results,
                     BotoClients.errors r.2) <$>
                  ((λ i, (i, BotoClients.client_worker (replies_of i))) <$> l)))%nat
            = foldr Nat.add O ((λ i, length (replies_of i)) <$> l)) as Hsum.
  { induction l as [|i l IH]; [done|].
    rewrite !fmap_cons. cbn [foldr snd]. rewrite <- IH.
    pose proof (client_worker_fold (replies_of i)
                  (BotoClients.Client_results 0 0 0)) as Hi.
    cbn zeta in Hi. cbn [BotoClients.successful BotoClients.rate_limited
                         BotoClients.errors] in Hi.
    unfold BotoClients.client_worker. lia. }
  intros calls. unfold calls.
  unfold BotoClients.test_concurrent_clients, BotoClients.aggregate.
  split; [|split].
  - intros Hzero. rewrite Hsum. by rewrite decide_True.
  - intros Hcalls. rewrite Hsum. rewrite decide_False by done.
    eexists. split; [reflexivity|]. simpl. split; [done|]. apply Hsum.
  - intros finished' Hperm.
    rewrite !(foldr_add_perm _ _
                (fmap_Permutation _ _ _ (fmap_Permutation _ _ _ Hperm))).
    done.
Qed.

(** ** More about the ingestion *)

(** X17.  [ingest_summary] posts exactly one row into [test_summary],
    with zero for every total the summary lacks, when the duration is
    absent, a float, or an integer whose quotient by [1_000_000_000] is
    a float.  When the duration is an integer too large for that the
    division raises [OverflowError], when it is no number it raises
    [TypeError], and when the summary is not an object the first [get]
    raises [AttributeError]: in these cases nothing is posted and
    nothing printed. *)
Theorem X17_summary_row_or_nothing clickhouse (summary : json) timestamp w
    members :
  (summary = JObj members →
   let duration := default (JInt 0) (assoc "Duration" members) in
   (py_number duration = Ok duration →
    ∃ q, q_table q = "test_summary"
      ∧ column "duration_seconds" (q_row q) = Some (Seconds duration)
      ∧ column "total_requests" (q_row q)
        = Some (Bare (default (JInt 0) (assoc "TotalRequests" members)))
      ∧ column "total_errors" (q_row q)
        = Some (Bare (default (JInt 0) (assoc "TotalErrors" members)))
      ∧ column "summary_data" (q_row q) = Some (Dumped summary)
      ∧ HyperDX.ingest_summary clickhouse summary timestamp w
        = (Ok (), after_post clickhouse q Inserted_summary Failed_summary w))
   ∧ (∀ e, py_number duration = Raise e →
      HyperDX.ingest_summary clickhouse summary timestamp w = (Raise e, w))
   ∧ (∀ n, duration = JInt n →
      (fits_float n = true → py_number duration = Ok duration)
      ∧ (fits_float n = false →
         HyperDX.ingest_summary clickhouse summary timestamp w
         = (Raise OverflowError, w)))
   ∧ (assoc "Duration" members = None → py_number duration = Ok duration))
  ∧ (¬ is_object summary →
     HyperDX.ingest_summary clickhouse summary timestamp w
     = (Raise AttributeError, w)).
Proof.
  assert (∀ e, py_number (default (JInt 0) (assoc "Duration" members)) = Raise e →
          HyperDX.ingest_summary clickhouse (JObj members) timestamp w
          = (Raise e, w)) as Hraise.
  { intros e Hnum. unfold HyperDX.ingest_summary.
    unfold mbind at 1. unfold io_bind at 1. unfold lift at 1.
    unfold mbind at 1. unfold py_bind, py_get. cbv beta iota.
    by rewrite Hnum. }
  split.
  - intros ->. cbv zeta. split; [|split; [exact Hraise|split]].
    + intros Hnum. unfold HyperDX.ingest_summary.
      unfold mbind, io_bind, py_bind, lift, py_get. cbv beta iota.
      rewrite Hnum.
      match goal with
      | |- context [HyperDX.execute_sql _ ?q _] => exists q
      end.
      repeat split; try reflexivity.
      rewrite execute_sql_run. unfold after_post, print. simpl.
      destruct (clickhouse _ _) as [text| |]; simpl;
        [destruct (decide (text = ""))|..]; simpl; by rewrite <- ?app_assoc.
    + intros n Hn. split; intros Hfit.
      * rewrite Hn. unfold py_number. by rewrite Hfit.
      * apply Hraise. rewrite Hn. unfold py_number. by rewrite Hfit.
    + intros Hnone. by rewrite Hnone.
  - intros Hobj. unfold HyperDX.ingest_summary.
    unfold mbind at 1. unfold io_bind at 1. unfold lift at 1.
    unfold mbind at 1. unfold py_bind, py_get.
    by destruct summary.
Qed.

Lemma for_each_app {A} (l1 l2 : list A) (body : A → io unit) w :
  for_each (l1 ++ l2) body w
  = match for_each l1 body w with
    | (Ok _, w') => for_each l2 body w'
    | (Raise e, w') => (Raise e, w')
    end.
Proof.
  revert w. induction l1 as [|x l1 IH]; intros w; simpl; [done|].
  unfold mbind, io_bind.
  destruct (body x w) as [[[]|e] w1]; [|done].
  apply IH.
Qed.

(** The loop over the groups, with the rows it posts. *)
Lemma ingest_groups_rows clickhouse uuid4 timestamp (f : nat → nat)
    (items : list (string * json)) w :
  Forall (λ item, readable_group item.2) items →
  ∃ w' qs,
    for_each (imap (λ n item, (f n, item)) items)
      (λ '(n, (group_name, group_data)),
         HyperDX.ingest_group clickhouse uuid4 timestamp n group_name group_data)
      w = (Ok (), w')
    ∧ attempts w' = attempts w ++ qs
    ∧ Forall2 (λ item q, q_table q = "test_results"
                         ∧ column "raw_data" (q_row q) = Some (Dumped item.2))
        items qs
    ∧ stored w `prefix_of` stored w'
    ∧ (accounted w → accounted w').
Proof.
  intros Hok. revert f w.
  induction Hok as [|[name data] items (members & Hdata & [analysis Han]) _ IH];
    intros f w.
  { exists w, []. simpl. rewrite app_nil_r. repeat split; try done; constructor. }
  simpl in Hdata. subst data. simpl.
  destruct (ingest_group_run clickhouse uuid4 timestamp (f O) name members
              analysis w Han) as (q & Htable & _ & _ & _ & _ & Hraw & Hrun).
  unfold mbind at 1. unfold io_bind at 1. rewrite Hrun.
  destruct (IH (f ∘ S) (after_post clickhouse q (Inserted_group name)
                          (Failed_group name) w))
    as (w' & qs & Hloop & Hatt & Hrows & Hsto & Hacc).
  exists w', (q :: qs). split; [done|].
  rewrite after_post_attempts in Hatt.
  repeat split.
  - rewrite Hatt. by rewrite <- app_assoc.
  - by constructor.
  - etrans; [|exact Hsto]. apply after_post_stored.
  - intros Hw. apply Hacc. by apply after_post_accounted.
Qed.

(** X18.  [ingest_group_results] posts one [test_results] row per group,
    in the order of the file and each with the group's own data, however
    the store answered the rows before; it removes nothing from the
    store, and every row posted is either stored or reported as failed. *)
Theorem X18_one_row_per_group_whatever_the_store_answers clickhouse uuid4
    timestamp (items : list (string * json)) w :
  Forall (λ item, readable_group item.2) items →
  ∃ w' qs,
    HyperDX.ingest_group_results clickhouse uuid4 (JObj items) timestamp w
    = (Ok (), w')
    ∧ attempts w' = attempts w ++ qs
    ∧ Forall2 (λ item q, q_table q = "test_results"
                         ∧ column "raw_data" (q_row q) = Some (Dumped item.2))
        items qs
    ∧ stored w `prefix_of` stored w'
    ∧ (accounted w → accounted w').
Proof.
  intros Hok. unfold HyperDX.ingest_group_results.
  unfold mbind, io_bind, lift, print. simpl.
  destruct (ingest_groups_rows clickhouse uuid4 timestamp id items
              (World (attempts w) (stored w)
                 (printed w ++ [Inserting_groups (length items)])) Hok)
    as (w' & qs & Hloop & Hatt & Hrows & Hsto & Hacc).
  exists w', qs. repeat split; try done.
  intros Hw. apply Hacc. unfold accounted in *. simpl.
  rewrite filter_app, length_app. simpl. lia.
Qed.

Lemma X18_one_row_per_group_whatever_the_store_answers_witness :
  let clickhouse : nat → query → store_reply :=
    λ n _, if decide (n = O) then Rejected 500 "Code: 62" else Accepted "" in
  ∃ w' qs,
    HyperDX.ingest_group_results clickhouse (λ _, "id")
      (JObj [("premium", JObj [("RequestsSent", JInt 100)]);
             ("basic", JObj [])]) "now" (World [] [] [])
    = (Ok (), w')
    ∧ attempts w' = [] ++ qs ∧ length qs = 2%nat.
Proof.
  intros clickhouse.
  destruct (X18_one_row_per_group_whatever_the_store_answers clickhouse
              (λ _, "id") "now"
              [("premium", JObj [("RequestsSent", JInt 100)]);
               ("basic", JObj [])] (World [] [] []))
    as (w' & qs & Hrun & Hatt & Hrows & _).
  - repeat constructor; eexists; (split; [reflexivity|]); by eexists.
  - exists w', qs. split; [exact Hrun|]. split; [exact Hatt|].
    by rewrite <- (Forall2_length _ _ _ Hrows).
Defined.

Lemma ingest_group_unreadable clickhouse uuid4 timestamp n group_name
    (group_data : json) w :
  ¬ is_object group_data →
  ∃ e, HyperDX.ingest_group clickhouse uuid4 timestamp n group_name
         group_data w = (Raise e, w).
Proof.
  intros Hobj. unfold HyperDX.ingest_group.
  unfold mbind at 1. unfold io_bind at 1. unfold lift at 1.
  destruct group_data as [|b|z|m e|s|items|members]; simpl in *;
    [by eexists|by eexists|by eexists|by eexists| | |by destruct Hobj].
  - destruct (contains "RateLimitAnalysis" s); by eexists.
  - destruct (existsb _ items); by eexists.
Qed.

(** X19.  A group that is not an object stops [ingest_group_results] with
    an exception, but only from there on: the rows of the groups before
    it have been posted and stay in the store, the groups after it are
    never posted. *)
Theorem X19_unreadable_group_stops_the_rest_only clickhouse uuid4 timestamp
    (good rest : list (string * json)) group_name (bad : json) w :
  Forall (λ item, readable_group item.2) good →
  ¬ is_object bad →
  ∃ e w',
    HyperDX.ingest_group_results clickhouse uuid4
      (JObj (good ++ (group_name, bad) :: rest)) timestamp w
    = (Raise e, w')
    ∧ length (attempts w') = (length (attempts w) + length good)%nat
    ∧ stored w `prefix_of` stored w'.
Proof.
  intros Hgood Hbad. unfold HyperDX.ingest_group_results.
  unfold mbind, io_bind, lift, print. simpl.
  rewrite imap_app, for_each_app.
  destruct (ingest_groups_rows clickhouse uuid4 timestamp id good
              (World (attempts w) (stored w)
                 (printed w ++
                  [Inserting_groups (length (good ++ (group_name, bad) :: rest))]))
              Hgood)
    as (w1 & qs & Hloop & Hatt & Hrows & Hsto & _).
  change (λ (n : nat) (item : string * json), (id n, item))
    with (λ (n : nat) (item : string * json), (n, item)) in Hloop.
  rewrite Hloop. simpl.
  destruct (ingest_group_unreadable clickhouse uuid4 timestamp
              (length good + 0)%nat group_name bad w1 Hbad) as [e Hraise].
  unfold mbind, io_bind. rewrite Hraise.
  exists e, w1. split; [done|]. split; [|done].
  rewrite Hatt, length_app. simpl.
  by rewrite <- (Forall2_length _ _ _ Hrows).
Qed.

Lemma X19_unreadable_group_stops_the_rest_only_witness :
  ∃ e w',
    HyperDX.ingest_group_results (λ _ _, Accepted "") (λ _, "id")
      (JObj ([("premium", JObj [])] ++ ("basic", JNull) :: [("other", JObj [])]))
      "now" (World [] [] [])
    = (Raise e, w')
    ∧ length (attempts w') = (0 + 1)%nat.
Proof.
  destruct (X19_unreadable_group_stops_the_rest_only (λ _ _, Accepted "")
              (λ _, "id") "now" [("premium", JObj [])] [("other", JObj [])]
              "basic" JNull (World [] [] []))
    as (e & w' & Hrun & Hatt & _).
  - repeat constructor. eexists. split; [reflexivity|]. by eexists.
  - simpl. tauto.
  - by exists e, w'.
Defined.

Lemma fold_each_app {A S} (l1 l2 : list A) (k : S) (body : S → A → io S) w :
  fold_each (l1 ++ l2) k body w
  = match fold_each l1 k body w with
    | (Ok k', w') => fold_each l2 k' body w'
    | (Raise e, w') => (Raise e, w')
    end.
Proof.
  revert k w. induction l1 as [|x l1 IH]; intros k w; simpl; [done|].
  unfold mbind, io_bind.
  destruct (body k x w) as [[k'|e] w1]; [|done].
  apply IH.
Qed.

(** The inner loop of [ingest_throttle_events] over readable events. *)
Lemma ingest_events_run clickhouse event_time group_name (events : list json)
    k w :
  Forall (readable_event event_time) events →
  ∃ k' w' errs,
    fold_each events k (HyperDX.ingest_event clickhouse event_time group_name) w
    = (Ok k', w')
    ∧ length (attempts w') = (length (attempts w) + length events)%nat
    ∧ stored w `prefix_of` stored w'
    ∧ printed w' = printed w ++ errs
    ∧ Forall (λ l, failure_line l = true) errs
    ∧ ((∀ n q text, clickhouse n q = Accepted text → text = "") →
       k' = (k + length events)%nat)
    ∧ ((∀ n q text, clickhouse n q ≠ Accepted text) → stored w' = stored w).
Proof.
  intros Hok. revert k w.
  induction Hok as [|event events (members & ts & time & -> & Hts & Htime) _ IH];
    intros k w; simpl.
  { exists k, w, []. rewrite app_nil_r. repeat split; try done; lia. }
  destruct (ingest_event_run clickhouse event_time group_name k members ts time
              w Hts Htime) as (q & _ & _ & _ & _ & Hrun).
  unfold mbind at 1. unfold io_bind at 1. rewrite Hrun.
  rewrite execute_sql_run. simpl.
  match goal with
  | |- context [fold_each events ?k1 _ ?w1] =>
      destruct (IH k1 w1) as (k' & w' & errs & Hloop & Hatt & Hsto & Hpr & Herrs
                              & Hcount & Hnone)
  end.
  simpl in *. rewrite length_app in Hatt. simpl in Hatt.
  exists k', w'. eexists. split; [exact Hloop|].
  split; [lia|]. split.
  { etrans; [|exact Hsto].
    destruct (clickhouse _ _); [by apply prefix_app_r|done|done]. }
  split; [rewrite Hpr; by rewrite <- app_assoc|]. split.
  { apply Forall_app. split; [|done].
    destruct (clickhouse _ _); by repeat constructor. }
  split.
  - intros Hempty. rewrite (Hcount Hempty).
    destruct (clickhouse (length (attempts w)) q) as [text| |] eqn:Hreply; [|lia|lia].
    rewrite (Hempty _ _ _ Hreply). simpl. lia.
  - intros Hrefuse. rewrite (Hnone Hrefuse).
    destruct (clickhouse (length (attempts w)) q) as [text| |] eqn:Hreply;
      [by destruct (Hrefuse _ _ _ Hreply)|done|done].
Qed.

(** The outer loop over readable entries of the analysis. *)
Lemma ingest_analysis_run clickhouse event_time (items : list (string * json))
    k w :
  Forall (λ item, readable_analysis event_time item.2) items →
  ∃ k' w' errs,
    fold_each items k
      (λ events_inserted '(group_name, group_analysis),
         has ← lift (py_in "ThrottleEvents" group_analysis);
         if has : bool then
           events ← lift (py_index group_analysis "ThrottleEvents" ≫= py_iter);
           fold_each events events_inserted
             (HyperDX.ingest_event clickhouse event_time group_name)
         else mret events_inserted) w
    = (Ok k', w')
    ∧ length (attempts w')
      = (length (attempts w) + length (concat (events_of <$> items.*2)))%nat
    ∧ stored w `prefix_of` stored w'
    ∧ printed w' = printed w ++ errs
    ∧ Forall (λ l, failure_line l = true) errs
    ∧ ((∀ n q text, clickhouse n q = Accepted text → text = "") →
       k' = (k + length (concat (events_of <$> items.*2)))%nat)
    ∧ ((∀ n q text, clickhouse n q ≠ Accepted text) → stored w' = stored w).
Proof.
  intros Hok. revert k w.
  induction Hok as [|[name data] items (fields & Hdata & Hev) _ IH];
    intros k w.
  { simpl. exists k, w, []. rewrite app_nil_r. repeat split; try done; lia. }
  simpl in Hdata. subst data.
  assert (length (concat (events_of <$> ((name, JObj fields) :: items).*2))
          = (length (events_of (JObj fields))
             + length (concat (events_of <$> items.*2)))%nat) as ->.
  { simpl. by rewrite length_app. }
  set (N := length (concat (events_of <$> items.*2))) in *. clearbody N.
  set (M := length (events_of (JObj fields))).
  assert (M = match assoc "ThrottleEvents" fields with
              | Some (JArr events) => length events
              | _ => O
              end) as HM.
  { unfold M. simpl. by destruct (assoc "ThrottleEvents" fields) as [[]|]. }
  clearbody M. simpl.
  unfold mbind at 1. unfold io_bind at 1.
  unfold mbind at 1. unfold io_bind at 1. unfold lift at 1. simpl.
  destruct Hev as [Hnone|(events & Hsome & Hevents)].
  - rewrite Hnone in *. subst M.
    rewrite bool_decide_false by (by intros [? ?]).
    unfold mret, io_ret.
    destruct (IH k w) as (k' & w' & errs & Hloop & Hrest).
    exists k', w', errs. split; [exact Hloop|]. exact Hrest.
  - rewrite Hsome in *. subst M. rewrite bool_decide_true by eauto.
    unfold mbind at 1. unfold io_bind at 1. unfold lift at 1.
    unfold mbind at 1. unfold py_bind, py_index. rewrite ?Hsome. simpl.
    destruct (ingest_events_run clickhouse event_time name events k w Hevents)
      as (k1 & w1 & errs1 & Hloop1 & Hatt1 & Hsto1 & Hpr1 & Herrs1 & Hcount1
          & Hnone1).
    rewrite Hloop1.
    destruct (IH k1 w1)
      as (k' & w' & errs & Hloop & Hatt & Hsto & Hpr & Herrs & Hcount & Hnone').
    exists k', w', (errs1 ++ errs). split; [exact Hloop|].
    split; [lia|]. split; [by etrans|].
    split; [rewrite Hpr, Hpr1; by rewrite <- app_assoc|].
    split; [by apply Forall_app|]. split.
    + intros Hempty. rewrite (Hcount Hempty), (Hcount1 Hempty). lia.
    + intros Hrefuse. by rewrite (Hnone' Hrefuse), (Hnone1 Hrefuse).
Qed.

(** X20.  Against a store that answers an accepted [INSERT] with an empty
    body, the number [ingest_throttle_events] prints as inserted is the
    number of events it posted, not the number stored: a rejected or
    unreachable write is counted too.  All events of all groups are
    posted, and when the store accepts none of them nothing is stored
    while the count is still the number of events. *)
Theorem X20_inserted_count_is_the_number_posted clickhouse event_time
    (items : list (string * json)) timestamp w :
  Forall (λ item, readable_analysis event_time item.2) items →
  (∀ n q text, clickhouse n q = Accepted text → text = "") →
  let posted := length (concat (events_of <$> items.*2)) in
  ∃ w',
    HyperDX.ingest_throttle_events clickhouse event_time (JObj items)
      timestamp w = (Ok (), w')
    ∧ length (attempts w') = (length (attempts w) + posted)%nat
    ∧ last (printed w') = Some (Inserted_events posted)
    ∧ stored w `prefix_of` stored w'
    ∧ ((∀ n q text, clickhouse n q ≠ Accepted text) → stored w' = stored w).
Proof.
  intros Hok Hempty posted. unfold HyperDX.ingest_throttle_events.
  unfold mbind at 1. unfold io_bind at 1. unfold print at 1. simpl.
  unfold mbind at 1. unfold io_bind at 1. unfold lift at 1. simpl.
  unfold mbind at 1. unfold io_bind at 1.
  destruct (ingest_analysis_run clickhouse event_time items O
              (World (attempts w) (stored w) (printed w ++ [Inserting_events]))
              Hok)
    as (k' & w' & errs & Hloop & Hatt & Hsto & Hpr & Herrs & Hcount & Hnone).
  rewrite Hloop. rewrite (Hcount Hempty). simpl in *.
  eexists. split; [reflexivity|]. simpl.
  split; [done|]. split; [apply last_snoc|]. split; [done|done].
Qed.

Lemma X20_inserted_count_is_the_number_posted_witness :
  let items :=
    [("basic",
      JObj [("ThrottleEvents",
             JArr [JObj [("Timestamp", JStr "2025-01-01T00:00:00")];
                   JObj [("Timestamp", JStr "2025-01-01T00:00:01")]])])] in
  ∃ w',
    HyperDX.ingest_throttle_events (λ _ _, Rejected 500 "Code: 60")
      (λ ts, Some ts) (JObj items) "now" (World [] [] [])
    = (Ok (), w')
    ∧ last (printed w') = Some (Inserted_events 2)
    ∧ stored w' = [].
Proof.
  intros items.
  destruct (X20_inserted_count_is_the_number_posted
              (λ _ _, Rejected 500 "Code: 60") (λ ts, Some ts) items "now"
              (World [] [] []))
    as (w' & Hrun & _ & Hlast & _ & Hnone).
  - repeat constructor. eexists. split; [reflexivity|]. right.
    eexists. split; [reflexivity|].
    repeat constructor; by do 3 eexists.
  - intros n q text Hreply. discriminate Hreply.
  - exists w'. split; [exact Hrun|]. split; [exact Hlast|].
    apply Hnone. intros n q text Hreply. discriminate Hreply.
Defined.

(** ** The whole ingestion, and the importer *)

Lemma after_post_refused clickhouse q l f w :
  (∀ n q text, clickhouse n q ≠ Accepted text) →
  stored (after_post clickhouse q l f w) = stored w.
Proof.
  intros Hrefuse. unfold after_post. simpl.
  destruct (clickhouse (length (attempts w)) q) as [text| |] eqn:Hreply;
    [by destruct (Hrefuse _ _ _ Hreply)|done|done].
Qed.

(** The loop over the groups against a store that takes nothing. *)
Lemma ingest_groups_refused clickhouse uuid4 timestamp (f : nat → nat)
    (items : list (string * json)) w :
  Forall (λ item, readable_group item.2) items →
  ∃ w',
    for_each (imap (λ n item, (f n, item)) items)
      (λ '(n, (group_name, group_data)),
         HyperDX.ingest_group clickhouse uuid4 timestamp n group_name group_data)
      w = (Ok (), w')
    ∧ length (attempts w') = (length (attempts w) + length items)%nat
    ∧ stored w `prefix_of` stored w'
    ∧ ((∀ n q text, clickhouse n q ≠ Accepted text) → stored w' = stored w).
Proof.
  intros Hok. revert f w.
  induction Hok as [|[name data] items (members & Hdata & [analysis Han]) _ IH];
    intros f w.
  { exists w. simpl. repeat split; [lia|done]. }
  simpl in Hdata. subst data. simpl.
  destruct (ingest_group_run clickhouse uuid4 timestamp (f O) name members
              analysis w Han) as (q & _ & _ & _ & _ & _ & _ & Hrun).
  unfold mbind at 1. unfold io_bind at 1. rewrite Hrun.
  destruct (IH (f ∘ S) (after_post clickhouse q (Inserted_group name)
                          (Failed_group name) w))
    as (w' & Hloop & Hlen & Hsto & Hnone).
  exists w'. split; [done|].
  rewrite after_post_attempts, length_app in Hlen. simpl in Hlen.
  repeat split.
  - lia.
  - etrans; [|exact Hsto]. apply after_post_stored.
  - intros Hrefuse. rewrite (Hnone Hrefuse). by apply after_post_refused.
Qed.

Lemma ingest_group_results_refused clickhouse uuid4 timestamp
    (items : list (string * json)) w :
  Forall (λ item, readable_group item.2) items →
  ∃ w',
    HyperDX.ingest_group_results clickhouse uuid4 (JObj items) timestamp w
    = (Ok (), w')
    ∧ length (attempts w') = (length (attempts w) + length items)%nat
    ∧ stored w `prefix_of` stored w'
    ∧ ((∀ n q text, clickhouse n q ≠ Accepted text) → stored w' = stored w).
Proof.
  intros Hok. unfold HyperDX.ingest_group_results.
  unfold mbind, io_bind, lift, print. simpl.
  destruct (ingest_groups_refused clickhouse uuid4 timestamp id items
              (World (attempts w) (stored w)
                 (printed w ++ [Inserting_groups (length items)])) Hok)
    as (w' & Hloop & Hlen & Hsto & Hnone).
  exists w'. repeat split; done.
Qed.

(** All events of a readable analysis are posted. *)
Lemma ingest_throttle_events_run clickhouse event_time
    (items : list (string * json)) timestamp w :
  Forall (λ item, readable_analysis event_time item.2) items →
  ∃ w',
    HyperDX.ingest_throttle_events clickhouse event_time (JObj items)
      timestamp w = (Ok (), w')
    ∧ length (attempts w')
      = (length (attempts w) + length (concat (events_of <$> items.*2)))%nat
    ∧ stored w `prefix_of` stored w'
    ∧ ((∀ n q text, clickhouse n q ≠ Accepted text) → stored w' = stored w).
Proof.
  intros Hok. unfold HyperDX.ingest_throttle_events.
  unfold mbind at 1. unfold io_bind at 1. unfold print at 1. simpl.
  unfold mbind at 1. unfold io_bind at 1. unfold lift at 1. simpl.
  unfold mbind at 1. unfold io_bind at 1.
  destruct (ingest_analysis_run clickhouse event_time items O
              (World (attempts w) (stored w) (printed w ++ [Inserting_events]))
              Hok)
    as (k' & w' & errs & Hloop & Hatt & Hsto & Hpr & Herrs & Hcount & Hnone).
  rewrite Hloop. simpl in *.
  eexists. split; [reflexivity|]. simpl. repeat split; done.
Qed.

(** The second stage of [ingest_comprehensive_results]. *)
Lemma group_stage_run clickhouse uuid4 members timestamp w :
  (∀ g, assoc "ByGroup" members = Some g →
     ∃ groups, g = JObj groups
               ∧ Forall (λ item, readable_group item.2) groups) →
  ∃ w',
    (has ← lift (py_in "ByGroup" (JObj members));
     if has : bool then
       groups ← lift (py_index (JObj members) "ByGroup");
       HyperDX.ingest_group_results clickhouse uuid4 groups timestamp
     else mret ()) w = (Ok (), w')
    ∧ length (attempts w')
      = (length (attempts w)
         + length (members_of (assoc "ByGroup" members)))%nat
    ∧ stored w `prefix_of` stored w'
    ∧ ((∀ n q text, clickhouse n q ≠ Accepted text) → stored w' = stored w).
Proof.
  intros Hgroups. rewrite io_bind_run. unfold lift at 1. simpl.
  destruct (assoc "ByGroup" members) as [g|] eqn:Hg.
  - destruct (Hgroups g eq_refl) as (groups & -> & Hok).
    rewrite bool_decide_true by eauto.
    rewrite io_bind_run. unfold lift at 1. simpl. rewrite ?Hg.
    apply ingest_group_results_refused, Hok.
  - rewrite bool_decide_false by (by intros [? ?]).
    exists w. simpl. repeat split; [lia|done].
Qed.

(** The third stage. *)
Lemma event_stage_run clickhouse event_time members timestamp w :
  (∀ a, assoc "RateLimitAnalysis" members = Some a →
     ∃ items, a = JObj items
              ∧ Forall (λ item, readable_analysis event_time item.2) items) →
  ∃ w',
    (has ← lift (py_in "RateLimitAnalysis" (JObj members));
     if has : bool then
       analysis ← lift (py_index (JObj members) "RateLimitAnalysis");
       HyperDX.ingest_throttle_events clickhouse event_time analysis timestamp
     else mret ()) w = (Ok (), w')
    ∧ length (attempts w')
      = (length (attempts w)
         + length (concat (events_of
                           <$> (members_of
                                  (assoc "RateLimitAnalysis" members)).*2)))%nat
    ∧ stored w `prefix_of` stored w'
    ∧ ((∀ n q text, clickhouse n q ≠ Accepted text) → stored w' = stored w).
Proof.
  intros Han. rewrite io_bind_run. unfold lift at 1. simpl.
  destruct (assoc "RateLimitAnalysis" members) as [a|] eqn:Ha.
  - destruct (Han a eq_refl) as (items & -> & Hok).
    rewrite bool_decide_true by eauto.
    rewrite io_bind_run. unfold lift at 1. simpl. rewrite ?Ha.
    apply ingest_throttle_events_run, Hok.
  - rewrite bool_decide_false by (by intros [? ?]).
    exists w. simpl. repeat split; [lia|done].
Qed.

(** X21.  [ingest_comprehensive_results] reports success whatever the
    store did.  For an export whose summary is readable it posts the
    summary row, one row per group and one row per throttle event,
    however the store answered, and returns [True]; a
    store that accepts nothing leaves the call with nothing stored and
    the same [True]. *)
Theorem X21_ingestion_reports_success_whatever_the_store_did clickhouse uuid4
    event_time (top members : list (string * json)) timestamp w :
  assoc "summary" top = Some (JObj members) →
  readable_summary event_time members →
  let groups := members_of (assoc "ByGroup" members) in
  let events :=
    concat (events_of <$> (members_of (assoc "RateLimitAnalysis" members)).*2) in
  ∃ w',
    HyperDX.ingest_comprehensive_results clickhouse uuid4 event_time
      (JObj top) timestamp w = (Ok true, w')
    ∧ length (attempts w')
      = (length (attempts w) + 1 + length groups + length events)%nat
    ∧ stored w `prefix_of` stored w'
    ∧ ((∀ n q text, clickhouse n q ≠ Accepted text) → stored w' = stored w).
Proof.
  intros Hsum ([d Hdur] & Hgroups & Han) groups events.
  assert (py_in "summary" (JObj top) = Ok true) as Hin.
  { simpl. rewrite Hsum. by rewrite bool_decide_true by eauto. }
  assert (py_index (JObj top) "summary" = Ok (JObj members)) as Hidx.
  { simpl. by rewrite Hsum. }
  unfold HyperDX.ingest_comprehensive_results. rewrite Hin, Hidx.
  rewrite io_bind_run. unfold lift at 1. cbv beta iota.
  destruct (ingest_summary_run clickhouse members timestamp w d Hdur)
    as (q & _ & Hone).
  rewrite io_bind_run. rewrite io_bind_run. unfold lift at 1. cbv beta iota.
  rewrite Hone.
  set (w1 := after_post clickhouse q Inserted_summary Failed_summary w).
  destruct (group_stage_run clickhouse uuid4 members timestamp w1 Hgroups)
    as (w2 & Htwo & Hatt2 & Hsto2 & Hnone2).
  rewrite io_bind_run. rewrite io_bind_run. unfold lift at 1. cbv beta iota.
  rewrite Htwo.
  destruct (event_stage_run clickhouse event_time members timestamp w2 Han)
    as (w3 & Hthree & Hatt3 & Hsto3 & Hnone3).
  rewrite io_bind_run. rewrite io_bind_run. unfold lift at 1. cbv beta iota.
  rewrite Hthree.
  exists w3. split; [done|].
  unfold w1 in *. rewrite after_post_attempts, length_app in Hatt2.
  simpl in Hatt2. split; [unfold groups, events; lia|]. split.
  - etrans; [apply (after_post_stored clickhouse q Inserted_summary
                      Failed_summary)|]. by etrans.
  - intros Hrefuse.
    rewrite (Hnone3 Hrefuse), (Hnone2 Hrefuse). by apply after_post_refused.
Qed.

Lemma X21_ingestion_reports_success_whatever_the_store_did_witness :
  ∃ w',
    HyperDX.ingest_comprehensive_results (λ _ _, Unreachable "refused")
      (λ _, "id") (λ ts, Some ts)
      (JObj [("summary",
              JObj [("Duration", JInt 5);
                    ("ByGroup", JObj [("basic", JObj [])])])])
      "now" (World [] [] [])
    = (Ok true, w')
    ∧ length (attempts w') = 2%nat
    ∧ stored w' = [].
Proof.
  destruct (X21_ingestion_reports_success_whatever_the_store_did
              (λ _ _, Unreachable "refused") (λ _, "id") (λ ts, Some ts)
              [("summary",
                JObj [("Duration", JInt 5);
                      ("ByGroup", JObj [("basic", JObj [])])])]
              [("Duration", JInt 5); ("ByGroup", JObj [("basic", JObj [])])]
              "now" (World [] [] []))
    as (w' & Hrun & Hatt & _ & Hnone).
  - reflexivity.
  - split; [by eexists|]. split.
    + intros g Hg. injection Hg as <-. eexists. split; [reflexivity|].
      repeat constructor. eexists. split; [reflexivity|]. by eexists.
    + intros a Ha. discriminate Ha.
  - exists w'. split; [exact Hrun|]. split; [exact Hatt|].
    apply Hnone. intros n q text Hreply. discriminate Hreply.
Defined.

(** An event without the member ["Timestamp"]: [event['Timestamp']]
    raises before anything is posted for it. *)
Lemma ingest_event_without_timestamp clickhouse event_time group_name k
    members w :
  assoc "Timestamp" members = None →
  HyperDX.ingest_event clickhouse event_time group_name k (JObj members) w
  = (Raise KeyError, w).
Proof.
  intros Hts. unfold HyperDX.ingest_event.
  rewrite io_bind_run. unfold lift at 1.
  unfold mbind at 1. unfold py_bind, py_index. by rewrite Hts.
Qed.

(** X22.  An event without ["Timestamp"] ends [ingest_throttle_events]
    with a [KeyError], but only from there on: the events of the entries
    before it and the events before it in its own list have been posted
    and stay, the events after it are never posted, and the line with the
    number of inserted events is not printed. *)
Theorem X22_event_without_timestamp_stops_the_rest_only clickhouse event_time
    (before rest : list (string * json)) name fields
    (events1 events2 : list json) members timestamp w :
  Forall (λ item, readable_analysis event_time item.2) before →
  assoc "ThrottleEvents" fields
  = Some (JArr (events1 ++ JObj members :: events2)) →
  Forall (readable_event event_time) events1 →
  assoc "Timestamp" members = None →
  ∃ w' errs,
    HyperDX.ingest_throttle_events clickhouse event_time
      (JObj (before ++ (name, JObj fields) :: rest)) timestamp w
    = (Raise KeyError, w')
    ∧ length (attempts w')
      = (length (attempts w) + length (concat (events_of <$> before.*2))
         + length events1)%nat
    ∧ stored w `prefix_of` stored w'
    ∧ printed w' = printed w ++ Inserting_events :: errs
    ∧ Forall (λ l, failure_line l = true) errs.
Proof.
  intros Hbefore Hev Hevents Hts. unfold HyperDX.ingest_throttle_events.
  rewrite io_bind_run. unfold print at 1. cbv beta iota.
  rewrite io_bind_run. unfold lift at 1, py_items. cbv beta iota.
  set (w0 := World (attempts w) (stored w) (printed w ++ [Inserting_events])).
  rewrite io_bind_run. rewrite fold_each_app.
  destruct (ingest_analysis_run clickhouse event_time before O w0 Hbefore)
    as (k1 & w1 & errs1 & Hloop1 & Hatt1 & Hsto1 & Hpr1 & Herrs1 & _).
  rewrite Hloop1. cbn [fold_each].
  rewrite io_bind_run. rewrite io_bind_run. unfold lift at 1. cbn [py_in].
  rewrite Hev. rewrite bool_decide_true by eauto. cbv beta iota.
  rewrite io_bind_run. unfold lift at 1.
  unfold mbind at 1. unfold py_bind, py_index, py_iter. rewrite Hev.
  cbv beta iota. rewrite fold_each_app.
  destruct (ingest_events_run clickhouse event_time name events1 k1 w1 Hevents)
    as (k2 & w2 & errs2 & Hloop2 & Hatt2 & Hsto2 & Hpr2 & Herrs2 & _).
  rewrite Hloop2. cbn [fold_each]. rewrite io_bind_run.
  rewrite (ingest_event_without_timestamp _ _ _ _ _ _ Hts).
  exists w2, (errs1 ++ errs2). split; [done|]. unfold w0 in *. simpl in *.
  split; [lia|]. split; [by etrans|]. split.
  - rewrite Hpr2, Hpr1. by rewrite <- !app_assoc.
  - by apply Forall_app.
Qed.

Lemma X22_event_without_timestamp_stops_the_rest_only_witness :
  ∃ w',
    HyperDX.ingest_throttle_events (λ _ _, Accepted "") (λ ts, Some ts)
      (JObj [("basic",
              JObj [("ThrottleEvents",
                     JArr [JObj [("Timestamp", JStr "2025-01-01T00:00:00")];
                           JObj [("Group", JStr "basic")];
                           JObj [("Timestamp", JStr "2025-01-01T00:00:02")]])])])
      "now" (World [] [] [])
    = (Raise KeyError, w')
    ∧ length (attempts w') = 1%nat.
Proof.
  destruct (X22_event_without_timestamp_stops_the_rest_only
              (λ _ _, Accepted "") (λ ts, Some ts) [] [] "basic"
              [("ThrottleEvents",
                JArr [JObj [("Timestamp", JStr "2025-01-01T00:00:00")];
                      JObj [("Group", JStr "basic")];
                      JObj [("Timestamp", JStr "2025-01-01T00:00:02")]])]
              [JObj [("Timestamp", JStr "2025-01-01T00:00:00")]]
              [JObj [("Timestamp", JStr "2025-01-01T00:00:02")]]
              [("Group", JStr "basic")] "now" (World [] [] []))
    as (w' & errs & Hrun & Hatt & _).
  - constructor.
  - reflexivity.
  - repeat constructor. by do 3 eexists.
  - reflexivity.
  - exists w'. split; [exact Hrun|exact Hatt].
Defined.

(** *** [import_data.py] *)

Lemma mapM_py_cons {A B} (g : A → py B) x l y ys :
  g x = Ok y → mapM g l = Ok ys → mapM g (x :: l) = Ok (y :: ys).
Proof. intros Hx Hl. cbn [mapM]. rewrite Hx. cbn. by rewrite Hl. Qed.

Lemma mapM_py_raise {A B} (g : A → py B) x l y e :
  g x = Ok y → mapM g l = Raise e → mapM g (x :: l) = Raise e.
Proof. intros Hx Hl. cbn [mapM]. rewrite Hx. cbn. by rewrite Hl. Qed.

Lemma build_records_objects uuid4 now_text (f : nat → nat)
    (items : list (string * json)) :
  Forall (λ item, is_object item.2) items →
  ∃ rs,
    mapM (λ '(n, (group_name, group_data)),
            ImportData.build_record uuid4 now_text n group_name group_data)
      (imap (λ n item, (f n, item)) items) = Ok rs
    ∧ Forall2 (λ item r,
                 ImportData.group r = item.1
                 ∧ ImportData.requests_sent r
                   = default (JInt 0)
                       (assoc "RequestsSent" (members_of (Some item.2))))
        items rs.
Proof.
  intros Hok. revert f.
  induction Hok as [|[name data] items Hobj _ IH]; intros f.
  { exists []. split; [done|constructor]. }
  destruct data as [| | | | | |members]; try by destruct Hobj.
  destruct (IH (f ∘ S)) as (rs & Hrest & Hrows).
  eexists (_ :: rs). split.
  - cbn [imap]. apply mapM_py_cons; [reflexivity|exact Hrest].
  - constructor; [done|exact Hrows].
Qed.

Lemma build_records_unreadable uuid4 now_text (f : nat → nat)
    (items : list (string * json)) :
  Exists (λ item, ¬ is_object item.2) items →
  mapM (λ '(n, (group_name, group_data)),
          ImportData.build_record uuid4 now_text n group_name group_data)
    (imap (λ n item, (f n, item)) items) = Raise AttributeError.
Proof.
  revert f. induction items as [|[name data] items IH]; intros f Hbad.
  { by apply Exists_nil in Hbad. }
  destruct data as [| | | | | |members]; try reflexivity.
  apply Exists_cons in Hbad as [Hbad|Hbad]; [by destruct Hbad|].
  cbn [imap]. eapply mapM_py_raise; [reflexivity|exact (IH (f ∘ S) Hbad)].
Qed.

(** The importer from the parsed file to the insert loop. *)
Lemma import_results_unfold clickhouse uuid4 now_text
    (top members items : list (string * json)) w :
  assoc "summary" top = Some (JObj members) →
  assoc "ByGroup" members = Some (JObj items) →
  ImportData.import_results_to_clickhouse clickhouse uuid4 now_text (JObj top) w
  = match mapM (λ '(n, (group_name, group_data)),
                  ImportData.build_record uuid4 now_text n group_name
                    group_data)
            (imap (λ n item, (n, item)) items) with
    | Ok [] =>
        (Ok false, World (attempts w) (stored w) (printed w ++ [No_data]))
    | Ok (r :: rs) =>
        ImportData.insert_records clickhouse (r :: rs)
          (World (attempts w) (stored w)
             (printed w ++ [Found_records (length (r :: rs))]))
    | Raise e => (Raise e, w)
    end.
Proof.
  intros Hsum Hgroups.
  assert (py_in "summary" (JObj top) = Ok true) as Hin.
  { simpl. rewrite Hsum. by rewrite bool_decide_true by eauto. }
  assert (py_index (JObj top) "summary" = Ok (JObj members)) as Hidx.
  { simpl. by rewrite Hsum. }
  assert (py_in "ByGroup" (JObj members) = Ok true) as Hin'.
  { simpl. rewrite Hgroups. by rewrite bool_decide_true by eauto. }
  assert (py_index (JObj members) "ByGroup" ≫= py_items = Ok items) as Hidx'.
  { simpl. by rewrite Hgroups. }
  unfold ImportData.import_results_to_clickhouse. rewrite Hin.
  rewrite io_bind_run. unfold lift at 1. cbv beta iota. rewrite Hidx.
  rewrite io_bind_run. rewrite io_bind_run. unfold lift at 1. cbv beta iota.
  rewrite Hin'. rewrite io_bind_run. unfold lift at 1. cbv beta iota.
  rewrite Hidx'. unfold lift at 1. cbv beta iota.
  rewrite io_bind_run. unfold lift at 1.
  destruct (mapM _ _) as [[|r rs]|e]; reflexivity.
Qed.

(** The insert loop against a store that can be reached, with what it
    leaves in the store. *)
Lemma insert_records_reached clickhouse rs w :
  (∀ n q e, clickhouse n q ≠ Unreachable e) →
  ∃ w', ImportData.insert_records clickhouse rs w = (Ok true, w')
    ∧ attempts w' = attempts w ++ (ImportData.insert_of <$> rs)
    ∧ stored w `prefix_of` stored w'
    ∧ ((∀ n q text, clickhouse n q ≠ Accepted text) → stored w' = stored w).
Proof.
  intros Hup. revert w. induction rs as [|r rs IH]; intros w; simpl.
  { exists w. by rewrite app_nil_r. }
  unfold mbind at 1. unfold io_bind at 1. unfold post at 1.
  destruct (clickhouse (length (attempts w)) (ImportData.insert_of r))
    as [text|status text|e] eqn:Hreply.
  - unfold mbind at 1. unfold io_bind at 1. unfold print at 1.
    match goal with |- context [ImportData.insert_records _ _ ?w1] =>
      destruct (IH w1) as (w' & Hrun & Hatt & Hsto & Hnone) end.
    exists w'. split; [done|]. simpl in *. split; [|split].
    + rewrite Hatt. by rewrite <- app_assoc.
    + etrans; [|exact Hsto]. by apply prefix_app_r.
    + intros Hrefuse. by destruct (Hrefuse _ _ _ Hreply).
  - unfold mbind at 1. unfold io_bind at 1. unfold print at 1.
    match goal with |- context [ImportData.insert_records _ _ ?w1] =>
      destruct (IH w1) as (w' & Hrun & Hatt & Hsto & Hnone) end.
    exists w'. split; [done|]. simpl in *. split; [|split].
    + rewrite Hatt. by rewrite <- app_assoc.
    + exact Hsto.
    + exact Hnone.
  - by destruct (Hup _ _ _ Hreply).
Qed.

(** X23.  [import_results_to_clickhouse] builds every record before the
    first POST: when one group of the export, wherever it stands, is not
    an object, the call ends with the [AttributeError] of its first
    [get], and nothing has been posted or printed, not even the rows of
    the groups before it. *)
Theorem X23_import_posts_nothing_when_a_group_is_unreadable clickhouse uuid4
    now_text (top members items : list (string * json)) w :
  assoc "summary" top = Some (JObj members) →
  assoc "ByGroup" members = Some (JObj items) →
  Exists (λ item, ¬ is_object item.2) items →
  ImportData.import_results_to_clickhouse clickhouse uuid4 now_text (JObj top) w
  = (Raise AttributeError, w).
Proof.
  intros Hsum Hgroups Hbad.
  rewrite (import_results_unfold _ _ _ _ _ _ _ Hsum Hgroups).
  change (λ (n : nat) (item : string * json), (n, item))
    with (λ (n : nat) (item : string * json), (id n, item)).
  by rewrite (build_records_unreadable uuid4 now_text id items Hbad).
Qed.

Lemma X23_import_posts_nothing_when_a_group_is_unreadable_witness :
  ImportData.import_results_to_clickhouse (λ _ _, Accepted "") (λ _, "id")
    (λ _, "now")
    (JObj [("summary",
            JObj [("ByGroup",
                   JObj [("premium", JObj [("RequestsSent", JInt 100)]);
                         ("basic", JNull)])])])
    (World [] [] [])
  = (Raise AttributeError, World [] [] []).
Proof.
  apply (X23_import_posts_nothing_when_a_group_is_unreadable
           (λ _ _, Accepted "") (λ _, "id") (λ _, "now") _
           [("ByGroup",
             JObj [("premium", JObj [("RequestsSent", JInt 100)]);
                   ("basic", JNull)])]
           [("premium", JObj [("RequestsSent", JInt 100)]); ("basic", JNull)]).
  - reflexivity.
  - reflexivity.
  - apply Exists_cons_tl, Exists_cons_hd. simpl. tauto.
Defined.

(** X24.  Against a store that can be reached the importer posts one
    [test_results] row per group, in file order, each with the group's
    name and its ["RequestsSent"] (zero when absent), and returns [True]
    whatever the store answered: when every row is rejected nothing is
    stored and the result is still [True]. *)
Theorem X24_import_reports_success_when_rows_are_rejected clickhouse uuid4
    now_text (top members items : list (string * json)) w :
  assoc "summary" top = Some (JObj members) →
  assoc "ByGroup" members = Some (JObj items) →
  items ≠ [] →
  Forall (λ item, is_object item.2) items →
  (∀ n q e, clickhouse n q ≠ Unreachable e) →
  ∃ w' qs,
    ImportData.import_results_to_clickhouse clickhouse uuid4 now_text
      (JObj top) w = (Ok true, w')
    ∧ attempts w' = attempts w ++ qs
    ∧ Forall2 (λ item q,
                 q_table q = "test_results"
                 ∧ column "group" (q_row q) = Some (Text item.1)
                 ∧ column "requests_sent" (q_row q)
                   = Some (Bare (default (JInt 0)
                                   (assoc "RequestsSent"
                                      (members_of (Some item.2))))))
        items qs
    ∧ stored w `prefix_of` stored w'
    ∧ ((∀ n q text, clickhouse n q ≠ Accepted text) → stored w' = stored w).
Proof.
  intros Hsum Hgroups Hsome Hok Hup.
  rewrite (import_results_unfold _ _ _ _ _ _ _ Hsum Hgroups).
  change (λ (n : nat) (item : string * json), (n, item))
    with (λ (n : nat) (item : string * json), (id n, item)).
  destruct (build_records_objects uuid4 now_text id items Hok)
    as (rs & -> & Hrows).
  destruct rs as [|r rs].
  { apply Forall2_length in Hrows. by destruct items. }
  match goal with |- context [ImportData.insert_records _ _ ?w1] =>
    destruct (insert_records_reached clickhouse (r :: rs) w1 Hup)
      as (w' & Hrun & Hatt & Hsto & Hnone) end.
  exists w', (ImportData.insert_of <$> r :: rs).
  split; [exact Hrun|]. split; [exact Hatt|]. split; [|split; done].
  apply Forall2_fmap_r. eapply Forall2_impl; [exact Hrows|].
  intros item r' [Hname Hsent]. simpl in *.
  by rewrite Hname, Hsent.
Qed.

Lemma X24_import_reports_success_when_rows_are_rejected_witness :
  ∃ w' qs,
    ImportData.import_results_to_clickhouse (λ _ _, Rejected 500 "Code: 62")
      (λ _, "id") (λ _, "now")
      (JObj [("summary",
              JObj [("ByGroup",
                     JObj [("premium", JObj [("RequestsSent", JInt 100)]);
                           ("basic", JObj [])])])])
      (World [] [] [])
    = (Ok true, w')
    ∧ attempts w' = qs ∧ length qs = 2%nat ∧ stored w' = [].
Proof.
  destruct (X24_import_reports_success_when_rows_are_rejected
              (λ _ _, Rejected 500 "Code: 62") (λ _, "id") (λ _, "now")
              [("summary",
                JObj [("ByGroup",
                       JObj [("premium", JObj [("RequestsSent", JInt 100)]);
                             ("basic", JObj [])])])]
              [("ByGroup",
                JObj [("premium", JObj [("RequestsSent", JInt 100)]);
                      ("basic", JObj [])])]
              [("premium", JObj [("RequestsSent", JInt 100)]);
               ("basic", JObj [])]
              (World [] [] []))
    as (w' & qs & Hrun & Hatt & Hrows & _ & Hnone).
  - reflexivity.
  - reflexivity.
  - discriminate.
  - repeat constructor.
  - intros n q e Hreply. discriminate Hreply.
  - exists w', qs. split; [exact Hrun|]. split; [exact Hatt|]. split.
    + by rewrite <- (Forall2_length _ _ _ Hrows).
    + apply Hnone. intros n q text Hreply. discriminate Hreply.
Defined.
